(** * OpenQA evidence self-training: a shallow embedding of [main.py]

    The development follows [src/main.py]: the answer span matcher
    ([has_answer]), the [HasAnswer_Map] cache filled by the training loops,
    the two phases of [update_evidence] (accumulation of the confidence
    records and the global top-k promotion into [Evidence_Label]) and the
    vote aggregation of [validate_unofficial_with_doc]; then the loops of
    [train], [pretrain_reader] and [pretrain_selector] up to the calls of
    the model, the loop of the validation with its ranking diagnostic, and
    the choice of the model over the epochs of [main].

    Conventions.
    - Python exceptions are the constructors of [exn]; a computation that may
      raise returns a [result].
    - A Python [dict] iterates in insertion order, so the dictionaries whose
      order is observed ([Probability], [Attention_Weight], [scores[i]]) are
      association lists kept without duplicate keys (module [OD]); the
      dictionaries that are only indexed ([HasAnswer_Map], [Evidence_Label])
      are [gmap]s.
    - The scores that [update_evidence] stores and compares, without any
      arithmetic, are modelled by the rationals they denote (finite values,
      no NaN).  The scores of the vote are added and multiplied: their
      arithmetic is the parameter [Number], of which the floats of 64 bits
      and the exact rationals are two instances.
    - The neural model, the tokenizer, [normalize], [str.lower] and the
      [regex] engine are not part of the repository's sources: the model's
      answers are variables of the sections, the others the fields of
      [Externals].
    - The meters and the lines of the log are left out ([display_iter] is
      taken different from 0), but for the lines whose arguments can raise.
    - The calls of the model are taken to return, and a batch to hold an
      entry for each document slot. *)

From Stdlib Require Import ZArith QArith List String Ascii Lia.
From Stdlib Require Import Permutation Sorted DecimalString DecimalNat Floats.
From stdpp Require Import base option list gmap strings.

Local Open Scope Z_scope.

(** ** Exceptions and results *)

Inductive exn : Type :=
  | IndexError
  | KeyError
  | ValueError
  | TypeError
  | ZeroDivisionError.

Inductive result (A : Type) : Type :=
  | Ok (a : A)
  | Raise (e : exn).

Arguments Ok {A} a.
Arguments Raise {A} e.

#[global] Instance result_ret : MRet result := fun A a => Ok a.
#[global] Instance result_bind : MBind result := fun A B f r =>
  match r with
  | Ok a => f a
  | Raise e => Raise e
  end.

Definition of_option {A} (e : exn) (o : option A) : result A :=
  match o with
  | Some a => Ok a
  | None => Raise e
  end.

Definition is_ok {A} (r : result A) : bool :=
  match r with
  | Ok _ => true
  | Raise _ => false
  end.

(** ** Python strings and lists *)

Module Py.

(** [sep.join(l)]. *)
Fixpoint join (sep : string) (l : list string) : string :=
  match l with
  | [] => ""
  | [x] => x
  | x :: rest => x +:+ sep +:+ join sep rest
  end.

(** Iterating over a [str] yields its one-character strings. *)
Fixpoint chars (s : string) : list string :=
  match s with
  | EmptyString => []
  | String c s' => String c EmptyString :: chars s'
  end.

(** [range(a, b)]. *)
Definition range (a b : Z) : list Z :=
  map (fun k : nat => a + Z.of_nat k) (seq 0 (Z.to_nat (b - a))).

(** [l[j]] for an integer [j]: a negative index counts from the end, and an
    index outside [-len(l) .. len(l) - 1] raises [IndexError]. *)
Definition index {A} (l : list A) (j : Z) : result A :=
  let n := Z.of_nat (length l) in
  if (0 <=? j) && (j <? n) then of_option IndexError (l !! Z.to_nat j)
  else if (- n <=? j) && (j <? 0) then of_option IndexError (l !! Z.to_nat (n + j))
  else Raise IndexError.

(** [l[i : i + n]] for non-negative [i] and [n]. *)
Definition slice {A} (l : list A) (i n : nat) : list A := take n (drop i l).

End Py.

(** ** Insertion-ordered dictionaries *)

Module OD.
Section odict.
Context {V : Type}.

(** [d[k]] *)
Fixpoint get (k : string) (d : list (string * V)) : option V :=
  match d with
  | [] => None
  | (k', v) :: d' => if decide (k = k') then Some v else get k d'
  end.

(** [k in d] *)
Definition mem (k : string) (d : list (string * V)) : bool :=
  bool_decide (is_Some (get k d)).

(** [d[k] = v]: an existing key keeps its place, a new key goes last. *)
Fixpoint set (k : string) (v : V) (d : list (string * V)) : list (string * V) :=
  match d with
  | [] => [(k, v)]
  | (k', v') :: d' => if decide (k = k') then (k', v) :: d' else (k', v') :: set k v d'
  end.

Definition keys (d : list (string * V)) : list string := map fst d.

End odict.
End OD.

(** ** Command-line arguments read by the modelled functions *)

Record Args : Type := mkArgs {
  dataset : string;   (* --dataset *)
  top_k : Z           (* --top_k, [type=int] *)
}.

(** ** The answer span matcher, [has_answer] *)

(** An accepted answer is a [str] (a pattern, for CuratedTrec) or a list of
    tokens (the other datasets), see [read_data]. *)
Inductive pyans : Type :=
  | AStr (s : string)
  | AList (l : list string).

(** An element of the list returned by [findall]: a [str] when the pattern
    has one group, a tuple of the groups otherwise. *)
Inductive pymatch : Type :=
  | MStr (s : string)
  | MTuple (l : list string).

Definition span : Type := (Z * Z)%type.

(** The windows of [text] equal to [single_answer], left to right:
[[
    for i in range(0, len(text) - len(single_answer) + 1):
        if single_answer == text[i: i + len(single_answer)]:
            res_list.append((i, i+len(single_answer)-1))
]] *)
Definition windows (single_answer text : list string) : list span :=
  let n := length single_answer in
  omap (fun j : Z =>
          let i := Z.to_nat j in
          if decide (single_answer = Py.slice text i n)
          then Some (j, j + Z.of_nat n - 1) else None)
       (Py.range 0 (Z.of_nat (length text) - Z.of_nat n + 1)).

(** The last lines of [has_answer]. *)
Definition finish (res_list : list span) : bool * list span :=
  if (0 <? Z.of_nat (length res_list)) then (true, res_list) else (false, res_list).

(** The collaborators that are not in the repository's sources, and the
    lower-casing of Python's strings. *)
Class Externals : Type := {
  (** [normalize] of [src.retriever.utils]. *)
  normalize : string -> string;
  (** [PROCESS_TOK.tokenize(s).words(uncased=True)]. *)
  tokenize_words : string -> list string;
  (** [s.lower()], which follows the tables of Unicode. *)
  str_lower : string -> string;
  (** The [regex] module: [compile] with the flags of [has_answer] ([None]
      for a pattern that does not compile) and [findall]. *)
  regex : Type;
  re_compile : string -> option regex;
  re_findall : regex -> string -> list pymatch;
  (** [str] of a list, for ["(%s)" % answer[0]] on a token list. *)
  str_of_list : list string -> string
}.

Section matcher.
Context `{Externals}.

(** ["%s" % a] *)
Definition format_s (a : pyans) : string :=
  match a with
  | AStr s => s
  | AList l => str_of_list l
  end.

(** ["(%s)" % answer[0]] *)
Definition pattern_of (a0 : pyans) : string := "(" +:+ format_s a0 +:+ ")".

(** [" ".join(a)] *)
Definition join_answer (a : pyans) : string :=
  match a with
  | AStr s => Py.join " " (Py.chars s)
  | AList l => Py.join " " l
  end.

(** [a[0]] on an element of [findall]'s result. *)
Definition match_head (a : pymatch) : result string :=
  match a with
  | MStr (String c _) => Ok (String c EmptyString)
  | MStr EmptyString => Raise IndexError
  | MTuple (g :: _) => Ok g
  | MTuple [] => Raise IndexError
  end.

(** The loop over [answer_new] of the CuratedTrec branch. *)
Fixpoint regex_spans (text : list string) (answer_new : list pymatch)
    (res_list : list span) : result (list span) :=
  match answer_new with
  | [] => Ok res_list
  | a :: rest =>
      a0 ← match_head a;
      let single_answer := tokenize_words (normalize a0) in
      regex_spans text rest (res_list ++ windows single_answer text)
  end.

(** The tokens of one accepted answer in the other branch. *)
Definition token_answer (a : pyans) : list string :=
  tokenize_words (normalize (str_lower (join_answer a))).

(** The loop over [answer] of the other branch. *)
Fixpoint exact_spans (text : list string) (answer : list pyans)
    (res_list : list span) : list span :=
  match answer with
  | [] => res_list
  | a :: rest => exact_spans text rest (res_list ++ windows (token_answer a) text)
  end.

Definition has_answer (args : Args) (answer : list pyans) (t : list string)
    : result (bool * list span) :=
  let text := map str_lower t in
  let res_list : list span := [] in
  if decide (dataset args = "CuratedTrec") then
    (* try: ans_regex = re.compile("(%s)"%answer[0], ...)
       except: return False, res_list *)
    match a0 ← answer !! 0%nat; re_compile (pattern_of a0) with
    | None => Ok (false, res_list)
    | Some ans_regex =>
        let paragraph := Py.join " " text in
        let answer_new := re_findall ans_regex paragraph in
        res_list ← regex_spans text answer_new res_list;
        Ok (finish res_list)
    end
  else Ok (finish (exact_spans text answer res_list)).

End matcher.

(** The window of [text] that starts at token [i] is [single_answer]. *)
Definition window_at (single_answer text : list string) (i : nat) : Prop :=
  ∃ before after : list string,
    text = before ++ single_answer ++ after ∧ length before = i.

(** The inclusive positions of the window of [single_answer] at [i]. *)
Definition span_at (single_answer : list string) (i : nat) : span :=
  (Z.of_nat i, Z.of_nat i + Z.of_nat (length single_answer) - 1).


(** ** The data seen by the loops *)

(** An entry of [exs_with_doc]. *)
Record Example : Type := mkExample {
  answer : list pyans;
  question : string
}.

(** One element of the data loader, as far as the loops read it: the
    identifiers [ex[-1]] of the examples and the batch size [ex[0].size(0)]. *)
Record Batch : Type := mkBatch {
  ex_id : list nat;
  batch_size : nat
}.

(** What [model.update_with_doc(..., return_prob=True)] returns for a batch:
    [probs], and [attentions] as the pair (maximal values, their indices). *)
Record ModelOut : Type := mkModelOut {
  probs : list Q;
  attentions : list Q * list Z
}.

(** A record of a HasAnswer grid and the grid [HasAnswer_list] of a batch:
    one row per document, one record per example. *)
Definition cell : Type := (bool * list span)%type.
Definition grid : Type := list (list cell).

(** A call of the matcher: batch index, document slot, index in the batch. *)
Definition call : Type := (nat * nat * nat)%type.

(** The module-level dictionaries [HasAnswer_Map] and [Evidence_Label];
    [matcher_calls] is a ghost log of the calls of [has_answer] made through
    the cache. *)
Record Globals : Type := mkGlobals {
  HasAnswer_Map : gmap nat grid;
  Evidence_Label : gmap nat (list Z);
  matcher_calls : list call
}.

Definition fresh_globals : Globals :=
  {| HasAnswer_Map := ∅; Evidence_Label := ∅; matcher_calls := [] |}.

(** The arguments of the passes that are not mutated. *)
Record Corpus : Type := mkCorpus {
  (** [vector.num_docs] *)
  num_docs : nat;
  exs_with_doc : list Example;
  (** [docs_by_question[q][d]["document"]] *)
  docs_by_question : list (list (list string))
}.

(** ** The HasAnswer cache *)

Section cache.
Context `{Externals}.
Variable args : Args.
Variable corpus : Corpus.

(** [has_answer(args, exs_with_doc[ex_id[i]]['answer'],
      docs_by_question[ex_id[i]][idx_doc%len(docs_by_question[ex_id[i]])]["document"])] *)
Definition has_answer_cell (b : Batch) (idx_doc i : nat) : result cell :=
  q ← of_option IndexError (ex_id b !! i);
  ex ← of_option IndexError (exs_with_doc corpus !! q);
  pool ← of_option IndexError (docs_by_question corpus !! q);
  if decide (length pool = 0%nat) then Raise ZeroDivisionError
  else
    doc ← of_option IndexError (pool !! (idx_doc mod length pool)%nat);
    has_answer args (answer ex) doc.

(** [for i in range(batch_size): HasAnswer.append(has_answer(...))] *)
Fixpoint has_answer_row (idx : nat) (b : Batch) (idx_doc : nat) (rng : list nat)
    (HasAnswer : list cell) (calls : list call) : result (list cell * list call) :=
  match rng with
  | [] => Ok (HasAnswer, calls)
  | i :: rest =>
      r ← has_answer_cell b idx_doc i;
      has_answer_row idx b idx_doc rest (HasAnswer ++ [r]) (calls ++ [(idx, idx_doc, i)])
  end.

(** [for idx_doc in range(0, vector.num_docs): ... HasAnswer_list.append(HasAnswer)] *)
Fixpoint has_answer_grid (idx : nat) (b : Batch) (ds : list nat)
    (HasAnswer_list : grid) (calls : list call) : result (grid * list call) :=
  match ds with
  | [] => Ok (HasAnswer_list, calls)
  | idx_doc :: rest =>
      '(HasAnswer, calls) ← has_answer_row idx b idx_doc (seq 0 (batch_size b)) [] calls;
      has_answer_grid idx b rest (HasAnswer_list ++ [HasAnswer]) calls
  end.

(** The visit of batch [idx], as written at the head of the loops of
    [train], [update_evidence] and [pretrain_reader]:
[[
    if (idx not in HasAnswer_Map): ...; HasAnswer_Map[idx] = HasAnswer_list
    else: HasAnswer_list = HasAnswer_Map[idx]
]] *)
Definition visit (idx : nat) (b : Batch) (G : Globals) : result (grid * Globals) :=
  match HasAnswer_Map G !! idx with
  | None =>
      '(HasAnswer_list, calls) ←
        has_answer_grid idx b (seq 0 (num_docs corpus)) [] (matcher_calls G);
      Ok (HasAnswer_list,
          {| HasAnswer_Map := <[idx := HasAnswer_list]> (HasAnswer_Map G);
             Evidence_Label := Evidence_Label G;
             matcher_calls := calls |})
  | Some HasAnswer_list => Ok (HasAnswer_list, G)
  end.

(** Any sequence of visits, in one pass or over several passes. *)
Fixpoint visits (vs : list (nat * Batch)) (G : Globals) : result (list grid * Globals) :=
  match vs with
  | [] => Ok ([], G)
  | (idx, b) :: rest =>
      '(g, G) ← visit idx b G;
      '(gs, G) ← visits rest G;
      Ok (g :: gs, G)
  end.

End cache.

(** ** Specification of the cache *)

(** The cells of the grid of a batch, in the order of the two loops. *)
Definition cells (D : nat) (idx : nat) (b : Batch) : list call :=
  flat_map (fun idx_doc => map (fun i => (idx, idx_doc, i)) (seq 0 (batch_size b)))
           (seq 0 D).

(** The calls of the matcher were made for cached batches, each once. *)
Definition cache_inv (G : Globals) : Prop :=
  NoDup (matcher_calls G)
  ∧ ∀ c : call, c ∈ matcher_calls G → is_Some (HasAnswer_Map G !! c.1.1).

(** ** The keys of the confidence records *)

(** ["%d" % n] *)
Definition format_d (n : nat) : string := NilEmpty.string_of_uint (Nat.to_uint n).

(** ["%d|%d" % (idx, i)] *)
Definition mk_key (idx i : nat) : string := format_d idx +:+ "|" +:+ format_d i.

(** [s.split(sep)] for a separator of one character. *)
Fixpoint split_on (sep : ascii) (s : string) : list string :=
  match s with
  | EmptyString => [EmptyString]
  | String c s' =>
      if decide (c = sep) then EmptyString :: split_on sep s'
      else match split_on sep s' with
           | h :: t => String c h :: t
           | [] => [String c EmptyString]
           end
  end.

(** [int(s)] on the strings of decimal digits, the only ones the keys hold;
    anything else is a [ValueError]. *)
Definition int_of (s : string) : result nat :=
  if decide (s = "") then Raise ValueError
  else of_option ValueError (Nat.of_uint <$> NilEmpty.uint_of_string s).

(** [idx, i = key.split('|'); idx = int(idx); i = int(i)] *)
Definition parse_key (key : string) : result (nat * nat) :=
  match split_on "|" key with
  | [a; b] => idx ← int_of a; i ← int_of b; Ok (idx, i)
  | _ => Raise ValueError
  end.

(** A string without the character [sep]. *)
Fixpoint free_of (sep : ascii) (s : string) : Prop :=
  match s with
  | EmptyString => True
  | String c s' => c ≠ sep ∧ free_of sep s'
  end.

(** ** [update_evidence] *)

(** [Evidence_Label[idx][i]] *)
Definition label (EL : gmap nat (list Z)) (idx i : nat) : result Z :=
  row ← of_option KeyError (EL !! idx);
  of_option IndexError (row !! i).

(** [Evidence_Label[idx][i] = v] *)
Definition set_label (EL : gmap nat (list Z)) (idx i : nat) (v : Z)
    : result (gmap nat (list Z)) :=
  row ← of_option KeyError (EL !! idx);
  if decide (i < length row)%nat then Ok (<[idx := <[i := v]> row]> EL)
  else Raise IndexError.

(** [if (idx not in Evidence_Label): Evidence_Label[idx] = [-1] * batch_size] *)
Definition init_evidence (idx : nat) (b : Batch) (EL : gmap nat (list Z))
    : gmap nat (list Z) :=
  match EL !! idx with
  | None => <[idx := replicate (batch_size b) (-1)]> EL
  | Some _ => EL
  end.

(** A confidence record of [Attention_Weight]: the key and
    [(max_value, max_index)]. *)
Abbreviation record := (string * (Q * Z))%type.
Definition best_score (r : record) : Q := r.2.1.
Definition best_doc_index (r : record) : Z := r.2.2.

(** Phase 1, the loop that closes the body of the pass on batch [idx]:
[[
    for i in range(batch_size):
        key = "%d|%d" % (idx, i)
        if key in Probability or key in Attention_Weight:
            raise ValueError(...)
        Probability[key] = probs[i]
        Attention_Weight[key] = (attentions[0][i], attentions[1][i])
]] *)
Fixpoint accumulate (idx : nat) (out : ModelOut) (rng : list nat)
    (Probability : list (string * Q)) (Attention_Weight : list record)
    : result (list (string * Q) * list record) :=
  match rng with
  | [] => Ok (Probability, Attention_Weight)
  | i :: rest =>
      let key := mk_key idx i in
      if OD.mem key Probability || OD.mem key Attention_Weight
      then Raise ValueError
      else
        p ← of_option IndexError (probs out !! i);
        a0 ← of_option IndexError ((attentions out).1 !! i);
        a1 ← of_option IndexError ((attentions out).2 !! i);
        accumulate idx out rest (OD.set key p Probability)
                   (OD.set key (a0, a1) Attention_Weight)
  end.

(** [sorted(..., key=lambda x: x[1][0], reverse=True)]: a stable sort by
    decreasing score, here by insertion. *)
Fixpoint insert_desc (x : record) (l : list record) : list record :=
  match l with
  | [] => [x]
  | y :: l' =>
      if Qle_bool (best_score y) (best_score x) then x :: y :: l'
      else y :: insert_desc x l'
  end.

Fixpoint sorted_desc (l : list record) : list record :=
  match l with
  | [] => []
  | x :: l' => insert_desc x (sorted_desc l')
  end.

(** The two lines that build [evidence_scores]. *)
Definition evidence_scores (Attention_Weight : list record) : list record :=
  sorted_desc (filter (fun r => best_doc_index r ≠ -1) Attention_Weight).

(** The state of the promotion loop. *)
Record Promotion : Type := mkPromotion {
  labels : gmap nat (list Z);     (* Evidence_Label *)
  count : Z;
  label_prob : list Q;
  label_attention : list Q
}.

(** Phase 2, the loop over [evidence_scores]:
[[
    for key, value in evidence_scores:
        idx, i = key.split('|'); idx = int(idx); i = int(i)
        if Evidence_Label[idx][i] != -1:
            continue
        count += 1
        Evidence_Label[idx][i] = value[1]
        label_prob.append(Probability[key])
        label_attention.append(Attention_Weight[key][0])
        if count >= Top_k:
            break
]] *)
Fixpoint promote_loop (Top_k : Z) (Probability : list (string * Q))
    (Attention_Weight : list record) (records : list record) (st : Promotion)
    : result Promotion :=
  match records with
  | [] => Ok st
  | (key, value) :: rest =>
      '(idx, i) ← parse_key key;
      l ← label (labels st) idx i;
      if decide (l ≠ -1) then promote_loop Top_k Probability Attention_Weight rest st
      else
        let count := count st + 1 in
        EL ← set_label (labels st) idx i value.2;
        p ← of_option KeyError (OD.get key Probability);
        a ← of_option KeyError (OD.get key Attention_Weight);
        let st := {| labels := EL; count := count;
                     label_prob := label_prob st ++ [p];
                     label_attention := label_attention st ++ [a.1] |} in
        if decide (count >= Top_k) then Ok st
        else promote_loop Top_k Probability Attention_Weight rest st
  end.

Definition promote (Top_k : Z) (Probability : list (string * Q))
    (Attention_Weight : list record) (EL : gmap nat (list Z)) : result Promotion :=
  promote_loop Top_k Probability Attention_Weight (evidence_scores Attention_Weight)
    {| labels := EL; count := 0; label_prob := []; label_attention := [] |}.

(** The lists built for the model, in [update_evidence] and in [train]. *)

(** An entry of [l_list]: the spans of the cell, or the pair [(-1,-1)] of a
    cell without answer. *)
Inductive target : Type :=
  | Spans (l : list span)
  | NoSpan.

(** [for idx_doc in idx_random:
       HasAnswer_list_sample.append(HasAnswer_list[idx_doc])]
    (with [enumerate(idx_random)] in [train]) *)
Fixpoint sample_rows {X} (HasAnswer_list : list X) (idx_random : list nat)
    : result (list X) :=
  match idx_random with
  | [] => Ok []
  | idx_doc :: rest =>
      row ← of_option IndexError (HasAnswer_list !! idx_doc);
      rows ← sample_rows HasAnswer_list rest;
      Ok (row :: rows)
  end.

(** The inner loop of [l_list_doc], over the examples of one document:
[[
    if HasAnswer_list[idx_doc][i][0]:
        l_list.append(HasAnswer_list[idx_doc][i][1])
    else:
        l_list.append((-1,-1))
]] *)
Fixpoint targets_of_row (HasAnswer_list : list (list (bool * list span)))
    (idx_doc : nat) (rng : list nat) : result (list target) :=
  match rng with
  | [] => Ok []
  | i :: rest =>
      '(flag, spans) ← of_option IndexError
            (HasAnswer_list !! idx_doc ≫= fun row : list (bool * list span) => row !! i);
      ts ← targets_of_row HasAnswer_list idx_doc rest;
      Ok ((if flag : bool then Spans spans else NoSpan) :: ts)
  end.

(** [for idx_doc in idx_random: ...; l_list_doc.append(l_list)] *)
Fixpoint targets_of_docs (HasAnswer_list : list (list (bool * list span)))
    (idx_random : list nat) (batch_size : nat) : result (list (list target)) :=
  match idx_random with
  | [] => Ok []
  | idx_doc :: rest =>
      l_list ← targets_of_row HasAnswer_list idx_doc (seq 0 batch_size);
      l_list_doc ← targets_of_docs HasAnswer_list rest batch_size;
      Ok (l_list :: l_list_doc)
  end.

Section update_evidence.
Context `{Externals}.
Variable args : Args.
Variable corpus : Corpus.
(** The model's answer on the batch of each index of the pass. *)
Variable model : nat → ModelOut.

(** The body of the loop over [enumerate(data_loader)]: the visit of the
    cache, the row of labels, the lists of the model in the order
    [range(vector.num_docs)], and the accumulation of the model's answer. *)
Fixpoint evidence_pass (idx : nat) (data_loader : list Batch) (G : Globals)
    (Probability : list (string * Q)) (Attention_Weight : list record)
    : result (Globals * list (string * Q) * list record) :=
  match data_loader with
  | [] => Ok (G, Probability, Attention_Weight)
  | b :: rest =>
      '(HasAnswer_list, G) ← visit args corpus idx b G;
      let G := {| HasAnswer_Map := HasAnswer_Map G;
                  Evidence_Label := init_evidence idx b (Evidence_Label G);
                  matcher_calls := matcher_calls G |} in
      let idx_random := seq 0 (num_docs corpus) in
      HasAnswer_list_sample ← sample_rows HasAnswer_list idx_random;
      l_list_doc ← targets_of_docs HasAnswer_list idx_random (batch_size b);
      '(Probability, Attention_Weight) ←
        accumulate idx (model idx) (seq 0 (batch_size b)) Probability Attention_Weight;
      evidence_pass (S idx) rest G Probability Attention_Weight
  end.

Definition update_evidence (data_loader : list Batch) (G : Globals)
    : result (Globals * Promotion) :=
  let Top_k := top_k args in
  '(G, Probability, Attention_Weight) ← evidence_pass 0 data_loader G [] [];
  st ← promote Top_k Probability Attention_Weight (Evidence_Label G);
  Ok ({| HasAnswer_Map := HasAnswer_Map G;
         Evidence_Label := labels st;
         matcher_calls := matcher_calls G |}, st).

End update_evidence.

(** The keys written by a pass over [data_loader] whose first batch has
    index [idx], in the order of the writes. *)
Fixpoint pass_keys (idx : nat) (data_loader : list Batch) : list string :=
  match data_loader with
  | [] => []
  | b :: rest => map (mk_key idx) (seq 0 (batch_size b)) ++ pass_keys (S idx) rest
  end.

(** ** [train] *)

(** What one step of [train] hands to [model.update_with_doc]: the step
    counter, the order [idx_random] of the documents, and the lists built
    in this order. *)
Record TrainCall : Type := mkTrainCall {
  call_step : Z;
  call_docs : list nat;
  call_HasAnswer : grid;
  call_targets : list (list target);
  call_evidence : list Z
}.

(** [{int(idx_doc): i for i, idx_doc in enumerate(idx_random)}], from the
    index [i] on. *)
Fixpoint doc_map_from (i : nat) (idx_random : list nat) (m : gmap Z Z) : gmap Z Z :=
  match idx_random with
  | [] => m
  | idx_doc :: rest => doc_map_from (S i) rest (<[Z.of_nat idx_doc := Z.of_nat i]> m)
  end.

(** [idx_doc_map], with [idx_doc_map[-1] = -1]. *)
Definition idx_doc_map (idx_random : list nat) : gmap Z Z :=
  <[-1 := -1]> (doc_map_from 0 idx_random ∅).

(** [for i in range(batch_size):
       Evidence_list_sample.append(idx_doc_map[Evidence_list[i]])] *)
Fixpoint sample_evidence (m : gmap Z Z) (Evidence_list : list Z) (rng : list nat)
    : result (list Z) :=
  match rng with
  | [] => Ok []
  | i :: rest =>
      l ← of_option IndexError (Evidence_list !! i);
      s ← of_option KeyError (m !! l);
      ss ← sample_evidence m Evidence_list rest;
      Ok (s :: ss)
  end.

Section train.
Context `{Externals}.
Variable args : Args.
Variable corpus : Corpus.
(** The draw [torch.multinomial(weights, num_docs)] of each step. *)
Variable draw : nat → list nat.
(** The outcome of the validation that [train] runs when [idx%200==199]. *)
Variable validate : nat → result unit.

(** The body of the loop of [train], up to the call of the model. *)
Definition train_batch (idx : nat) (b : Batch) (update_step : Z) (G : Globals)
    : result (TrainCall * Globals) :=
  '(HasAnswer_list, G) ← visit args corpus idx b G;
  let EL := init_evidence idx b (Evidence_Label G) in
  Evidence_list ← of_option KeyError (EL !! idx);
  let idx_random := draw idx in
  let idx_doc_map := idx_doc_map idx_random in
  HasAnswer_list_sample ← sample_rows HasAnswer_list idx_random;
  Evidence_list_sample ← sample_evidence idx_doc_map Evidence_list (seq 0 (batch_size b));
  l_list_doc ← targets_of_docs HasAnswer_list idx_random (batch_size b);
  Ok ({| call_step := update_step;
         call_docs := idx_random;
         call_HasAnswer := HasAnswer_list_sample;
         call_targets := l_list_doc;
         call_evidence := Evidence_list_sample |},
      {| HasAnswer_Map := HasAnswer_Map G;
         Evidence_Label := EL;
         matcher_calls := matcher_calls G |}).

(** The loop of [train]: the calls of the model, in order. *)
Fixpoint train_loop (idx : nat) (data_loader : list Batch) (update_step : Z)
    (G : Globals) (calls : list TrainCall) : result (list TrainCall * Globals) :=
  match data_loader with
  | [] => Ok (calls, G)
  | b :: rest =>
      '(c, G) ← train_batch idx b update_step G;
      let update_step := (update_step + 1) mod 4 in
      _ ← (if decide (idx mod 200 = 199)%nat then validate idx else Ok ());
      train_loop (S idx) rest update_step G (calls ++ [c])
  end.

Definition train (data_loader : list Batch) (G : Globals)
    : result (list TrainCall * Globals) :=
  train_loop 0 data_loader 0 G [].

End train.

(** ** Specification of the promotion *)

(** The stored label of the example that owns a record, if its key names
    one. *)
Definition record_label (EL : gmap nat (list Z)) (r : record) : option Z :=
  match parse_key r.1 with
  | Ok (idx, i) =>
      match label EL idx i with
      | Ok l => Some l
      | Raise _ => None
      end
  | Raise _ => None
  end.

(** The example of the record is still unlabeled. *)
Definition unlabeled (EL : gmap nat (list Z)) (r : record) : Prop :=
  record_label EL r = Some (-1).

#[global] Instance unlabeled_dec EL r : Decision (unlabeled EL r).
Proof. unfold unlabeled. apply _. Defined.

(** The eligible records: a best document, and an unlabeled example. *)
Definition eligible (Attention_Weight : list record) (EL : gmap nat (list Z))
    : list record :=
  filter (fun r => best_doc_index r ≠ -1 ∧ unlabeled EL r) Attention_Weight.

(** The eligible records in the order of the ranking. *)
Definition ranked (Attention_Weight : list record) (EL : gmap nat (list Z))
    : list record :=
  filter (unlabeled EL) (evidence_scores Attention_Weight).

(** [Evidence_Label[idx][i] = value[1]] for the key of a record. *)
Definition write_label (EL : gmap nat (list Z)) (r : record) : gmap nat (list Z) :=
  match parse_key r.1 with
  | Ok (idx, i) =>
      match set_label EL idx i (best_doc_index r) with
      | Ok EL' => EL'
      | Raise _ => EL
      end
  | Raise _ => EL
  end.

(** [Probability[key]] for the key of a record. *)
Definition prob_of (Probability : list (string * Q)) (r : record) : Q :=
  default 0%Q (OD.get r.1 Probability).

(** The accumulators as phase 1 leaves them: no key twice, every key made
    by ["%d|%d"] from the coordinates of a stored label, and a probability
    under every key. *)
Definition well_keyed (Probability : list (string * Q))
    (Attention_Weight : list record) (EL : gmap nat (list Z)) : Prop :=
  NoDup (OD.keys Attention_Weight)
  ∧ ∀ r, r ∈ Attention_Weight →
      r.1 ∈ OD.keys Probability
      ∧ ∃ idx i : nat, r.1 = mk_key idx i ∧ is_ok (label EL idx i) = true.

(** Two records have the same score. *)
Definition same_score (q : Q) (r : record) : bool := Qeq_bool (best_score r) q.

(** The order of the ranking: the score does not increase. *)
Definition score_ge (a b : record) : Prop := (best_score b <= best_score a)%Q.

(** The records handed to the promotion loop fit the accumulators. *)
Definition records_ok (Probability : list (string * Q))
    (Attention_Weight : list record) (EL : gmap nat (list Z))
    (rs : list record) : Prop :=
  NoDup (map fst rs)
  ∧ ∀ r, r ∈ rs →
      (∃ idx i : nat, r.1 = mk_key idx i ∧ is_ok (label EL idx i) = true)
      ∧ is_Some (OD.get r.1 Probability)
      ∧ OD.get r.1 Attention_Weight = Some r.2.

(** The promotions the loop still makes from a state in which [count]
    examples are labelled: [count] is compared with [Top_k] after the
    increment, so one promotion is made even when the budget is spent. *)
Definition remaining (Top_k count : Z) : nat := Z.to_nat (Z.max 1 (Top_k - count)).

(** The promotions of a pass: at most [budget Top_k] records, from the head
    of the ranking. *)
Definition budget (Top_k : Z) : nat := remaining Top_k 0.

Definition promoted (Top_k : Z) (Attention_Weight : list record)
    (EL : gmap nat (list Z)) : list record :=
  take (budget Top_k) (ranked Attention_Weight EL).

(** The rows of [Evidence_Label] that exist before a pass (set by [train] or
    loaded from the previous round) are as long as their batches. *)
Definition rows_fit (idx : nat) (data_loader : list Batch) (EL : gmap nat (list Z))
    : Prop :=
  ∀ (n : nat) (b : Batch) (row : list Z),
    data_loader !! n = Some b → EL !! (idx + n)%nat = Some row →
    (batch_size b <= length row)%nat.

(** ** The vote of [validate_unofficial_with_doc] *)

(** The numbers of the vote.  [pred_score] and [scores_doc_num] are what
    the model returns; the loops add them to the [int] 0, multiply them and
    compare them with [>].  Their arithmetic is that of the floats of the
    model: a sum is rounded, so that the order of the additions counts, and
    a [nan] compares [False] with every number.  It is a parameter of the
    development, which assumes no law of it. *)
Class Number : Type := {
  num : Type;
  (** The [int] 0 among these numbers. *)
  num_zero : num;
  (** [x + y], [x * y] and [x > y]. *)
  num_add : num -> num -> num;
  num_mul : num -> num -> num;
  num_gt : num -> num -> bool
}.

(** What [model.predict(ex, top_n = 10)] returns for one document slot:
    three arrays indexed by the example and by the rank of the candidate. *)
Record Prediction `{N : Number} : Type := mkPrediction {
  pred_s : list (list Z);
  pred_e : list (list Z);
  pred_score : list (list num)
}.

(** [x[i][k]] *)
Definition at2 {X} (x : list (list X)) (i k : nat) : result X :=
  row ← of_option IndexError (x !! i);
  of_option IndexError (row !! k).

(** [for j in range(s, e+1): prediction.append(doc_text[j])] *)
Fixpoint span_tokens (doc_text : list string) (js : list Z) : result (list string) :=
  match js with
  | [] => Ok []
  | j :: rest =>
      t ← Py.index doc_text j;
      ts ← span_tokens doc_text rest;
      Ok (t :: ts)
  end.

Section vote.
Context `{Externals} `{N : Number}.

(** [if (prediction not in scores[i]): scores[i][prediction] = 0] *)
Definition ensure (prediction : string) (sc : list (string * num)) : list (string * num) :=
  if OD.mem prediction sc then sc else OD.set prediction num_zero sc.

(** The body of the loop over the candidates, with its [try ... except: pass]:
[[
    try:
        prediction = []
        for j in range(pred_s[i][k], pred_e[i][k]+1):
            prediction.append(doc_text[j])
        prediction = " ".join(prediction).lower()
        if (prediction not in scores[i]):
            scores[i][prediction] = 0
        scores[i][prediction] += pred_score[i][k]*scores_doc_num[i][idx_doc]
    except:
        pass
]]
    An exception leaves [scores[i]] as it is at that point. *)
Definition vote (doc_text : list string) (p : Prediction) (scores_doc_num : list (list num))
    (idx_doc i : nat) (sc : list (string * num)) (k : nat) : list (string * num) :=
  match s ← at2 (pred_s p) i k; e ← at2 (pred_e p) i k;
        span_tokens doc_text (Py.range s (e + 1)) with
  | Raise _ => sc
  | Ok tokens =>
      let prediction := str_lower (Py.join " " tokens) in
      let sc := ensure prediction sc in
      match old ← of_option KeyError (OD.get prediction sc);
            v ← at2 (pred_score p) i k;
            w ← at2 scores_doc_num i idx_doc;
            Ok (num_add old (num_mul v w)) with
      | Raise _ => sc
      | Ok total => OD.set prediction total sc
      end
  end.

(** The choice of the answer of one example:
[[
    best_score = 0
    prediction = ""
    for key in scores[i]:
        if (scores[i][key]>best_score):
            best_score = scores[i][key]
            prediction = key
]] *)
Definition better (sc : list (string * num)) (best : num * string) (key : string)
    : num * string :=
  let v := default num_zero (OD.get key sc) in
  if num_gt v best.1 then (v, key) else best.

Definition pick_best (sc : list (string * num)) : string :=
  (foldl (better sc) (num_zero, "") (OD.keys sc)).2.

Variable args : Args.
Variable corpus : Corpus.
(** [model.predict(ex_with_doc[idx_doc], top_n = 10)] for each slot. *)
Variable predict : nat → Prediction.
(** [model.predict_with_doc(ex_with_doc)], indexed by example and slot. *)
Variable scores_doc_num : list (list num).

(** [docs_by_question[ex_id[i]][idx_doc%len(docs_by_question[ex_id[i]])]["document"]] *)
Definition doc_text_of (b : Batch) (idx_doc i : nat) : result (list string) :=
  q ← of_option IndexError (ex_id b !! i);
  pool ← of_option IndexError (docs_by_question corpus !! q);
  if decide (length pool = 0%nat) then Raise ZeroDivisionError
  else of_option IndexError (pool !! (idx_doc mod length pool)%nat).

(** [for k in range(10)] *)
Definition votes_of_cell (doc_text : list string) (idx_doc i : nat)
    (sc : list (string * num)) : list (string * num) :=
  foldl (vote doc_text (predict idx_doc) scores_doc_num idx_doc i) sc (seq 0 10).

(** [for i in range(batch_size)], for one document slot. *)
Fixpoint votes_of_doc (b : Batch) (idx_doc : nat) (rng : list nat)
    (scores : list (list (string * num))) : result (list (list (string * num))) :=
  match rng with
  | [] => Ok scores
  | i :: rest =>
      doc_text ← doc_text_of b idx_doc i;
      q ← of_option IndexError (ex_id b !! i);
      ex ← of_option IndexError (exs_with_doc corpus !! q);
      has_answer_t ← has_answer args (answer ex) doc_text;
      (* [scores[i]] is read inside the [try]: were it missing, every
         candidate would be skipped *)
      let scores :=
        match scores !! i with
        | Some sc => <[i := votes_of_cell doc_text idx_doc i sc]> scores
        | None => scores
        end in
      votes_of_doc b idx_doc rest scores
  end.

(** [for idx_doc in range(0, vector.num_docs)] *)
Fixpoint votes_of_batch (b : Batch) (ds : list nat)
    (scores : list (list (string * num))) : result (list (list (string * num))) :=
  match ds with
  | [] => Ok scores
  | idx_doc :: rest =>
      scores ← votes_of_doc b idx_doc (seq 0 (batch_size b)) scores;
      votes_of_batch b rest scores
  end.

End vote.

(** *** Specification of the vote *)

(** What a candidate does to the dictionary of its example: nothing, the
    creation of its key, or a vote under its key. *)
Inductive outcome `{N : Number} : Type :=
  | Skip
  | Touch (key : string)
  | Vote (key : string) (v : num).

Section vote_spec.
Context `{Externals} `{N : Number}.

Definition outcome_of (doc_text : list string) (p : Prediction)
    (scores_doc_num : list (list num)) (idx_doc i k : nat) : outcome :=
  match s ← at2 (pred_s p) i k; e ← at2 (pred_e p) i k;
        span_tokens doc_text (Py.range s (e + 1)) with
  | Raise _ => Skip
  | Ok tokens =>
      let prediction := str_lower (Py.join " " tokens) in
      match v ← at2 (pred_score p) i k; w ← at2 scores_doc_num i idx_doc;
            Ok (num_mul v w) with
      | Raise _ => Touch prediction
      | Ok x => Vote prediction x
      end
  end.

(** The accumulated vote of [key] over a list of outcomes, from the value
    [acc] the key has ([None] when it is absent): the votes are added one
    after the other, in the order of the list. *)
Definition tally_step (key : string) (acc : option num) (o : outcome) : option num :=
  match o with
  | Skip => acc
  | Touch key' => if decide (key' = key) then Some (default num_zero acc) else acc
  | Vote key' v =>
      if decide (key' = key) then Some (num_add (default num_zero acc) v) else acc
  end.





End vote_spec.

(** [Evidence_Label] when phase 1 ends: the rows of the batches of the pass
    that were missing have been created. *)
Fixpoint pass_labels (idx : nat) (data_loader : list Batch) (EL : gmap nat (list Z))
    : gmap nat (list Z) :=
  match data_loader with
  | [] => EL
  | b :: rest => pass_labels (S idx) rest (init_evidence idx b EL)
  end.

(** ** [pretrain_reader] *)

(** What [pretrain_reader] hands to [model.update] for one document slot:
    the slot, the targets [l_list] and the row [HasAnswer_list[idx_doc]]. *)
Record ReaderCall : Type := mkReaderCall {
  reader_doc : nat;
  reader_targets : list (list span);
  reader_HasAnswer : list cell
}.

(** The loop over the examples of one slot; [p] is what
    [model.predict(ex_with_doc[idx_doc], top_n = 1)] has returned:
[[
    if HasAnswer_list[idx_doc][i][0]:
        count_ans+=len(HasAnswer_list[idx_doc][i][1])
        count_tot+=1
        l_list.append(HasAnswer_list[idx_doc][i][1])
    else:
        l_list.append([(int(pred_s[i][0]),int(pred_e[i][0]))])
]] *)
Fixpoint reader_row `{N : Number} (HasAnswer_list : grid) (p : Prediction) (idx_doc : nat)
    (rng : list nat) (count_ans count_tot : Z) (l_list : list (list span))
    : result (Z * Z * list (list span)) :=
  match rng with
  | [] => Ok (count_ans, count_tot, l_list)
  | i :: rest =>
      '(flag, spans) ← of_option IndexError
            (HasAnswer_list !! idx_doc ≫= fun row : list cell => row !! i);
      if flag : bool then
        reader_row HasAnswer_list p idx_doc rest
          (count_ans + Z.of_nat (length spans)) (count_tot + 1) (l_list ++ [spans])
      else
        s ← at2 (pred_s p) i 0;
        e ← at2 (pred_e p) i 0;
        reader_row HasAnswer_list p idx_doc rest count_ans count_tot (l_list ++ [[(s, e)]])
  end.

(** The targets of the example [i] of a slot, for its cell and for what
    [model.predict] has returned: the spans of the cell when it holds an
    answer, and otherwise the top prediction alone. *)
Definition reader_target `{N : Number} (p : Prediction) (i : nat) (c : cell)
    (l : list span) : Prop :=
  if c.1 then l = c.2
  else ∃ s e : Z, at2 (pred_s p) i 0 = Ok s ∧ at2 (pred_e p) i 0 = Ok e ∧ l = [(s, e)].

Section pretrain_reader.
Context `{Externals} `{N : Number}.
Variable args : Args.
Variable corpus : Corpus.
(** [model.predict(ex_with_doc[idx_doc], top_n = 1)] for the batch [idx]
    and the slot [idx_doc]. *)
Variable predict : nat → nat → Prediction.

(** [for idx_doc in range(0, vector.num_docs)], with the call of
    [model.update] that ends each round. *)
Fixpoint reader_docs (idx : nat) (b : Batch) (HasAnswer_list : grid) (ds : list nat)
    (count_ans count_tot : Z) (calls : list ReaderCall)
    : result (Z * Z * list ReaderCall) :=
  match ds with
  | [] => Ok (count_ans, count_tot, calls)
  | idx_doc :: rest =>
      '(count_ans, count_tot, l_list) ←
        reader_row HasAnswer_list (predict idx idx_doc) idx_doc (seq 0 (batch_size b))
          count_ans count_tot [];
      row ← of_option IndexError (HasAnswer_list !! idx_doc);
      reader_docs idx b HasAnswer_list rest count_ans count_tot
        (calls ++ [{| reader_doc := idx_doc; reader_targets := l_list;
                      reader_HasAnswer := row |}])
  end.

(** The loop over [enumerate(data_loader)]. *)
Fixpoint reader_loop (idx : nat) (data_loader : list Batch) (G : Globals)
    (count_ans count_tot : Z) (calls : list ReaderCall)
    : result (Globals * Z * Z * list ReaderCall) :=
  match data_loader with
  | [] => Ok (G, count_ans, count_tot, calls)
  | b :: rest =>
      '(HasAnswer_list, G) ← visit args corpus idx b G;
      '(count_ans, count_tot, calls) ←
        reader_docs idx b HasAnswer_list (seq 0 (num_docs corpus)) count_ans count_tot calls;
      reader_loop (S idx) rest G count_ans count_tot calls
  end.

Definition pretrain_reader (data_loader : list Batch) (G : Globals)
    : result (Globals * Z * Z * list ReaderCall) :=
  reader_loop 0 data_loader G 0 0 [].

End pretrain_reader.

(** The records of the cache are those of the matcher: the flag of a cell
    tells whether its list of spans is non-empty. *)
Definition cell_wf (c : cell) : Prop := c.1 = bool_decide (c.2 ≠ []).

Definition cache_wf (G : Globals) : Prop :=
  ∀ (idx : nat) (g : grid), HasAnswer_Map G !! idx = Some g → Forall (Forall cell_wf) g.

(** ** [pretrain_selector] *)

(** [pretrain_selector] keeps in [HasAnswer_Map] the flag of each cell only,
    where the other loops keep the pair returned by [has_answer]: a cell of
    the dictionary, as Python sees it, is one or the other. *)
Inductive pycell : Type :=
  | Pair (c : cell)
  | Flag (has_a : bool).

Definition pygrid : Type := list (list pycell).

Definition is_flag (c : pycell) : Prop :=
  match c with
  | Flag _ => True
  | Pair _ => False
  end.

(** The cached grids hold flags only. *)
Definition flags_only (M : gmap nat pygrid) : Prop :=
  ∀ (idx : nat) (g : pygrid), M !! idx = Some g → Forall (Forall is_flag) g.

(** [tot_ans+=HasAnswer_list[idx_doc][i]]: a [bool] counts for 0 or 1, and
    a tuple cannot be added to an [int]. *)
Definition add_cell (tot_ans : Z) (c : pycell) : result Z :=
  match c with
  | Flag has_a => Ok (tot_ans + (if has_a then 1 else 0))
  | Pair _ => Raise TypeError
  end.

(** [for i in range(batch_size): tot_ans+=...; tot_num+=1] *)
Fixpoint count_row (HasAnswer_list : pygrid) (idx_doc : nat) (rng : list nat)
    (tot_ans tot_num : Z) : result (Z * Z) :=
  match rng with
  | [] => Ok (tot_ans, tot_num)
  | i :: rest =>
      c ← of_option IndexError
            (HasAnswer_list !! idx_doc ≫= fun row : list pycell => row !! i);
      tot_ans ← add_cell tot_ans c;
      count_row HasAnswer_list idx_doc rest tot_ans (tot_num + 1)
  end.

(** [for idx_doc in range(0, vector.num_docs)] *)
Fixpoint count_grid (HasAnswer_list : pygrid) (ds : list nat) (batch_size : nat)
    (tot_ans tot_num : Z) : result (Z * Z) :=
  match ds with
  | [] => Ok (tot_ans, tot_num)
  | idx_doc :: rest =>
      '(tot_ans, tot_num) ←
        count_row HasAnswer_list idx_doc (seq 0 batch_size) tot_ans tot_num;
      count_grid HasAnswer_list rest batch_size tot_ans tot_num
  end.

(** The state of [pretrain_selector]: the dictionary, the two counters and
    the label grids handed to [model.pretrain_selector]. *)
Record SelectorState : Type := mkSelectorState {
  sel_Map : gmap nat pygrid;
  sel_tot_ans : Z;
  sel_tot_num : Z;
  sel_calls : list pygrid
}.

Section pretrain_selector.
Context `{Externals}.
Variable args : Args.
Variable corpus : Corpus.
(** The draw [torch.multinomial(weights, num_docs)] of each step. *)
Variable draw : nat → list nat.
(** [args.display_iter] *)
Variable display_iter : Z.

(** [for i in range(batch_size):
       has_a, a_l = has_answer(...); HasAnswer.append(has_a)] *)
Fixpoint flag_row (b : Batch) (idx_doc : nat) (rng : list nat) (HasAnswer : list pycell)
    : result (list pycell) :=
  match rng with
  | [] => Ok HasAnswer
  | i :: rest =>
      '(has_a, a_l) ← has_answer_cell args corpus b idx_doc i;
      flag_row b idx_doc rest (HasAnswer ++ [Flag has_a])
  end.

(** [for idx_doc in range(0, vector.num_docs): ...
       HasAnswer_list.append(HasAnswer)] *)
Fixpoint flag_grid (b : Batch) (ds : list nat) (HasAnswer_list : pygrid)
    : result pygrid :=
  match ds with
  | [] => Ok HasAnswer_list
  | idx_doc :: rest =>
      HasAnswer ← flag_row b idx_doc (seq 0 (batch_size b)) [];
      flag_grid b rest (HasAnswer_list ++ [HasAnswer])
  end.

(** [if (idx not in HasAnswer_Map): ... else: ...] *)
Definition selector_visit (idx : nat) (b : Batch) (M : gmap nat pygrid)
    : result (pygrid * gmap nat pygrid) :=
  match M !! idx with
  | None =>
      HasAnswer_list ← flag_grid b (seq 0 (num_docs corpus)) [];
      Ok (HasAnswer_list, <[idx := HasAnswer_list]> M)
  | Some HasAnswer_list => Ok (HasAnswer_list, M)
  end.

(** The first line of the log, written when [idx % args.display_iter == 0],
    divides by [tot_num]:
[[
    logger.info("tot_ans:\t%d\t%d\t%f", tot_ans, tot_num, tot_ans*1.0/tot_num)
]] *)
Definition selector_log (idx : nat) (tot_num : Z) : result unit :=
  if decide (display_iter = 0) then Raise ZeroDivisionError
  else if decide (Z.of_nat idx mod display_iter = 0)
       then (if decide (tot_num = 0) then Raise ZeroDivisionError else Ok ())
       else Ok ().

(** The loop over [enumerate(data_loader)]. *)
Fixpoint selector_loop (idx : nat) (data_loader : list Batch) (st : SelectorState)
    : result SelectorState :=
  match data_loader with
  | [] => Ok st
  | b :: rest =>
      '(HasAnswer_list, M) ← selector_visit idx b (sel_Map st);
      '(tot_ans, tot_num) ←
        count_grid HasAnswer_list (seq 0 (num_docs corpus)) (batch_size b)
          (sel_tot_ans st) (sel_tot_num st);
      HasAnswer_list_sample ← sample_rows HasAnswer_list (draw idx);
      _ ← selector_log idx tot_num;
      selector_loop (S idx) rest
        {| sel_Map := M; sel_tot_ans := tot_ans; sel_tot_num := tot_num;
           sel_calls := sel_calls st ++ [HasAnswer_list_sample] |}
  end.

Definition pretrain_selector (data_loader : list Batch) (M : gmap nat pygrid)
    : result SelectorState :=
  selector_loop 0 data_loader
    {| sel_Map := M; sel_tot_ans := 0; sel_tot_num := 0; sel_calls := [] |}.

End pretrain_selector.

(** *** The head of [update_evidence] on such a dictionary *)

(** The loop of [l_list] on cells of either kind: a flag has no [[0]]. *)
Fixpoint py_targets_of_row (HasAnswer_list : pygrid) (idx_doc : nat) (rng : list nat)
    : result (list target) :=
  match rng with
  | [] => Ok []
  | i :: rest =>
      c ← of_option IndexError
            (HasAnswer_list !! idx_doc ≫= fun row : list pycell => row !! i);
      match c with
      | Flag _ => Raise TypeError
      | Pair (flag, spans) =>
          ts ← py_targets_of_row HasAnswer_list idx_doc rest;
          Ok ((if flag : bool then Spans spans else NoSpan) :: ts)
      end
  end.

Fixpoint py_targets_of_docs (HasAnswer_list : pygrid) (idx_random : list nat)
    (batch_size : nat) : result (list (list target)) :=
  match idx_random with
  | [] => Ok []
  | idx_doc :: rest =>
      l_list ← py_targets_of_row HasAnswer_list idx_doc (seq 0 batch_size);
      l_list_doc ← py_targets_of_docs HasAnswer_list rest batch_size;
      Ok (l_list :: l_list_doc)
  end.

Section evidence_head.
Context `{Externals}.
Variable args : Args.
Variable corpus : Corpus.

(** The body of the loop of [update_evidence] for the batch [idx], up to
    the lists [l_list_doc]: the visit of the cache, the lists in the order
    [range(vector.num_docs)], and the targets. *)
Definition evidence_head (idx : nat) (b : Batch) (M : gmap nat pygrid)
    : result (list (list target)) :=
  HasAnswer_list ←
    match M !! idx with
    | None =>
        '(g, _) ← has_answer_grid args corpus idx b (seq 0 (num_docs corpus)) [] [];
        Ok (map (map Pair) g)
    | Some HasAnswer_list => Ok HasAnswer_list
    end;
  let idx_random := seq 0 (num_docs corpus) in
  HasAnswer_list_sample ← sample_rows HasAnswer_list idx_random;
  py_targets_of_docs HasAnswer_list idx_random (batch_size b).

End evidence_head.

(** ** The loop of [validate_unofficial_with_doc] *)

(** [display_num = 10] *)
Definition display_num : nat := 10.

(** The prefix sums of the hits per rank. *)
Definition psum (hits : list Z) (k : nat) : Z := foldr Z.add 0 (take (S k) hits).

(** The log of the ranking diagnostic, run after the loop over the batches
    inside [try: ... except: pass]: an exception ends it and is dropped.
    The counters [aa] and [bb] are floats that hold counts; they are
    modelled by integers, and a logged quotient [aa[j]/bb[j]] by the pair
    of its operands.
[[
    for j in range(0, display_num):
        if (j>0):
            aa[j]= aa[j]+aa[j-1]
            bb[j]= bb[j]+bb[j-1]
        logger.info(aa[j]/bb[j])
]] *)
Fixpoint cumulate (js : list nat) (aa bb : list Z) (log : list (Z * Z)) : list (Z * Z) :=
  match js with
  | [] => log
  | j :: rest =>
      match
        '(aa, bb) ← (if decide (0 < j)%nat then
                       a ← of_option IndexError (aa !! j);
                       a' ← of_option IndexError (aa !! (j - 1)%nat);
                       let aa := <[j := a + a']> aa in
                       x ← of_option IndexError (bb !! j);
                       x' ← of_option IndexError (bb !! (j - 1)%nat);
                       Ok (aa, <[j := x + x']> bb)
                     else Ok (aa, bb));
        a ← of_option IndexError (aa !! j);
        x ← of_option IndexError (bb !! j);
        if decide (x = 0) then Raise ZeroDivisionError
        else Ok (aa, bb, (a, x))
      with
      | Raise _ => log
      | Ok (aa, bb, r) => cumulate rest aa bb (log ++ [r])
      end
  end.

Section validate.
Context `{Externals} `{N : Number}.
Variable args : Args.
Variable corpus : Corpus.
(** [model.predict(ex_with_doc[idx_doc], top_n = 10)] for the batch [idx]
    and the slot [idx_doc]. *)
Variable predict : nat → nat → Prediction.
(** [model.predict_with_doc(ex_with_doc)] for the batch [idx]. *)
Variable scores_doc_num : nat → list (list num).
(** The indices that [t.sort(0, descending = True)] returns for the
    selection scores [t] of an example. *)
Variable sort_desc : list num → list nat.

(** The diagnostic of the ranking, for the example [i] and the indices
    [indices] of its documents:
[[
    for j in range(0, display_num):
        idx_doc = indices[j]
        doc_text = docs_by_question[ex_id[i]][idx_doc%len(docs_by_question[ex_id[i]])]["document"]
        if (has_answer(args, exs_with_doc[ex_id[i]]['answer'], doc_text)[0]):
            aa[j]= aa[j] + 1
        bb[j]= bb[j]+1
]] *)
Fixpoint rank_hits (b : Batch) (i : nat) (indices : list nat) (js : list nat)
    (aa bb : list Z) : result (list Z * list Z) :=
  match js with
  | [] => Ok (aa, bb)
  | j :: rest =>
      idx_doc ← of_option IndexError (indices !! j);
      doc_text ← doc_text_of corpus b idx_doc i;
      q ← of_option IndexError (ex_id b !! i);
      ex ← of_option IndexError (exs_with_doc corpus !! q);
      '(has_a, _) ← has_answer args (answer ex) doc_text;
      aa ← (if has_a : bool
            then a ← of_option IndexError (aa !! j); Ok (<[j := a + 1]> aa)
            else Ok aa);
      x ← of_option IndexError (bb !! j);
      rank_hits b i indices rest aa (<[j := x + 1]> bb)
  end.

(** [for i in range(batch_size):
       _, indices = scores_doc_num[i].sort(0, descending = True); ...] *)
Fixpoint rank_batch (idx : nat) (b : Batch) (rng : list nat) (aa bb : list Z)
    : result (list Z * list Z) :=
  match rng with
  | [] => Ok (aa, bb)
  | i :: rest =>
      t ← of_option IndexError (scores_doc_num idx !! i);
      '(aa, bb) ← rank_hits b i (sort_desc t) (seq 0 display_num) aa bb;
      rank_batch idx b rest aa bb
  end.

(** The last loop over the examples of the batch: the prediction of each
    example and the answers it is scored against. *)
Fixpoint picks (b : Batch) (scores : list (list (string * num))) (rng : list nat)
    : result (list (string * list pyans)) :=
  match rng with
  | [] => Ok []
  | i :: rest =>
      sc ← of_option IndexError (scores !! i);
      q ← of_option IndexError (ex_id b !! i);
      ex ← of_option IndexError (exs_with_doc corpus !! q);
      ps ← picks b scores rest;
      Ok ((pick_best sc, answer ex) :: ps)
  end.

(** The body of the loop over the batches: the votes, the diagnostic of the
    ranking, and the choice of the answers. *)
Definition validate_batch (idx : nat) (b : Batch) (aa bb : list Z)
    : result (list (string * list pyans) * list Z * list Z) :=
  scores ← votes_of_batch args corpus (predict idx) (scores_doc_num idx) b
             (seq 0 (num_docs corpus)) (replicate (batch_size b) []);
  '(aa, bb) ← rank_batch idx b (seq 0 (batch_size b)) aa bb;
  ps ← picks b scores (seq 0 (batch_size b));
  Ok (ps, aa, bb).

(** The loop over [enumerate(data_loader)], left as soon as 1000 examples
    have been seen when the mode is ["train"]:
[[
    examples += batch_size
    if (mode=="train" and examples>=1000):
        break
]] *)
Fixpoint validate_loop (mode : string) (idx : nat) (data_loader : list Batch)
    (examples : nat) (aa bb : list Z) (out : list (string * list pyans))
    : result (nat * list Z * list Z * list (string * list pyans)) :=
  match data_loader with
  | [] => Ok (examples, aa, bb, out)
  | b :: rest =>
      '(ps, aa, bb) ← validate_batch idx b aa bb;
      let examples := (examples + batch_size b)%nat in
      if decide (mode = "train" ∧ (1000 <= examples)%nat)
      then Ok (examples, aa, bb, out ++ ps)
      else validate_loop mode (S idx) rest examples aa bb (out ++ ps)
  end.

(** The number of examples, the predictions with the answers they are
    scored against, and the quotients written to the log. *)
Definition validate_unofficial_with_doc (mode : string) (data_loader : list Batch)
    : result (nat * list (string * list pyans) * list (Z * Z)) :=
  let aa := replicate (num_docs corpus) 0 in
  let bb := replicate (num_docs corpus) 0 in
  '(examples, aa, bb, out) ← validate_loop mode 0 data_loader 0 aa bb [];
  Ok (examples, out, cumulate (seq 0 display_num) aa bb []).

(** *** Specification of the diagnostic *)

(** Whether the document that comes at the rank [j] for the example [i] of
    the batch [idx] holds an answer of this example. *)
Definition rank_hit (idx : nat) (b : Batch) (i j : nat) : bool :=
  match t ← of_option IndexError (scores_doc_num idx !! i);
        idx_doc ← of_option IndexError (sort_desc t !! j);
        doc_text ← doc_text_of corpus b idx_doc i;
        q ← of_option IndexError (ex_id b !! i);
        ex ← of_option IndexError (exs_with_doc corpus !! q);
        has_answer args (answer ex) doc_text with
  | Ok (has_a, _) => has_a
  | Raise _ => false
  end.

(** The number of examples of the batches, the first of index [idx], whose
    document of rank [j] holds an answer. *)
Fixpoint hits_from (idx : nat) (batches : list Batch) (j : nat) : Z :=
  match batches with
  | [] => 0
  | b :: rest =>
      Z.of_nat (length (filter (fun i => rank_hit idx b i j = true) (seq 0 (batch_size b))))
      + hits_from (S idx) rest j
  end.

(** The counters of the diagnostic after [examples] examples: each of the
    first [display_num] ranks has been counted once for each example, and
    [hits j] times with an answer. *)
Definition counts_ok (examples : nat) (hits : nat → Z) (aa bb : list Z) : Prop :=
  length aa = length bb
  ∧ ∀ j : nat, (j < display_num)%nat → (j < length bb)%nat →
      bb !! j = Some (Z.of_nat examples) ∧ aa !! j = Some (hits j).

End validate.

(** The quotient logged for the rank [k]: the hits of the ranks up to [k],
    over [k + 1] documents for each example. *)
Definition hit_ratio (hits : list Z) (examples : nat) (k : nat) : Z * Z :=
  (psum hits k, (Z.of_nat k + 1) * Z.of_nat examples).

(** ** The epochs of [main] *)

(** The dictionary returned by a validation. *)
Record Metrics : Type := mkMetrics {
  exact_match : Q;
  f1 : Q
}.

(** [result[args.valid_metric]] *)
Definition metric (valid_metric : string) (r : Metrics) : result Q :=
  if decide (valid_metric = "exact_match") then Ok (exact_match r)
  else if decide (valid_metric = "f1") then Ok (f1 r)
  else Raise KeyError.

(** [stats['best_valid']], and the epochs at the end of which [model.save]
    has been called. *)
Record EpochStats : Type := mkEpochStats {
  best_valid : Q;
  saved : list nat
}.

Section main.
(** [args.dataset] and [args.valid_metric] *)
Variable dataset : string.
Variable valid_metric : string.
(** What the validations on the dev and on the test loader return at the
    end of each epoch. *)
Variable dev_result : nat → Metrics.
Variable test_result : nat → Metrics.

(** The value of [result] when it is compared:
[[
    result = validate_unofficial_with_doc(args, dev_loader_with_doc, ..., 'dev')
    ...
    if (dataset=='webquestions' or dataset=='CuratedTrec'):
        result = validate_unofficial_with_doc(args, test_loader_with_doc, ..., 'test')
]] *)
Definition epoch_result (epoch : nat) : Metrics :=
  if decide (dataset = "webquestions" ∨ dataset = "CuratedTrec")
  then test_result epoch else dev_result epoch.

(** The loop over the epochs, the training and the validations left out:
[[
    if result[args.valid_metric] > stats['best_valid']:
        model.save(args.model_file)
        stats['best_valid'] = result[args.valid_metric]
]] *)
Fixpoint epochs (es : list nat) (st : EpochStats) : result EpochStats :=
  match es with
  | [] => Ok st
  | epoch :: rest =>
      v ← metric valid_metric (epoch_result epoch);
      if Qlt_le_dec (best_valid st) v
      then epochs rest {| best_valid := v; saved := saved st ++ [epoch] |}
      else epochs rest st
  end.

(** [for epoch in range(start_epoch, args.num_epochs)], where [start_epoch]
    is 0, from [stats = {..., 'best_valid': 0}]. *)
Definition main_epochs (num_epochs : Z) : result EpochStats :=
  epochs (seq 0 (Z.to_nat num_epochs)) {| best_valid := 0; saved := [] |}.

End main.

(** ** The rounds of the self-training scripts *)

Section rounds.
Context `{Externals}.
Variable args : Args.
Variable corpus : Corpus.
Variable data_loader : list Batch.
(** [args.num_epochs] *)
Variable num_epochs : nat.
(** The draws and the validations of [train], for each round and epoch. *)
Variable draw : nat → nat → nat → list nat.
Variable validate : nat → nat → nat → result unit.
(** The answers of the model reloaded for [update_evidence], for each
    round. *)
Variable model : nat → nat → ModelOut.

(** The epochs of one run in the mode [all]; the validations that follow
    each epoch are taken to return. *)
Fixpoint train_epochs (r : nat) (es : list nat) (G : Globals) : result Globals :=
  match es with
  | [] => Ok G
  | epoch :: rest =>
      '(_, G) ← train args corpus (draw r epoch) (validate r epoch) data_loader G;
      train_epochs r rest G
  end.

(** One run of [main.py] as the scripts launch it ([--mode all], with
    [--load_evidence_file] and [--save_evidence_file]): [Evidence_Label] is
    the dictionary of the file that is loaded, [HasAnswer_Map] is empty, and
    the result is the dictionary that is dumped. *)
Definition main_round (r : nat) (Evidence_Label0 : gmap nat (list Z))
    : result (gmap nat (list Z)) :=
  G ← train_epochs r (seq 0 num_epochs)
         {| HasAnswer_Map := ∅; Evidence_Label := Evidence_Label0; matcher_calls := [] |};
  '(G, st) ← update_evidence args corpus (model r) data_loader G;
  Ok (Evidence_Label G).

(** The loop of the scripts, each round loading the file of the round
    before it:
[[
    for i in range(recurrent_times):
        save_evidence_file = "recurrent%d" % (i)
        ...
        os.system(cmd)
        load_evidence_file = save_evidence_file
]] *)
Fixpoint rounds (rs : list nat) (Evidence_Label0 : gmap nat (list Z))
    : result (gmap nat (list Z)) :=
  match rs with
  | [] => Ok Evidence_Label0
  | r :: rest =>
      Evidence_Label1 ← main_round r Evidence_Label0;
      rounds rest Evidence_Label1
  end.

End rounds.

(** *** Two arithmetics for the vote *)

(** The exact rationals. *)
Definition Q_number : Number :=
  {| num := Q; num_zero := 0%Q; num_add := Qplus; num_mul := Qmult;
     num_gt := fun x y => negb (Qle_bool x y) |}.


(** *** A small instance, to run the matcher *)

(** Splitting at the spaces. *)
Fixpoint split_spaces (cur : string) (s : string) : list string :=
  match s with
  | EmptyString => if decide (cur = "") then [] else [cur]
  | String c s' =>
      if decide (c = " "%char)
      then (if decide (cur = "") then split_spaces "" s' else cur :: split_spaces "" s')
      else split_spaces (cur +:+ String c EmptyString) s'
  end.

(** Whether the parentheses of a pattern are balanced. *)
Fixpoint balanced (depth : nat) (s : string) : bool :=
  match s with
  | EmptyString => bool_decide (depth = 0%nat)
  | String c s' =>
      if decide (c = "("%char) then balanced (S depth) s'
      else if decide (c = ")"%char)
           then match depth with O => false | S d => balanced d s' end
           else balanced depth s'
  end.

(** The lower-casing of the ASCII letters, which is [str.lower()] on the
    strings of ASCII characters. *)
Definition ascii_lower_char (c : ascii) : ascii :=
  let n := nat_of_ascii c in
  if ((65 <=? n)%nat && (n <=? 90)%nat)%bool then ascii_of_nat (n + 32) else c.

Fixpoint ascii_lower (s : string) : string :=
  match s with
  | EmptyString => EmptyString
  | String c s' => String (ascii_lower_char c) (ascii_lower s')
  end.

(** An instance on ASCII texts, with a whitespace tokenizer, no
    normalization and an engine that only rejects the patterns with
    unbalanced parentheses. *)
Definition toy_externals : Externals := {|
  normalize := fun s => s;
  tokenize_words := fun s => split_spaces "" (ascii_lower s);
  str_lower := ascii_lower;
  regex := string;
  re_compile := fun p => if balanced 0 p then Some p else None;
  re_findall := fun _ _ => [];
  str_of_list := fun l => "[" +:+ Py.join ", " l +:+ "]"
|}.



Definition searchqa_args : Args := {| dataset := "searchqa"; top_k := 2000 |}.
Definition trec_args : Args := {| dataset := "CuratedTrec"; top_k := 2000 |}.

(** An instance whose engine compiles every pattern and finds the given
    matches, to run the CuratedTrec branch. *)
Definition matching_externals (found : list pymatch) : Externals := {|
  normalize := fun s => s;
  tokenize_words := fun s => split_spaces "" (ascii_lower s);
  str_lower := ascii_lower;
  regex := string;
  re_compile := fun p => Some p;
  re_findall := fun _ _ => found;
  str_of_list := fun l => "[" +:+ Py.join ", " l +:+ "]"
|}.

(** [m[0]] on a non-empty [str]; the empty string otherwise. *)
Definition first_char (m : string) : string :=
  match m with
  | EmptyString => EmptyString
  | String c _ => String c EmptyString
  end.

(** *** A small run of [update_evidence]

    One batch of three questions, three document slots over a pool of one
    document for each question; the model's best attention scores are 0.9,
    0.5 and 0.7, on the slots 2, 0 and 1. *)

Definition cat_example : Example :=
  {| answer := [AList ["cat"]]; question := "who sat" |}.

Definition run_corpus : Corpus :=
  {| num_docs := 3;
     exs_with_doc := [cat_example; cat_example; cat_example];
     docs_by_question := [[["the"; "cat"; "sat"]]; [["a"; "dog"]]; [["cat"]]] |}.

Definition run_loader : list Batch :=
  [{| ex_id := [0; 1; 2]%nat; batch_size := 3 |}].

Definition run_model (idx : nat) : ModelOut :=
  {| probs := [1 # 2; 1 # 3; 1 # 4];
     attentions := ([9 # 10; 5 # 10; 7 # 10], [2; 0; 1]) |}.

Definition args_with_top_k (k : Z) : Args := {| dataset := "searchqa"; top_k := k |}.

(** The accumulators of this run, and its labels when phase 2 begins. *)
Definition run_Probability : list (string * Q) :=
  [("0|0", 1 # 2); ("0|1", 1 # 3); ("0|2", 1 # 4)].

Definition run_Attention_Weight : list record :=
  [("0|0", (9 # 10, 2)); ("0|1", (5 # 10, 0)); ("0|2", (7 # 10, 1))].

Definition run_labels : gmap nat (list Z) := {[ 0%nat := [-1; -1; -1] ]}.

(** A store in which the first question of the batch is already labelled. *)
Definition labelled_store : gmap nat (list Z) := {[ 0%nat := [1; -1; -1] ]}.

(** The globals of the small run when its phase 1 ends. *)
Definition run_grid : grid :=
  [[(true, [(1, 1)]); (false, []); (true, [(0, 0)])];
   [(true, [(1, 1)]); (false, []); (true, [(0, 0)])];
   [(true, [(1, 1)]); (false, []); (true, [(0, 0)])]].

Definition run_globals : Globals :=
  {| HasAnswer_Map := {[ 0%nat := run_grid ]};
     Evidence_Label := run_labels;
     matcher_calls := [(0, 0, 0); (0, 0, 1); (0, 0, 2); (0, 1, 0); (0, 1, 1); (0, 1, 2);
                       (0, 2, 0); (0, 2, 1); (0, 2, 2)]%nat |}.

(** A draw of the three documents, and a validation that passes. *)
Definition run_draw (idx : nat) : list nat := [2; 0; 1]%nat.

Definition run_validate (idx : nat) : result unit := Ok ().

(** The globals of the small run with the first question labelled. *)
Definition labelled_globals : Globals :=
  {| HasAnswer_Map := HasAnswer_Map run_globals;
     Evidence_Label := labelled_store;
     matcher_calls := matcher_calls run_globals |}.

(** A loader of five batches. *)
Definition five_batches : list Batch :=
  replicate 5 {| ex_id := [0; 1; 2]%nat; batch_size := 3 |}.

(** A reader whose top predictions are the spans (1, 2), (1, 1) and (0, 0)
    for the three examples of a batch. *)
Definition reader_predict (idx idx_doc : nat) : Prediction (N := Q_number) :=
  @mkPrediction Q_number [[1]; [1]; [0]] [[2]; [1]; [0]] [[1 # 1]; [1 # 1]; [1 # 1]].

(** A batch of one question. *)
Definition one_question : Batch := {| ex_id := [0%nat]; batch_size := 1 |}.

(** The document of a cell, empty when it cannot be read. *)
Definition doc_or_nil (corpus : Corpus) (b : Batch) (i idx_doc : nat) : list string :=
  match ex_id b !! i with
  | Some q =>
      match docs_by_question corpus !! q with
      | Some pool => default [] (pool !! (idx_doc mod length pool)%nat)
      | None => []
      end
  | None => []
  end.

(** *** A small run of the vote

    One question and three documents; the reader proposes [paris] in the
    first two (scores 0.8 and 0.3) and [lyon] in the third (0.5), and a span
    past the end of the first document; the selector scores are all 1. *)

Definition vote_corpus : Corpus :=
  {| num_docs := 3;
     exs_with_doc := [{| answer := [AList ["paris"]]; question := "capital" |}];
     docs_by_question :=
       [[["I"; "love"; "Paris"; "in"; "the"; "spring"; "and"; "in"; "the"; "fall"];
         ["Paris"; "is"; "nice"];
         ["Lyon"; "too"]]] |}.

Definition vote_predict (idx_doc : nat) : Prediction (N := Q_number) :=
  match idx_doc with
  | 0%nat => @mkPrediction Q_number [[50; 2]] [[52; 2]] [[1 # 1; 8 # 10]]
  | 1%nat => @mkPrediction Q_number [[0]] [[0]] [[3 # 10]]
  | _ => @mkPrediction Q_number [[0]] [[0]] [[5 # 10]]
  end.

Definition vote_selection : list (list Q) := [[1 # 1; 1 # 1; 1 # 1]].

(** The same instance with ten document slots over its three documents,
    all with the selection score 1 and ranked in the order of the slots; the
    reader has no candidate in the slots after the third. *)
Definition ten_corpus : Corpus :=
  {| num_docs := 10;
     exs_with_doc := exs_with_doc vote_corpus;
     docs_by_question := docs_by_question vote_corpus |}.

Definition no_candidate : Prediction (N := Q_number) := @mkPrediction Q_number [] [] [].

Definition ten_predict (idx idx_doc : nat) : Prediction (N := Q_number) :=
  if (idx_doc <? 3)%nat then vote_predict idx_doc else no_candidate.

Definition ten_selection (idx : nat) : list (list Q) := [replicate 10 (1 # 1)].

Definition ten_sort (t : list Q) : list nat := seq 0 (length t).


(** A reader whose candidates, in the first slot, are the span that starts
    at 50 and ends at 40, with the score 0.9, and [paris], with the score
    0.8. *)
Definition reversed_predict (idx idx_doc : nat) : Prediction (N := Q_number) :=
  match idx_doc with
  | 0%nat => @mkPrediction Q_number [[50; 2]] [[40; 2]] [[9 # 10; 8 # 10]]
  | _ => no_candidate
  end.

(** The same reader without the first candidate. *)
Definition forward_predict (idx idx_doc : nat) : Prediction (N := Q_number) :=
  match idx_doc with
  | 0%nat => @mkPrediction Q_number [[2]] [[2]] [[8 # 10]]
  | _ => no_candidate
  end.




(** Four epochs on CuratedTrec: the test scores 30, 50, 50 and 40, and a
    dev score that grows with the epoch. *)
Definition run_dev_result (epoch : nat) : Metrics :=
  {| exact_match := inject_Z (Z.of_nat epoch); f1 := 0 |}.

Definition run_test_result (epoch : nat) : Metrics :=
  {| exact_match := match epoch with
                    | 0%nat => 30 # 1
                    | 1%nat => 50 # 1
                    | 2%nat => 50 # 1
                    | _ => 40 # 1
                    end;
     f1 := 0 |}.

(** * Properties *)

(** ** The answer span matcher *)

Section matcher_props.
Context `{Externals}.

Lemma finish_spec (res_list : list span) :
  finish res_list = (bool_decide (res_list ≠ []), res_list).
Proof. by destruct res_list. Qed.

Lemma exact_spans_concat (text : list string) (answer : list pyans) (acc : list span) :
  exact_spans text answer acc
  = acc ++ concat (map (fun a => windows (token_answer a) text) answer).
Proof.
  revert acc. induction answer as [|a answer IH]; intros acc; simpl.
  - by rewrite app_nil_r.
  - by rewrite IH, <- app_assoc.
Qed.

Lemma regex_spans_nonempty (text : list string) (answer_new : list pymatch)
    (acc res : list span) :
  regex_spans text answer_new acc = Ok res → ∃ more, res = acc ++ more.
Proof.
  revert acc. induction answer_new as [|a rest IH]; intros acc; simpl.
  - intros [= <-]. exists []. by rewrite app_nil_r.
  - destruct (match_head a) as [a0|e]; simpl; [|done].
    intros Hr. destruct (IH _ Hr) as [more ->].
    eexists. by rewrite <- app_assoc.
Qed.

(** Python's [range]. *)
Lemma elem_of_range (a b j : Z) : j ∈ Py.range a b ↔ a <= j < b.
Proof.
  unfold Py.range. rewrite list_elem_of_fmap. split.
  - intros (k & -> & Hk). apply elem_of_seq in Hk. lia.
  - intros Hj. exists (Z.to_nat (j - a)). split; [lia|].
    apply elem_of_seq. lia.
Qed.



(** The comparison of the matcher's loop is the window specification. *)
Lemma slice_window (single_answer text : list string) (i : nat) :
  (i + length single_answer <= length text)%nat →
  single_answer = Py.slice text i (length single_answer)
  ↔ window_at single_answer text i.
Proof.
  intros Hi. unfold Py.slice, window_at. split.
  - intros Heq. exists (take i text), (drop (length single_answer) (drop i text)).
    split; [|rewrite length_take; lia].
    rewrite Heq at 1. by rewrite !take_drop.
  - intros (before & after & -> & <-).
    by rewrite drop_app_length, take_app_length.
Qed.

Lemma window_at_bound (single_answer text : list string) (i : nat) :
  window_at single_answer text i → (i + length single_answer <= length text)%nat.
Proof. intros (before & after & -> & <-). rewrite !length_app. lia. Qed.

Lemma elem_of_windows (single_answer text : list string) (sp : span) :
  sp ∈ windows single_answer text
  ↔ ∃ i : nat, window_at single_answer text i ∧ sp = span_at single_answer i.
Proof.
  unfold windows. rewrite list_elem_of_omap. split.
  - intros (j & Hj & Hf). apply elem_of_range in Hj.
    destruct (decide _) as [Heq|]; [|done]. injection Hf as <-.
    exists (Z.to_nat j). split.
    + apply slice_window; [lia|done].
    + unfold span_at. f_equal; lia.
  - intros (i & Hw & ->). exists (Z.of_nat i).
    pose proof (window_at_bound _ _ _ Hw) as Hb. split.
    + apply elem_of_range. lia.
    + rewrite Nat2Z.id. rewrite decide_True; [done|].
      by apply slice_window.
Qed.





(** C6. In the CuratedTrec mode, when the pattern built from the first
    accepted answer does not compile, [has_answer] returns [(False, [])]:
    the failure does not reach the caller. *)
Theorem has_answer_regex_compile_failure (args : Args) (answer : list pyans)
    (a0 : pyans) (t : list string) :
  dataset args = "CuratedTrec" →
  answer !! 0%nat = Some a0 →
  re_compile (pattern_of a0) = None →
  has_answer args answer t = Ok (false, []).
Proof.
  intros Htrec Ha0 Hfail. unfold has_answer.
  rewrite decide_True by done. by rewrite Ha0; simpl; rewrite Hfail.
Qed.

End matcher_props.



Lemma has_answer_regex_compile_failure_witness :
  has_answer (H := toy_externals) trec_args [AStr "a(b"] ["the"; "cat"; "sat"]
    = Ok (false, []).
Proof.
  apply (has_answer_regex_compile_failure (H := toy_externals)
           trec_args [AStr "a(b"] (AStr "a(b") ["the"; "cat"; "sat"]);
    reflexivity.
Defined.

(** ** The keys of the confidence records *)

Lemma split_on_free (sep : ascii) (s : string) :
  free_of sep s → split_on sep s = [s].
Proof.
  induction s as [|c s IH]; simpl; [done|].
  intros [Hc Hs]. rewrite decide_False by done. by rewrite IH.
Qed.

Lemma split_on_app (sep : ascii) (a b : string) :
  free_of sep a → split_on sep (a +:+ String sep b) = a :: split_on sep b.
Proof.
  induction a as [|c a IH]; simpl.
  - intros _. by rewrite decide_True.
  - intros [Hc Ha]. rewrite decide_False by done. by rewrite IH.
Qed.

Lemma string_of_uint_free (d : Decimal.uint) :
  free_of "|" (NilEmpty.string_of_uint d).
Proof. induction d; simpl; (split; [done|assumption]) || done. Qed.

Lemma format_d_free (n : nat) : free_of "|" (format_d n).
Proof. apply string_of_uint_free. Qed.

Lemma int_of_format_d (n : nat) : int_of (format_d n) = Ok n.
Proof.
  unfold int_of, format_d.
  assert (NilEmpty.uint_of_string (NilEmpty.string_of_uint (Nat.to_uint n))
          = Some (Nat.to_uint n)) as Hus by apply NilEmpty.usu.
  destruct (decide _) as [Hempty|_].
  - rewrite Hempty in Hus. simpl in Hus. injection Hus as Hnil.
    pose proof (Unsigned.of_to n) as Hn. rewrite <- Hnil in Hn.
    simpl in Hn. subst n. discriminate Hnil.
  - rewrite Hus. simpl. by rewrite Unsigned.of_to.
Qed.

(** Splitting a key gives back the batch index and the index in the batch. *)
Lemma parse_mk_key (idx i : nat) : parse_key (mk_key idx i) = Ok (idx, i).
Proof.
  unfold parse_key.
  change (mk_key idx i) with (format_d idx +:+ String "|" (format_d i)).
  rewrite split_on_app by apply format_d_free.
  rewrite split_on_free by apply format_d_free.
  by rewrite !int_of_format_d.
Qed.

Lemma mk_key_inj (idx i idx' i' : nat) :
  mk_key idx i = mk_key idx' i' → idx = idx' ∧ i = i'.
Proof.
  intros Heq. pose proof (parse_mk_key idx i) as Hp.
  rewrite Heq, parse_mk_key in Hp. by injection Hp as -> ->.
Qed.

(** ** Insertion-ordered dictionaries *)

Section odict_props.
Context {V : Type}.
Implicit Types (d : list (string * V)) (k : string) (v : V).

Lemma od_mem_true k d : OD.mem k d = true ↔ k ∈ OD.keys d.
Proof.
  unfold OD.mem. rewrite bool_decide_eq_true.
  induction d as [|[k' v'] d IH]; simpl.
  - split; [by intros [? ?]|by intros ?%elem_of_nil].
  - destruct (decide (k = k')) as [->|Hne].
    + split; [intros _; left|by eexists].
    + rewrite IH. split; [by right|].
      intros [?|?]%elem_of_cons; [done|assumption].
Qed.

Lemma od_mem_false k d : OD.mem k d = false ↔ k ∉ OD.keys d.
Proof.
  rewrite <- od_mem_true. by destruct (OD.mem k d).
Qed.

Lemma od_get_None k d : OD.get k d = None ↔ k ∉ OD.keys d.
Proof.
  rewrite <- od_mem_false. unfold OD.mem.
  rewrite bool_decide_eq_false, <- eq_None_not_Some. done.
Qed.

Lemma od_get_is_Some k d : is_Some (OD.get k d) ↔ k ∈ OD.keys d.
Proof. rewrite <- od_mem_true. unfold OD.mem. by rewrite bool_decide_eq_true. Qed.

(** Writing a key that is not in the dictionary appends the entry. *)
Lemma od_set_fresh k v d : k ∉ OD.keys d → OD.set k v d = d ++ [(k, v)].
Proof.
  induction d as [|[k' v'] d IH]; simpl; [done|].
  intros Hk. apply not_elem_of_cons in Hk as [Hne Hk].
  rewrite decide_False by done. by rewrite IH.
Qed.

Lemma od_get_set_eq k v d : OD.get k (OD.set k v d) = Some v.
Proof.
  induction d as [|[k' v'] d IH]; simpl.
  - by rewrite decide_True.
  - destruct (decide (k = k')) as [->|Hne]; simpl.
    + by rewrite decide_True.
    + by rewrite decide_False.
Qed.

Lemma od_get_set_ne k k' v d : k ≠ k' → OD.get k' (OD.set k v d) = OD.get k' d.
Proof.
  intros Hne. induction d as [|[k0 v0] d IH]; simpl.
  - by rewrite decide_False.
  - destruct (decide (k = k0)) as [->|Hne0]; simpl.
    + by rewrite !decide_False.
    + by rewrite IH.
Qed.

Lemma od_keys_set k v d :
  OD.keys (OD.set k v d) = if OD.mem k d then OD.keys d else OD.keys d ++ [k].
Proof.
  destruct (OD.mem k d) eqn:Hm.
  - induction d as [|[k' v'] d IH]; simpl; [done|].
    destruct (decide (k = k')) as [->|Hne]; simpl; [done|].
    f_equal. apply IH. apply od_mem_true in Hm. apply od_mem_true.
    apply elem_of_cons in Hm as [?|?]; [done|assumption].
  - apply od_mem_false in Hm. rewrite od_set_fresh by done.
    unfold OD.keys. by rewrite map_app.
Qed.

Lemma od_get_app_l k d d' :
  k ∈ OD.keys d → OD.get k (d ++ d') = OD.get k d.
Proof.
  induction d as [|[k' v'] d IH]; simpl; [by intros ?%elem_of_nil|].
  intros Hk. destruct (decide (k = k')); [done|].
  apply IH. apply elem_of_cons in Hk as [?|?]; [done|assumption].
Qed.

Lemma od_get_elem_of k v d :
  NoDup (OD.keys d) → (k, v) ∈ d → OD.get k d = Some v.
Proof.
  induction d as [|[k' v'] d IH]; simpl; [by intros _ ?%elem_of_nil|].
  intros Hnd Hin. apply NoDup_cons in Hnd as [Hk' Hnd].
  apply elem_of_cons in Hin as [[= -> ->]|Hin].
  - by rewrite decide_True.
  - destruct (decide (k = k')) as [->|Hne]; [|by apply IH].
    exfalso. apply Hk'. apply list_elem_of_fmap. by exists (k', v).
Qed.

End odict_props.

(** ** Phase 1 of [update_evidence]: the accumulators *)


Lemma accumulate_ok (idx : nat) (out : ModelOut) (rng : list nat)
    (P P' : list (string * Q)) (A A' : list record) :
  accumulate idx out rng P A = Ok (P', A') →
  ∃ (newP : list (string * Q)) (newA : list record),
    P' = P ++ newP ∧ A' = A ++ newA
    ∧ OD.keys newP = map (mk_key idx) rng
    ∧ OD.keys newA = map (mk_key idx) rng
    ∧ NoDup (map (mk_key idx) rng)
    ∧ ∀ k, k ∈ map (mk_key idx) rng → (k ∉ OD.keys P) ∧ (k ∉ OD.keys A).
Proof.
  revert P A. induction rng as [|i rng IH]; intros P A; simpl.
  - intros [= <- <-]. exists [], []. rewrite !app_nil_r.
    split_and!; [done|done|done|done|constructor|].
    by intros k ?%elem_of_nil.
  - destruct (OD.mem (mk_key idx i) P) eqn:HmP; simpl; [done|].
    destruct (OD.mem (mk_key idx i) A) eqn:HmA; simpl; [done|].
    apply od_mem_false in HmP, HmA.
    destruct (probs out !! i) as [p|]; simpl; [|done].
    destruct ((attentions out).1 !! i) as [a0|]; simpl; [|done].
    destruct ((attentions out).2 !! i) as [a1|]; simpl; [|done].
    rewrite !od_set_fresh by done.
    intros Hacc. destruct (IH _ _ Hacc) as (newP & newA & -> & -> & HkP & HkA & Hnd & Hfresh).
    exists ((mk_key idx i, p) :: newP), ((mk_key idx i, (a0, a1)) :: newA).
    rewrite <- !app_assoc. simpl. rewrite HkP, HkA.
    split_and!; [done|done|done|done| |].
    + constructor; [|done]. intros Hin. destruct (Hfresh _ Hin) as [HnP _].
      apply HnP. unfold OD.keys. rewrite map_app. simpl.
      apply elem_of_app. right. left.
    + intros k Hk. apply elem_of_cons in Hk as [->|Hin]; [done|].
      destruct (Hfresh _ Hin) as [HnP HnA].
      unfold OD.keys in HnP, HnA. rewrite map_app, elem_of_app in HnP, HnA.
      split; intros ?; [apply HnP|apply HnA]; by left.
Qed.

Lemma pass_keys_elem (idx : nat) (data_loader : list Batch) (k : string) :
  k ∈ pass_keys idx data_loader
  ↔ ∃ (n i : nat) (b : Batch),
      data_loader !! n = Some b ∧ (i < batch_size b)%nat ∧ k = mk_key (idx + n) i.
Proof.
  revert idx. induction data_loader as [|b rest IH]; intros idx; simpl.
  - split; [by intros ?%elem_of_nil|]. by intros (n & i & b & Hb & _).
  - rewrite elem_of_app, list_elem_of_fmap, IH. split.
    + intros [(i & -> & Hi)|(n & i & b' & Hb' & Hi & ->)].
      * apply elem_of_seq in Hi. exists 0%nat, i, b.
        rewrite Nat.add_0_r. split; [done|]. split; [lia|done].
      * exists (S n), i, b'. split; [done|]. split; [done|]. f_equal. lia.
    + intros (n & i & b' & Hb' & Hi & ->). destruct n as [|n]; simpl in Hb'.
      * injection Hb' as ->. left. exists i. rewrite Nat.add_0_r.
        split; [done|]. apply elem_of_seq. lia.
      * right. exists n, i, b'. split; [done|]. split; [done|]. f_equal. lia.
Qed.

(** The keys of a pass are pairwise distinct. *)
Lemma pass_keys_NoDup (idx : nat) (data_loader : list Batch) :
  NoDup (pass_keys idx data_loader).
Proof.
  revert idx. induction data_loader as [|b rest IH]; intros idx; simpl.
  - constructor.
  - apply NoDup_app. split; [|split; [|apply IH]].
    + apply NoDup_fmap_2; [|apply NoDup_seq].
      intros i i' Heq. by apply mk_key_inj in Heq as [_ ?].
    + intros k Hk Hk'. apply list_elem_of_fmap in Hk as (i & -> & _).
      apply pass_keys_elem in Hk' as (n & i' & b' & _ & _ & Heq).
      apply mk_key_inj in Heq as [Heq _]. lia.
Qed.

(** The two loops that build the lists of the model from the grid of the
    visit. *)
Ltac pass_lists :=
  destruct (sample_rows _ _) as [?rows|?x]; cbn [mbind result_bind]; [|done];
  destruct (targets_of_docs _ _ _) as [?tl|?x]; cbn [mbind result_bind]; [|done].



Section accumulate_props.
Context `{Externals}.
Variable args : Args.
Variable corpus : Corpus.
Variable model : nat → ModelOut.

Lemma evidence_pass_ok (idx : nat) (data_loader : list Batch) (G G' : Globals)
    (P P' : list (string * Q)) (A A' : list record) :
  evidence_pass args corpus model idx data_loader G P A = Ok (G', P', A') →
  ∃ (newP : list (string * Q)) (newA : list record),
    P' = P ++ newP ∧ A' = A ++ newA
    ∧ OD.keys newP = pass_keys idx data_loader
    ∧ OD.keys newA = pass_keys idx data_loader
    ∧ ∀ k, k ∈ pass_keys idx data_loader → (k ∉ OD.keys P) ∧ (k ∉ OD.keys A).
Proof.
  revert idx G P A. induction data_loader as [|b rest IH]; intros idx G P A; simpl.
  - intros [= <- <- <-]. exists [], []. rewrite !app_nil_r.
    split_and!; [done|done|done|done|]. by intros k ?%elem_of_nil.
  - destruct (visit args corpus idx b G) as [[g G1]|e]; simpl; [|done].
    pass_lists.
    destruct (accumulate _ _ _ _ _) as [[P1 A1]|e] eqn:Hacc; simpl; [|done].
    intros Hpass.
    destruct (accumulate_ok _ _ _ _ _ _ _ Hacc)
      as (nP1 & nA1 & -> & -> & HkP1 & HkA1 & _ & Hfresh1).
    destruct (IH _ _ _ _ Hpass) as (nP2 & nA2 & -> & -> & HkP2 & HkA2 & Hfresh2).
    exists (nP1 ++ nP2), (nA1 ++ nA2). rewrite !app_assoc.
    unfold OD.keys in *. rewrite !map_app, HkP1, HkP2.
    split_and!; [done|done|done|by rewrite HkA1, HkA2|].
    intros k [Hk|Hk]%elem_of_app; [by apply Hfresh1|].
    destruct (Hfresh2 _ Hk) as [HnP HnA].
    rewrite map_app, elem_of_app in HnP, HnA.
    split; intros ?; [apply HnP|apply HnA]; by left.
Qed.



End accumulate_props.


(** ** The ranking *)

Lemma insert_desc_perm (x : record) (l : list record) :
  Permutation (insert_desc x l) (x :: l).
Proof.
  induction l as [|y l IH]; simpl; [done|].
  destruct (Qle_bool _ _); [done|].
  rewrite IH. apply perm_swap.
Qed.

Lemma sorted_desc_perm (l : list record) : Permutation (sorted_desc l) l.
Proof.
  induction l as [|x l IH]; simpl; [done|].
  by rewrite insert_desc_perm, IH.
Qed.

Lemma score_ge_trans (a b c : record) : score_ge a b → score_ge b c → score_ge a c.
Proof. unfold score_ge. intros Hab Hbc. by apply Qle_trans with (best_score b). Qed.

Lemma insert_desc_sorted (x : record) (l : list record) :
  StronglySorted score_ge l → StronglySorted score_ge (insert_desc x l).
Proof.
  induction 1 as [|y l Hl IH Hy]; simpl.
  - repeat constructor.
  - destruct (Qle_bool (best_score y) (best_score x)) eqn:Hle.
    + apply Qle_bool_iff in Hle. constructor; [by constructor|].
      constructor; [done|].
      eapply Forall_impl; [exact Hy|]. intros z Hz.
      by apply score_ge_trans with y.
    + constructor; [done|].
      rewrite insert_desc_perm. constructor; [|done].
      unfold score_ge. apply Qlt_le_weak, Qnot_le_lt.
      intros Hle'. apply Qle_bool_iff in Hle'. congruence.
Qed.

(** The ranking is by decreasing score... *)
Lemma sorted_desc_sorted (l : list record) : StronglySorted score_ge (sorted_desc l).
Proof.
  induction l as [|x l IH]; simpl; [constructor|].
  by apply insert_desc_sorted.
Qed.

Lemma insert_desc_stable (q : Q) (x : record) (l : list record) :
  List.filter (same_score q) (insert_desc x l) = List.filter (same_score q) (x :: l).
Proof.
  induction l as [|y l IH]; [done|].
  cbn [insert_desc].
  destruct (Qle_bool (best_score y) (best_score x)) eqn:Hle; [done|].
  cbn [List.filter] in *. rewrite IH.
  destruct (same_score q y) eqn:Hy, (same_score q x) eqn:Hx; try done.
  exfalso. unfold same_score in Hx, Hy.
  apply Qeq_bool_iff in Hx, Hy.
  assert (Qle_bool (best_score y) (best_score x) = true) as Hle'; [|congruence].
  apply Qle_bool_iff. rewrite Hx, Hy. apply Qle_refl.
Qed.

(** ... and stable: records of equal score keep the order they had. *)
Lemma sorted_desc_stable (q : Q) (l : list record) :
  List.filter (same_score q) (sorted_desc l) = List.filter (same_score q) l.
Proof.
  induction l as [|x l IH]; [done|].
  cbn [sorted_desc]. rewrite insert_desc_stable. cbn [List.filter].
  by rewrite IH.
Qed.

Lemma ranked_length (A : list record) (EL : gmap nat (list Z)) :
  length (ranked A EL) = length (eligible A EL).
Proof.
  unfold ranked, eligible, evidence_scores.
  rewrite sorted_desc_perm, list_filter_filter.
  f_equal. apply list_filter_iff. intros r. tauto.
Qed.

(** ** The label store *)

Lemma set_label_ok (EL : gmap nat (list Z)) (idx i : nat) (l v : Z) :
  label EL idx i = Ok l → ∃ EL', set_label EL idx i v = Ok EL'.
Proof.
  unfold label, set_label. destruct (EL !! idx) as [row|]; simpl; [|done].
  destruct (row !! i) as [l'|] eqn:Hrow; simpl; [|done].
  intros _. apply lookup_lt_Some in Hrow. rewrite decide_True by done. by eexists.
Qed.

Lemma label_set_label_eq (EL EL' : gmap nat (list Z)) (idx i : nat) (v : Z) :
  set_label EL idx i v = Ok EL' → label EL' idx i = Ok v.
Proof.
  unfold label, set_label. destruct (EL !! idx) as [row|]; simpl; [|done].
  destruct (decide _) as [Hi|]; [|done]. intros [= <-].
  rewrite lookup_insert_eq. simpl. by rewrite list_lookup_insert_eq.
Qed.

Lemma label_set_label_ne (EL EL' : gmap nat (list Z)) (idx i idx' i' : nat) (v : Z) :
  set_label EL idx i v = Ok EL' → (idx', i') ≠ (idx, i) →
  label EL' idx' i' = label EL idx' i'.
Proof.
  unfold label, set_label. destruct (EL !! idx) as [row|] eqn:Hrow; simpl; [|done].
  destruct (decide _) as [Hi|]; [|done]. intros [= <-] Hne.
  destruct (decide (idx' = idx)) as [->|Hidx].
  - rewrite lookup_insert_eq, Hrow. simpl.
    rewrite list_lookup_insert_ne; [done|]. congruence.
  - by rewrite lookup_insert_ne.
Qed.

Lemma label_init_evidence (EL : gmap nat (list Z)) (idx : nat) (b : Batch)
    (idx' i' : nat) (v : Z) :
  label EL idx' i' = Ok v → label (init_evidence idx b EL) idx' i' = Ok v.
Proof.
  unfold init_evidence. destruct (EL !! idx) as [row|] eqn:Hrow; [done|].
  unfold label. destruct (decide (idx' = idx)) as [->|Hne].
  - by rewrite Hrow.
  - by rewrite lookup_insert_ne.
Qed.

(** ** Phase 2 of [update_evidence]: the promotion *)

Section promote_props.
Variable Top_k : Z.
Variable P : list (string * Q).
Variable A : list record.

(** A label that is set stays as it is, from any state of the loop on. *)
Lemma promote_loop_monotone (rs : list record) (st st' : Promotion) :
  promote_loop Top_k P A rs st = Ok st' →
  ∀ (idx i : nat) (v : Z),
    label (labels st) idx i = Ok v → v ≠ -1 → label (labels st') idx i = Ok v.
Proof.
  revert st. induction rs as [|[key value] rs IH]; intros st; simpl.
  - by intros [= <-].
  - destruct (parse_key key) as [[idx0 i0]|e]; simpl; [|done].
    destruct (label (labels st) idx0 i0) as [l|e] eqn:Hl; simpl; [|done].
    destruct (decide (l ≠ -1)) as [Hset|Hunset]; [by apply IH|].
    destruct (set_label _ _ _ _) as [EL1|e] eqn:Hset; simpl; [|done].
    destruct (OD.get key P) as [p|]; simpl; [|done].
    destruct (OD.get key A) as [a|]; simpl; [|done].
    assert (∀ idx i v, label (labels st) idx i = Ok v → v ≠ -1 →
                       label EL1 idx i = Ok v) as Hstep.
    { intros idx i v Hv Hne.
      rewrite (label_set_label_ne _ _ _ _ _ _ _ Hset); [done|].
      intros [= -> ->]. rewrite Hl in Hv. injection Hv as <-.
      by apply Hunset. }
    destruct (decide (count st + 1 >= Top_k)).
    + intros [= <-]. simpl. apply Hstep.
    + intros Hloop idx i v Hv Hne.
      apply (IH _ Hloop); [|done]. simpl. by apply Hstep.
Qed.

(** An example that is already labelled is passed over: the loop goes on
    from the same state, counter included. *)
Lemma promote_loop_skip (key : string) (value : Q * Z) (rs : list record)
    (st : Promotion) (idx i : nat) (l : Z) :
  parse_key key = Ok (idx, i) →
  label (labels st) idx i = Ok l → l ≠ -1 →
  promote_loop Top_k P A ((key, value) :: rs) st = promote_loop Top_k P A rs st.
Proof.
  intros Hkey Hl Hne. simpl. rewrite Hkey. simpl. rewrite Hl. simpl.
  by rewrite decide_True.
Qed.

Lemma filter_ext_elem {X} (P1 P2 : X → Prop) `{!∀ x, Decision (P1 x)}
    `{!∀ x, Decision (P2 x)} (l : list X) :
  (∀ x, x ∈ l → P1 x ↔ P2 x) → filter P1 l = filter P2 l.
Proof.
  induction l as [|x l IH]; intros Hext; [done|].
  rewrite !filter_cons.
  rewrite IH by (intros y Hy; apply Hext; by right).
  destruct (decide (P1 x)) as [H1|H1], (decide (P2 x)) as [H2|H2]; try done.
  - exfalso. apply H2, Hext; [left|done].
  - exfalso. apply H1, Hext; [left|done].
Qed.

Lemma record_label_key (EL : gmap nat (list Z)) (r : record) (idx i : nat) :
  r.1 = mk_key idx i →
  record_label EL r = match label EL idx i with Ok l => Some l | Raise _ => None end.
Proof. intros Hr. unfold record_label. by rewrite Hr, parse_mk_key. Qed.

(** What the loop computes from any state: it labels the first unlabeled
    records of its list, as many as [remaining] allows, with the best
    document of each. *)
Lemma promote_loop_spec (rs : list record) (st : Promotion) :
  records_ok P A (labels st) rs →
  let pr := take (remaining Top_k (count st)) (filter (unlabeled (labels st)) rs) in
  promote_loop Top_k P A rs st
  = Ok {| labels := foldl write_label (labels st) pr;
          count := count st + Z.of_nat (length pr);
          label_prob := label_prob st ++ map (prob_of P) pr;
          label_attention := label_attention st ++ map best_score pr |}.
Proof.
  revert st. induction rs as [|[key value] rs IH]; intros st [Hnd Hrs].
  - rewrite filter_nil, take_nil. simpl. rewrite Z.add_0_r, !app_nil_r. by destruct st.
  - rewrite map_cons in Hnd. apply NoDup_cons in Hnd as [Hkey Hnd].
    destruct (Hrs (key, value)) as ((idx & i & Hk & Hlab) & [p Hp] & Ha); [left|].
    pose proof (Hk : key = mk_key idx i) as Hk0.
    cbn [fst snd] in Hp, Ha, Hkey. cbn [promote_loop].
    rewrite Hk0 at 1. rewrite parse_mk_key. simpl.
    destruct (label (labels st) idx i) as [l|e] eqn:Hl; [|done]. simpl.
    assert (records_ok P A (labels st) rs) as Hok.
    { split; [done|]. intros r Hr. apply Hrs. by right. }
    destruct (decide (l ≠ -1)) as [Hset|Hunset].
    + rewrite filter_cons_False; [by apply IH|].
      unfold unlabeled. rewrite (record_label_key _ _ idx i Hk), Hl. congruence.
    + assert (l = -1) as -> by (destruct (decide (l = -1)); [done|by exfalso; apply Hunset]).
      rewrite filter_cons_True
        by (unfold unlabeled; by rewrite (record_label_key _ _ idx i Hk), Hl).
      destruct (set_label_ok _ _ _ _ value.2 Hl) as [EL1 Hset]. rewrite Hset. simpl.
      rewrite Hp, Ha. simpl.
      assert (write_label (labels st) (key, value) = EL1) as Hw.
      { unfold write_label. cbn [fst]. rewrite Hk0 at 1. rewrite parse_mk_key.
        unfold best_doc_index. cbn [snd]. by rewrite Hset. }
      assert (prob_of P (key, value) = p) as Hpr by (unfold prob_of; simpl; by rewrite Hp).
      unfold remaining.
      destruct (decide (count st + 1 >= Top_k)) as [Hstop|Hgo].
      * replace (Z.to_nat (Z.max 1 (Top_k - count st))) with 1%nat by lia.
        rewrite firstn_cons, take_0. cbn [foldl length map]. by rewrite Hw, Hpr.
      * replace (Z.to_nat (Z.max 1 (Top_k - count st)))
          with (S (Z.to_nat (Z.max 1 (Top_k - (count st + 1))))) by lia.
        rewrite firstn_cons. cbn [foldl length map]. rewrite Hw, Hpr.
        assert (filter (unlabeled (labels st)) rs = filter (unlabeled EL1) rs) as ->.
        { apply filter_ext_elem. intros r Hr.
          destruct (Hrs r) as ((idx' & i' & Hk' & _) & _); [by right|].
          unfold unlabeled. rewrite !(record_label_key _ _ idx' i' Hk').
          rewrite (label_set_label_ne _ _ _ _ _ _ _ Hset); [done|].
          intros [= -> ->]. apply Hkey. apply list_elem_of_fmap.
          exists r. split; [|done]. by rewrite Hk0, Hk'. }
        rewrite IH.
        -- cbn [labels count label_prob label_attention]. unfold remaining.
           f_equal. f_equal.
           ++ lia.
           ++ by rewrite <- app_assoc.
           ++ by rewrite <- app_assoc.
        -- cbn [labels]. split; [done|]. intros r Hr.
           destruct (Hrs r) as ((idx' & i' & Hk' & Hlab') & HP' & HA'); [by right|].
           split_and!; [|done|done].
           exists idx', i'. split; [done|].
           destruct (decide ((idx', i') = (idx, i))) as [[= -> ->]|Hne].
           ** by rewrite (label_set_label_eq _ _ _ _ _ Hset).
           ** by rewrite (label_set_label_ne _ _ _ _ _ _ _ Hset).
Qed.

End promote_props.

Lemma write_label_keyed (EL EL' : gmap nat (list Z)) (r : record) (idx i : nat) :
  r.1 = mk_key idx i → set_label EL idx i (best_doc_index r) = Ok EL' →
  write_label EL r = EL'.
Proof. intros Hk Hset. unfold write_label. by rewrite Hk, parse_mk_key, Hset. Qed.

(** The labels after the writes of a list of records with distinct keys. *)
Lemma label_foldl_write (pr : list record) (EL : gmap nat (list Z)) :
  NoDup (map fst pr) →
  (∀ r, r ∈ pr → ∃ idx i : nat, r.1 = mk_key idx i ∧ is_ok (label EL idx i) = true) →
  (∀ (r : record) (idx i : nat), r ∈ pr → r.1 = mk_key idx i →
      label (foldl write_label EL pr) idx i = Ok (best_doc_index r))
  ∧ (∀ idx i : nat, mk_key idx i ∉ map fst pr →
      label (foldl write_label EL pr) idx i = label EL idx i).
Proof.
  revert EL. induction pr as [|r0 pr IH]; intros EL Hnd Hok.
  - split; [by intros r idx i ?%elem_of_nil|done].
  - rewrite map_cons in Hnd. apply NoDup_cons in Hnd as [Hr0 Hnd].
    destruct (Hok r0) as (idx0 & i0 & Hk0 & Hl0); [left|].
    destruct (label EL idx0 i0) as [l0|] eqn:Hlab0; [|done].
    destruct (set_label_ok _ _ _ _ (best_doc_index r0) Hlab0) as [EL1 Hset].
    cbn [foldl]. rewrite (write_label_keyed _ _ _ _ _ Hk0 Hset).
    destruct (IH EL1 Hnd) as [IHin IHout].
    { intros r Hr. destruct (Hok r) as (idx & i & Hk & Hl); [by right|].
      exists idx, i. split; [done|].
      destruct (decide ((idx, i) = (idx0, i0))) as [[= -> ->]|Hne].
      - by rewrite (label_set_label_eq _ _ _ _ _ Hset).
      - by rewrite (label_set_label_ne _ _ _ _ _ _ _ Hset). }
    split.
    + intros r idx i [->|Hr]%elem_of_cons Hk; [|by apply IHin].
      rewrite Hk0 in Hk. apply mk_key_inj in Hk as [<- <-].
      rewrite IHout by (by rewrite <- Hk0).
      by apply label_set_label_eq with EL.
    + intros idx i Hout. rewrite map_cons, not_elem_of_cons in Hout.
      destruct Hout as [Hne Hout]. rewrite IHout by done.
      apply (label_set_label_ne _ _ _ _ _ _ _ Hset).
      intros [= -> ->]. by apply Hne.
Qed.

Lemma well_keyed_records_ok (P : list (string * Q)) (A : list record)
    (EL : gmap nat (list Z)) :
  well_keyed P A EL → records_ok P A EL (evidence_scores A).
Proof.
  intros [Hnd Hwk]. unfold evidence_scores.
  assert (∀ r, r ∈ sorted_desc (filter (λ r, best_doc_index r ≠ -1) A) → r ∈ A) as Hin.
  { intros r Hr. rewrite sorted_desc_perm in Hr.
    by apply list_elem_of_filter in Hr as [_ ?]. }
  split.
  - rewrite sorted_desc_perm.
    apply (sublist_NoDup _ (map fst A)); [done|].
    apply (fmap_sublist fst), sublist_filter.
  - intros r Hr. apply Hin in Hr. destruct (Hwk r Hr) as [HP Hkey].
    split_and!; [done|by apply od_get_is_Some|].
    apply od_get_elem_of; [done|]. by destruct r.
Qed.

(** The promotion of a pass, for any budget: it returns, and it has labelled
    the first [budget Top_k] records of the ranking of the eligible records
    with their best documents, leaving every other label as it was. *)
Lemma promote_ranked (Top_k : Z) (P : list (string * Q)) (A : list record)
    (EL : gmap nat (list Z)) :
  well_keyed P A EL →
  ∃ st : Promotion,
    promote Top_k P A EL = Ok st
    ∧ count st = Z.of_nat (length (promoted Top_k A EL))
    ∧ label_attention st = map best_score (promoted Top_k A EL)
    ∧ label_prob st = map (prob_of P) (promoted Top_k A EL)
    ∧ (∀ (r : record) (idx i : nat), r ∈ promoted Top_k A EL → r.1 = mk_key idx i →
          label (labels st) idx i = Ok (best_doc_index r))
    ∧ (∀ idx i : nat, mk_key idx i ∉ map fst (promoted Top_k A EL) →
          label (labels st) idx i = label EL idx i).
Proof.
  intros Hwk. pose proof (well_keyed_records_ok _ _ _ Hwk) as Hok.
  unfold promote. rewrite promote_loop_spec by done. cbn [labels count].
  eexists. split; [done|]. cbn [labels count label_prob label_attention].
  fold (ranked A EL). fold (budget Top_k). fold (promoted Top_k A EL).
  split_and!; [lia|done|done|..].
  all: apply label_foldl_write.
  all: destruct Hok as [Hnd Hrs].
  all: try (apply (sublist_NoDup _ (map fst (evidence_scores A))); [done|];
            apply (fmap_sublist fst); unfold promoted, ranked;
            etrans; [apply sublist_take|apply sublist_filter]).
  all: intros r Hr; apply Hrs.
  all: unfold promoted, ranked in Hr.
  all: apply elem_of_take in Hr as (n & Hr & _); apply list_elem_of_lookup_2 in Hr.
  all: by apply list_elem_of_filter in Hr as [_ ?].
Qed.

(** With a budget of at least one, the number of promotions is the minimum
    of the budget and of the number of eligible records. *)
Lemma promote_count (Top_k : Z) (P : list (string * Q)) (A : list record)
    (EL : gmap nat (list Z)) :
  well_keyed P A EL → 1 <= Top_k →
  ∃ st : Promotion,
    promote Top_k P A EL = Ok st
    ∧ count st = Z.min Top_k (Z.of_nat (length (eligible A EL))).
Proof.
  intros Hwk HK. destruct (promote_ranked Top_k P A EL Hwk) as (st & Hst & Hcount & _).
  exists st. split; [done|]. rewrite Hcount. unfold promoted, budget, remaining.
  rewrite length_take, ranked_length. lia.
Qed.

(** ** The whole pass *)

Section pass_props.
Context `{Externals}.
Variable args : Args.
Variable corpus : Corpus.
Variable model : nat → ModelOut.

Lemma visit_labels (idx : nat) (b : Batch) (G G1 : Globals) (g : grid) :
  visit args corpus idx b G = Ok (g, G1) → Evidence_Label G1 = Evidence_Label G.
Proof.
  unfold visit. destruct (HasAnswer_Map G !! idx).
  - by intros [= _ <-].
  - destruct (has_answer_grid _ _ _ _ _ _ _) as [[g' calls]|e]; simpl; [|done].
    by intros [= _ <-].
Qed.

(** Phase 1 creates the missing rows and changes no label. *)
Lemma evidence_pass_labels (idx : nat) (data_loader : list Batch) (G G' : Globals)
    (P P' : list (string * Q)) (A A' : list record) :
  evidence_pass args corpus model idx data_loader G P A = Ok (G', P', A') →
  ∀ (idx' i' : nat) (v : Z),
    label (Evidence_Label G) idx' i' = Ok v → label (Evidence_Label G') idx' i' = Ok v.
Proof.
  revert idx G P A. induction data_loader as [|b rest IH]; intros idx G P A; simpl.
  - by intros [= <- _ _].
  - destruct (visit args corpus idx b G) as [[g G1]|e] eqn:Hvisit; simpl; [|done].
    pass_lists.
    destruct (accumulate _ _ _ _ _) as [[P1 A1]|e]; simpl; [|done].
    intros Hpass idx' i' v Hv. apply (IH _ _ _ _ Hpass). simpl.
    apply label_init_evidence. by rewrite (visit_labels _ _ _ _ _ Hvisit).
Qed.

Lemma label_init_evidence_row (EL : gmap nat (list Z)) (idx : nat) (b : Batch) (i : nat) :
  (∀ row, EL !! idx = Some row → (batch_size b <= length row)%nat) →
  (i < batch_size b)%nat →
  is_ok (label (init_evidence idx b EL) idx i) = true.
Proof.
  intros Hfit Hi. unfold init_evidence, label.
  destruct (EL !! idx) as [row|] eqn:Hrow.
  - rewrite Hrow. simpl. specialize (Hfit _ eq_refl).
    destruct (lookup_lt_is_Some_2 row i) as [v ->]; [lia|done].
  - rewrite lookup_insert_eq. simpl.
    destruct (lookup_lt_is_Some_2 (replicate (batch_size b) (-1)) i) as [v ->]; [|done].
    by rewrite length_replicate.
Qed.

Lemma evidence_pass_rows (idx : nat) (data_loader : list Batch) (G G' : Globals)
    (P P' : list (string * Q)) (A A' : list record) :
  evidence_pass args corpus model idx data_loader G P A = Ok (G', P', A') →
  rows_fit idx data_loader (Evidence_Label G) →
  ∀ (n : nat) (b : Batch) (i : nat),
    data_loader !! n = Some b → (i < batch_size b)%nat →
    is_ok (label (Evidence_Label G') (idx + n) i) = true.
Proof.
  revert idx G P A. induction data_loader as [|b rest IH]; intros idx G P A; simpl.
  - by intros _ _ n b i ?.
  - destruct (visit args corpus idx b G) as [[g G1]|e] eqn:Hvisit; simpl; [|done].
    pass_lists.
    destruct (accumulate _ _ _ _ _) as [[P1 A1]|e]; simpl; [|done].
    rewrite (visit_labels _ _ _ _ _ Hvisit).
    intros Hpass Hfit [|n] b' i Hb' Hi; simpl in Hb'.
    + injection Hb' as <-. rewrite Nat.add_0_r.
      pose proof (label_init_evidence_row (Evidence_Label G) idx b i) as Hrow.
      destruct (label (init_evidence idx b (Evidence_Label G)) idx i) as [v|] eqn:Hv.
      * by rewrite (evidence_pass_labels _ _ _ _ _ _ _ _ Hpass _ _ _ Hv).
      * exfalso. assert (is_ok (Raise (A := Z) e) = true); [|done].
        apply Hrow; [|done]. intros row Hr. apply (Hfit 0%nat b row); [done|].
        by rewrite Nat.add_0_r.
    + replace (idx + S n)%nat with (S idx + n)%nat by lia.
      eapply (IH _ _ _ _ Hpass); [|exact Hb'|exact Hi]. simpl.
      intros m bm row Hbm Hrow. apply (Hfit (S m) bm row); [done|].
      unfold init_evidence in Hrow.
      replace (idx + S m)%nat with (S idx + m)%nat by lia.
      destruct (Evidence_Label G !! idx); [done|].
      rewrite lookup_insert_ne in Hrow by lia. done.
Qed.

(** Phase 1 leaves the accumulators as phase 2 expects them. *)
Lemma evidence_pass_well_keyed (data_loader : list Batch) (G G' : Globals)
    (P : list (string * Q)) (A : list record) :
  evidence_pass args corpus model 0 data_loader G [] [] = Ok (G', P, A) →
  rows_fit 0 data_loader (Evidence_Label G) →
  well_keyed P A (Evidence_Label G').
Proof.
  intros Hpass Hfit.
  destruct (evidence_pass_ok _ _ _ _ _ _ _ _ _ _ _ Hpass)
    as (newP & newA & -> & -> & HkP & HkA & _).
  simpl. split.
  - rewrite HkA. apply pass_keys_NoDup.
  - intros r Hr. rewrite HkP.
    assert (r.1 ∈ pass_keys 0 data_loader) as Hk.
    { rewrite <- HkA. apply list_elem_of_fmap. by exists r. }
    split; [done|].
    apply pass_keys_elem in Hk as (n & i & b & Hb & Hi & Hk).
    exists n, i. split; [done|].
    by apply (evidence_pass_rows _ _ _ _ _ _ _ _ Hpass Hfit n b i).
Qed.

(** A pass whose phase 1 completes goes through phase 2 without error, and
    for a budget of at least one it labels as many examples as the minimum of
    the budget and of the number of eligible records. *)
Lemma update_evidence_count (data_loader : list Batch) (G G1 : Globals)
    (P : list (string * Q)) (A : list record) :
  evidence_pass args corpus model 0 data_loader G [] [] = Ok (G1, P, A) →
  rows_fit 0 data_loader (Evidence_Label G) →
  1 <= top_k args →
  ∃ (G' : Globals) (st : Promotion),
    update_evidence args corpus model data_loader G = Ok (G', st)
    ∧ Evidence_Label G' = labels st
    ∧ count st = Z.min (top_k args) (Z.of_nat (length (eligible A (Evidence_Label G1)))).
Proof.
  intros Hpass Hfit HK.
  pose proof (evidence_pass_well_keyed _ _ _ _ _ Hpass Hfit) as Hwk.
  destruct (promote_count _ _ _ _ Hwk HK) as (st & Hst & Hcount).
  unfold update_evidence. rewrite Hpass. simpl. rewrite Hst. simpl.
  by eexists _, _.
Qed.

(** The labels that are set when a pass starts are the same when it ends. *)
Lemma update_evidence_monotone (data_loader : list Batch) (G G' : Globals)
    (st : Promotion) :
  update_evidence args corpus model data_loader G = Ok (G', st) →
  ∀ (idx i : nat) (v : Z),
    label (Evidence_Label G) idx i = Ok v → v ≠ -1 →
    label (Evidence_Label G') idx i = Ok v.
Proof.
  unfold update_evidence.
  destruct (evidence_pass _ _ _ _ _ _ _ _) as [[[G1 P] A]|e] eqn:Hpass; simpl; [|done].
  destruct (promote _ _ _ _) as [st1|e] eqn:Hprom; simpl; [|done].
  intros [= <- <-] idx i v Hv Hne. simpl.
  unfold promote in Hprom.
  apply (promote_loop_monotone _ _ _ _ _ _ Hprom); [|done]. simpl.
  by apply (evidence_pass_labels _ _ _ _ _ _ _ _ Hpass).
Qed.

End pass_props.

(** ** The claims on the promotion *)

(** With a budget of at least one, the promoted records are the [Top_k]
    first of the ranking of the eligible records (all of them when there are
    fewer), in the order of decreasing score with the ties in the order of
    the visits. *)
Lemma promote_top_k (Top_k : Z) (P : list (string * Q)) (A : list record)
    (EL : gmap nat (list Z)) :
  well_keyed P A EL → 1 <= Top_k →
  ∃ st : Promotion,
    promote Top_k P A EL = Ok st
    ∧ (∀ (r : record) (idx i : nat),
          r ∈ take (Z.to_nat Top_k) (ranked A EL) → r.1 = mk_key idx i →
          label (labels st) idx i = Ok (best_doc_index r))
    ∧ (∀ idx i : nat, mk_key idx i ∉ map fst (take (Z.to_nat Top_k) (ranked A EL)) →
          label (labels st) idx i = label EL idx i)
    ∧ label_attention st = map best_score (take (Z.to_nat Top_k) (ranked A EL))
    ∧ StronglySorted score_ge (evidence_scores A)
    ∧ (∀ q : Q, List.filter (same_score q) (evidence_scores A)
                = List.filter (same_score q) (filter (fun r => best_doc_index r ≠ -1) A)).
Proof.
  intros Hwk HK.
  destruct (promote_ranked Top_k P A EL Hwk) as (st & Hst & _ & Hatt & _ & Hin & Hout).
  unfold promoted, budget, remaining in *.
  replace (Z.to_nat (Z.max 1 (Top_k - 0))) with (Z.to_nat Top_k) in * by lia.
  exists st. split_and!; [done|done|done|done|..].
  - apply sorted_desc_sorted.
  - intros q. apply sorted_desc_stable.
Qed.

(** The example of the ranking: scores 0.9, 0.5 and 0.7 and a budget of two
    label the first and the third question, not the second. *)
Example promote_top_2 :
  ∃ st : Promotion,
    promote 2 run_Probability run_Attention_Weight run_labels = Ok st
    ∧ labels st = {[ 0%nat := [2; -1; 1] ]}
    ∧ count st = 2
    ∧ label_attention st = [9 # 10; 7 # 10].
Proof. eexists. split; [vm_compute; reflexivity|]. by vm_compute. Qed.

(** C1. The budget is not respected when it is zero: on the run of three
    eligible records with [--top_k 0], [update_evidence] labels one example,
    where the minimum of the budget and of the number of eligible records is
    zero. The counter is compared with [Top_k] only after a promotion. *)
Theorem update_evidence_zero_budget :
  ∃ (G1 G' : Globals) (st : Promotion),
    evidence_pass (H := toy_externals) (args_with_top_k 0) run_corpus run_model
      0 run_loader fresh_globals [] []
      = Ok (G1, run_Probability, run_Attention_Weight)
    ∧ Evidence_Label G1 = run_labels
    ∧ length (eligible run_Attention_Weight run_labels) = 3%nat
    ∧ update_evidence (H := toy_externals) (args_with_top_k 0) run_corpus run_model
        run_loader fresh_globals = Ok (G', st)
    ∧ count st = 1
    ∧ Evidence_Label G' = {[ 0%nat := [2; -1; -1] ]}
    ∧ Z.min (top_k (args_with_top_k 0))
            (Z.of_nat (length (eligible run_Attention_Weight run_labels))) = 0.
Proof.
  eexists _, _, _. split; [vm_compute; reflexivity|].
  split; [by vm_compute|]. split; [by vm_compute|].
  split; [vm_compute; reflexivity|]. by vm_compute.
Qed.

(** C2. The promoted set is not the [Top_k] highest-scoring records when
    the budget is zero: on the scores 0.9, 0.5 and 0.7 with [Top_k = 0] the
    promotion labels the question of score 0.9, where the zero first records
    of the ranking are none.  (The ranking itself is as claimed, see
    [promote_top_k].) *)
Theorem promote_ranking_zero_budget :
  ∃ st : Promotion,
    promote 0 run_Probability run_Attention_Weight run_labels = Ok st
    ∧ labels st = {[ 0%nat := [2; -1; -1] ]}
    ∧ label_attention st = [9 # 10]
    ∧ map best_score (ranked run_Attention_Weight run_labels) = [9 # 10; 7 # 10; 5 # 10]
    ∧ take (Z.to_nat 0) (ranked run_Attention_Weight run_labels) = [].
Proof. eexists. split; [vm_compute; reflexivity|]. by vm_compute. Qed.

Section monotone_props.
Context `{Externals}.

(** C3 (amended). A label that is not -1 keeps its value through the pass:
    through the whole of [update_evidence] for the labels set before it, and
    from any state of the promotion loop on for those the loop has set.  A
    record whose example is already labelled is passed over by the loop,
    which continues from the same state (same counter, same labels) and
    raises nothing for it. *)
Theorem evidence_labels_monotone :
  (∀ (args : Args) (corpus : Corpus) (model : nat → ModelOut)
     (data_loader : list Batch) (G G' : Globals) (st : Promotion),
      update_evidence args corpus model data_loader G = Ok (G', st) →
      ∀ (idx i : nat) (v : Z),
        label (Evidence_Label G) idx i = Ok v → v ≠ -1 →
        label (Evidence_Label G') idx i = Ok v)
  ∧ (∀ (Top_k : Z) (P : list (string * Q)) (A rs : list record) (st st' : Promotion),
      promote_loop Top_k P A rs st = Ok st' →
      ∀ (idx i : nat) (v : Z),
        label (labels st) idx i = Ok v → v ≠ -1 → label (labels st') idx i = Ok v)
  ∧ (∀ (Top_k : Z) (P : list (string * Q)) (A rs : list record) (st : Promotion)
       (key : string) (value : Q * Z) (idx i : nat) (l : Z),
      parse_key key = Ok (idx, i) →
      label (labels st) idx i = Ok l → l ≠ -1 →
      promote_loop Top_k P A ((key, value) :: rs) st = promote_loop Top_k P A rs st).
Proof.
  split_and!.
  - intros args corpus model. apply update_evidence_monotone.
  - apply promote_loop_monotone.
  - intros. by eapply promote_loop_skip.
Qed.

End monotone_props.

(** C3, as stated, fails: the promotion over a record whose example is
    already labelled does not fail.  The first question is labelled 1 and
    the best record of the pass is its own; the pass returns normally, keeps
    the label and labels the next records. *)
Lemma promote_labelled_does_not_fail :
  label labelled_store 0 0 = Ok 1
  ∧ head (evidence_scores run_Attention_Weight) = Some ("0|0", (9 # 10, 2))
  ∧ ∃ st : Promotion,
      promote 2 run_Probability run_Attention_Weight labelled_store = Ok st
      ∧ labels st = {[ 0%nat := [1; 0; 1] ]}
      ∧ count st = 2.
Proof.
  split; [by vm_compute|]. split; [by vm_compute|].
  eexists. split; [vm_compute; reflexivity|]. by vm_compute.
Qed.

Lemma evidence_labels_monotone_witness :
  label {[ 0%nat := [1; 0; 1] ]} 0 0 = Ok 1.
Proof.
  refine (proj1 (proj2 (evidence_labels_monotone (H := toy_externals)))
            2 run_Probability run_Attention_Weight
            (evidence_scores run_Attention_Weight)
            {| labels := labelled_store; count := 0; label_prob := []; label_attention := [] |}
            {| labels := {[ 0%nat := [1; 0; 1] ]}; count := 2;
               label_prob := [1 # 4; 1 # 3]; label_attention := [7 # 10; 5 # 10] |}
            _ 0%nat 0%nat 1 _ _).
  - by vm_compute.
  - by vm_compute.
  - done.
Defined.

(** ** The HasAnswer cache *)

Section cache_props.
Context `{Externals}.
Variable args : Args.
Variable corpus : Corpus.

Lemma has_answer_row_ok (idx : nat) (b : Batch) (idx_doc : nat) (rng : list nat)
    (acc row : list cell) (calls calls' : list call) :
  has_answer_row args corpus idx b idx_doc rng acc calls = Ok (row, calls') →
  ∃ new : list cell,
    row = acc ++ new
    ∧ Forall2 (fun i c => has_answer_cell args corpus b idx_doc i = Ok c) rng new
    ∧ calls' = calls ++ map (fun i => (idx, idx_doc, i)) rng.
Proof.
  revert acc calls. induction rng as [|i rng IH]; intros acc calls; simpl.
  - intros [= <- <-]. exists []. by rewrite !app_nil_r.
  - destruct (has_answer_cell args corpus b idx_doc i) as [c|e] eqn:Hc; simpl; [|done].
    intros Hrow. destruct (IH _ _ Hrow) as (new & -> & Hnew & ->).
    exists (c :: new). rewrite <- !app_assoc. split_and!; [done| |done].
    by constructor.
Qed.

Lemma has_answer_grid_ok (idx : nat) (b : Batch) (ds : list nat)
    (acc g : grid) (calls calls' : list call) :
  has_answer_grid args corpus idx b ds acc calls = Ok (g, calls') →
  ∃ new : grid,
    g = acc ++ new
    ∧ Forall2 (fun idx_doc row =>
                 Forall2 (fun i c => has_answer_cell args corpus b idx_doc i = Ok c)
                         (seq 0 (batch_size b)) row) ds new
    ∧ calls' = calls ++ flat_map (fun idx_doc =>
                 map (fun i => (idx, idx_doc, i)) (seq 0 (batch_size b))) ds.
Proof.
  revert acc calls. induction ds as [|d ds IH]; intros acc calls; simpl.
  - intros [= <- <-]. exists []. by rewrite !app_nil_r.
  - destruct (has_answer_row _ _ _ _ _ _ _ _) as [[row calls1]|e] eqn:Hrow; simpl; [|done].
    intros Hgrid. destruct (IH _ _ Hgrid) as (new & -> & Hnew & ->).
    destruct (has_answer_row_ok _ _ _ _ _ _ _ _ Hrow) as (cs & -> & Hcs & ->).
    exists (cs :: new). rewrite <- !app_assoc. split_and!; [done| |done].
    by constructor.
Qed.

Lemma cells_NoDup (idx : nat) (b : Batch) : NoDup (cells (num_docs corpus) idx b).
Proof.
  unfold cells. generalize (num_docs corpus) as D. intros D.
  generalize 0%nat at 2 as d0. induction D as [|D IH]; intros d0; simpl; [constructor|].
  apply NoDup_app. split_and!; [|  |apply IH].
  - apply NoDup_fmap_2; [|apply NoDup_seq]. by intros i i' [= ->].
  - intros c Hc Hc'. apply list_elem_of_fmap in Hc as (i & -> & _).
    apply list_elem_of_In, in_flat_map in Hc' as (d & Hd & Hc').
    apply in_seq in Hd. apply in_map_iff in Hc' as (i' & [= <- _] & _). lia.
Qed.

Lemma cells_idx (idx : nat) (b : Batch) (c : call) :
  c ∈ cells (num_docs corpus) idx b → c.1.1 = idx.
Proof.
  unfold cells. intros Hc.
  apply list_elem_of_In, in_flat_map in Hc as (d & _ & Hc).
  by apply in_map_iff in Hc as (i & <- & _).
Qed.

Lemma cells_elem (idx : nat) (b : Batch) (d i : nat) :
  (idx, d, i) ∈ cells (num_docs corpus) idx b
  ↔ (d < num_docs corpus)%nat ∧ (i < batch_size b)%nat.
Proof.
  unfold cells. rewrite list_elem_of_In, in_flat_map. split.
  - intros (d' & Hd & Hc). apply in_seq in Hd.
    apply in_map_iff in Hc as (i' & [= <- <-] & Hi). apply in_seq in Hi. lia.
  - intros [Hd Hi]. exists d. split; [apply in_seq; lia|].
    apply in_map_iff. exists i. split; [done|]. apply in_seq. lia.
Qed.

(** A first visit computes the grid, one call of the matcher for each cell,
    and stores it. *)
Lemma visit_miss (idx : nat) (b : Batch) (G G' : Globals) (g : grid) :
  HasAnswer_Map G !! idx = None →
  visit args corpus idx b G = Ok (g, G') →
  HasAnswer_Map G' = <[idx := g]> (HasAnswer_Map G)
  ∧ matcher_calls G' = matcher_calls G ++ cells (num_docs corpus) idx b
  ∧ Forall2 (fun idx_doc row =>
               Forall2 (fun i c => has_answer_cell args corpus b idx_doc i = Ok c)
                       (seq 0 (batch_size b)) row)
            (seq 0 (num_docs corpus)) g.
Proof.
  intros Hmiss. unfold visit. rewrite Hmiss.
  destruct (has_answer_grid _ _ _ _ _ _ _) as [[g' calls]|e] eqn:Hgrid; simpl; [|done].
  intros [= <- <-]. simpl.
  destruct (has_answer_grid_ok _ _ _ _ _ _ _ Hgrid) as (new & -> & Hnew & ->).
  done.
Qed.

(** A visit of a cached batch returns the stored grid; nothing changes. *)
Lemma visit_hit (idx : nat) (b : Batch) (G : Globals) (g : grid) :
  HasAnswer_Map G !! idx = Some g → visit args corpus idx b G = Ok (g, G).
Proof. intros Hhit. unfold visit. by rewrite Hhit. Qed.

Lemma visit_stored (idx : nat) (b : Batch) (G G' : Globals) (g : grid) :
  visit args corpus idx b G = Ok (g, G') → HasAnswer_Map G' !! idx = Some g.
Proof.
  destruct (HasAnswer_Map G !! idx) as [g0|] eqn:Hidx.
  - rewrite (visit_hit _ _ _ _ Hidx). by intros [= <- <-].
  - intros Hvisit. destruct (visit_miss _ _ _ _ _ Hidx Hvisit) as (-> & _).
    apply lookup_insert_eq.
Qed.

Lemma visit_keeps (idx : nat) (b : Batch) (G G' : Globals) (g : grid) :
  visit args corpus idx b G = Ok (g, G') →
  ∀ (j : nat) (gj : grid), HasAnswer_Map G !! j = Some gj → HasAnswer_Map G' !! j = Some gj.
Proof.
  destruct (HasAnswer_Map G !! idx) as [g0|] eqn:Hidx.
  - rewrite (visit_hit _ _ _ _ Hidx). by intros [= <- <-].
  - intros Hvisit j gj Hj. destruct (visit_miss _ _ _ _ _ Hidx Hvisit) as (-> & _).
    rewrite lookup_insert_ne; [done|]. intros <-. congruence.
Qed.

Lemma visit_inv (idx : nat) (b : Batch) (G G' : Globals) (g : grid) :
  visit args corpus idx b G = Ok (g, G') → cache_inv G → cache_inv G'.
Proof.
  destruct (HasAnswer_Map G !! idx) as [g0|] eqn:Hidx.
  - rewrite (visit_hit _ _ _ _ Hidx). by intros [= <- <-].
  - intros Hvisit [Hnd Hdom].
    destruct (visit_miss _ _ _ _ _ Hidx Hvisit) as (Hmap & Hcalls & _).
    unfold cache_inv. rewrite Hmap, Hcalls. split.
    + apply NoDup_app. split_and!; [done| |apply cells_NoDup].
      intros c Hc Hc'. apply cells_idx in Hc'. apply Hdom in Hc as [gc Hgc].
      rewrite Hc' in Hgc. congruence.
    + intros c [Hc|Hc]%elem_of_app.
      * destruct (Hdom c Hc) as [gc Hgc].
        destruct (decide (idx = c.1.1)) as [->|Hne]; [congruence|].
        rewrite lookup_insert_ne by done. by eexists.
      * apply cells_idx in Hc as ->. rewrite lookup_insert_eq. by eexists.
Qed.

Lemma visits_inv (vs : list (nat * Batch)) (G G' : Globals) (gs : list grid) :
  visits args corpus vs G = Ok (gs, G') →
  (cache_inv G → cache_inv G')
  ∧ (∀ (j : nat) (gj : grid),
        HasAnswer_Map G !! j = Some gj → HasAnswer_Map G' !! j = Some gj)
  ∧ (∀ (k idx : nat) (b : Batch) (g : grid),
        vs !! k = Some (idx, b) → gs !! k = Some g → HasAnswer_Map G' !! idx = Some g).
Proof.
  revert G gs. induction vs as [|[idx b] vs IH]; intros G gs; simpl.
  - intros [= <- <-]. split_and!; [done|done|]. by intros k idx b g ?.
  - destruct (visit args corpus idx b G) as [[g G1]|e] eqn:Hvisit; simpl; [|done].
    destruct (visits args corpus vs G1) as [[gs1 G2]|e] eqn:Hrest; simpl; [|done].
    intros [= <- <-]. destruct (IH _ _ Hrest) as (Hinv & Hkeep & Hgrids).
    split_and!.
    + intros HG. by apply Hinv, (visit_inv _ _ _ _ _ Hvisit).
    + intros j gj Hj. by apply Hkeep, (visit_keeps _ _ _ _ _ Hvisit).
    + intros [|k] idx' b' g'; simpl.
      * intros [= <- <-] [= <-]. by apply Hkeep, (visit_stored _ _ _ _ _ Hvisit).
      * apply Hgrids.
Qed.

(** C9. Over any sequence of visits made from the start of the process, in
    one pass or in several, no cell is handed twice to the matcher, and two
    visits of the same batch index return the same grid.  The first visit of
    an index calls the matcher once for each of the [num_docs * batch_size]
    cells, fills the grid with the results and stores it under the index;
    a visit of an index that is stored returns the stored grid and leaves
    the cache and the log of the calls as they are. *)
Theorem has_answer_cache_once :
  (∀ (vs : list (nat * Batch)) (gs : list grid) (G' : Globals),
      visits args corpus vs fresh_globals = Ok (gs, G') →
      NoDup (matcher_calls G')
      ∧ ∀ (k1 k2 idx : nat) (b1 b2 : Batch) (g1 g2 : grid),
          vs !! k1 = Some (idx, b1) → vs !! k2 = Some (idx, b2) →
          gs !! k1 = Some g1 → gs !! k2 = Some g2 → g1 = g2)
  ∧ (∀ (idx : nat) (b : Batch) (G G' : Globals) (g : grid),
      HasAnswer_Map G !! idx = None →
      visit args corpus idx b G = Ok (g, G') →
      HasAnswer_Map G' = <[idx := g]> (HasAnswer_Map G)
      ∧ matcher_calls G' = matcher_calls G ++ cells (num_docs corpus) idx b
      ∧ NoDup (cells (num_docs corpus) idx b)
      ∧ (∀ d i : nat, (idx, d, i) ∈ cells (num_docs corpus) idx b
                      ↔ (d < num_docs corpus)%nat ∧ (i < batch_size b)%nat)
      ∧ Forall2 (fun idx_doc row =>
                   Forall2 (fun i c => has_answer_cell args corpus b idx_doc i = Ok c)
                           (seq 0 (batch_size b)) row)
                (seq 0 (num_docs corpus)) g)
  ∧ (∀ (idx : nat) (b b' : Batch) (G G1 : Globals) (g : grid),
      visit args corpus idx b G = Ok (g, G1) →
      visit args corpus idx b' G1 = Ok (g, G1)).
Proof.
  split_and!.
  - intros vs gs G' Hvs. destruct (visits_inv _ _ _ _ Hvs) as (Hinv & _ & Hgrids).
    split.
    + apply Hinv. split; [constructor|]. by intros c ?%elem_of_nil.
    + intros k1 k2 idx b1 b2 g1 g2 Hk1 Hk2 Hg1 Hg2.
      pose proof (Hgrids _ _ _ _ Hk1 Hg1) as H1.
      pose proof (Hgrids _ _ _ _ Hk2 Hg2) as H2. congruence.
  - intros idx b G G' g Hmiss Hvisit.
    destruct (visit_miss _ _ _ _ _ Hmiss Hvisit) as (Hmap & Hcalls & Hgrid).
    split_and!; [done|done|apply cells_NoDup|apply cells_elem|done].
  - intros idx b b' G G1 g Hvisit. apply visit_hit.
    by apply (visit_stored _ _ _ _ _ Hvisit).
Qed.

(** The loop of [update_evidence] visits the cache in the same way. *)
Lemma evidence_pass_cache (model : nat → ModelOut) (idx : nat)
    (data_loader : list Batch) (G G' : Globals)
    (P P' : list (string * Q)) (A A' : list record) :
  evidence_pass args corpus model idx data_loader G P A = Ok (G', P', A') →
  (cache_inv G → cache_inv G')
  ∧ ∀ (j : nat) (gj : grid),
      HasAnswer_Map G !! j = Some gj → HasAnswer_Map G' !! j = Some gj.
Proof.
  revert idx G P A. induction data_loader as [|b rest IH]; intros idx G P A; simpl.
  - by intros [= <- _ _].
  - destruct (visit args corpus idx b G) as [[g G1]|e] eqn:Hvisit; simpl; [|done].
    pass_lists.
    destruct (accumulate _ _ _ _ _) as [[P1 A1]|e]; simpl; [|done].
    intros Hpass. destruct (IH _ _ _ _ Hpass) as [Hinv Hkeep]. split.
    + intros HG. apply Hinv. by apply (visit_inv _ _ _ _ _ Hvisit).
    + intros j gj Hj. apply Hkeep. simpl. by apply (visit_keeps _ _ _ _ _ Hvisit).
Qed.

End cache_props.

(** Two visits of one batch: the second returns the grid of the first and
    calls the matcher for no cell. *)
Lemma has_answer_cache_once_witness :
  match visits (H := toy_externals) searchqa_args run_corpus
          [(0%nat, one_question); (0%nat, one_question)] fresh_globals with
  | Ok (gs, G') =>
      NoDup (matcher_calls G')
      ∧ gs = [[[(true, [(1, 1)])]; [(true, [(1, 1)])]; [(true, [(1, 1)])]];
              [[(true, [(1, 1)])]; [(true, [(1, 1)])]; [(true, [(1, 1)])]]]
      ∧ matcher_calls G' = [(0, 0, 0); (0, 1, 0); (0, 2, 0)]%nat
  | Raise _ => False
  end.
Proof.
  destruct (visits _ _ _ _) as [[gs G']|e] eqn:Hvs.
  - split.
    + exact (proj1 (proj1 (has_answer_cache_once (H := toy_externals)
                             searchqa_args run_corpus) _ _ _ Hvs)).
    + vm_compute in Hvs. by injection Hvs as <- <-.
  - vm_compute in Hvs. discriminate Hvs.
Defined.

(** ** The vote *)

Lemma od_set_NoDup {V} (k : string) (v : V) (d : list (string * V)) :
  NoDup (OD.keys d) → NoDup (OD.keys (OD.set k v d)).
Proof.
  intros Hnd. rewrite od_keys_set. destruct (OD.mem k d) eqn:Hm; [done|].
  apply od_mem_false in Hm. apply NoDup_app. split_and!; [done| |apply NoDup_singleton].
  intros x Hx ->%list_elem_of_singleton. done.
Qed.

Section odict_votes.
Context `{N : Number}.
Implicit Types (sc : list (string * num)) (key : string).

Lemma ensure_get_eq key sc :
  OD.get key (ensure key sc) = Some (default num_zero (OD.get key sc)).
Proof.
  unfold ensure, OD.mem. destruct (OD.get key sc) as [v|] eqn:Hget.
  - rewrite bool_decide_eq_true_2 by by eexists. by rewrite Hget.
  - rewrite bool_decide_eq_false_2 by by intros [? ?]. by rewrite od_get_set_eq.
Qed.

Lemma ensure_get_ne key key' sc :
  key ≠ key' → OD.get key' (ensure key sc) = OD.get key' sc.
Proof.
  intros Hne. unfold ensure. destruct (OD.mem key sc); [done|].
  by apply od_get_set_ne.
Qed.



End odict_votes.

Section vote_props.
Context `{Externals} `{N : Number}.
Variable doc_text : list string.
Variable p : Prediction.
Variable scores_doc_num : list (list num).
Variable idx_doc i : nat.

Local Abbreviation vote' := (vote doc_text p scores_doc_num idx_doc i).
Local Abbreviation outcome' := (outcome_of doc_text p scores_doc_num idx_doc i).

(** The value under each key after a candidate. *)
Lemma vote_get (sc : list (string * num)) (k : nat) (key : string) :
  OD.get key (vote' sc k) = tally_step key (OD.get key sc) (outcome' k).
Proof.
  unfold vote, outcome_of.
  destruct (_ ≫= _) as [tokens|e]; [|done].
  set (prediction := str_lower (Py.join " " tokens)).
  cbn zeta. rewrite ensure_get_eq. simpl.
  destruct (at2 (pred_score p) i k) as [v|e]; simpl.
  - destruct (at2 scores_doc_num i idx_doc) as [w|e]; simpl.
    + destruct (decide (prediction = key)) as [<-|Hne].
      * by rewrite od_get_set_eq.
      * by rewrite od_get_set_ne, ensure_get_ne.
    + destruct (decide (prediction = key)) as [<-|Hne].
      * by rewrite ensure_get_eq.
      * by rewrite ensure_get_ne.
  - destruct (decide (prediction = key)) as [<-|Hne].
    + by rewrite ensure_get_eq.
    + by rewrite ensure_get_ne.
Qed.





(** A span with a position past the end of the document raises. *)
Lemma span_tokens_past_end (js : list Z) (j : Z) :
  j ∈ js → Z.of_nat (length doc_text) <= j →
  ∃ e : exn, span_tokens doc_text js = Raise e.
Proof.
  intros Hj Hpast. induction js as [|j0 js IH]; [by apply elem_of_nil in Hj|].
  simpl. destruct (decide (j0 = j)) as [->|Hne].
  - unfold Py.index.
    replace (0 <=? j) with true by lia.
    replace (j <? Z.of_nat (length doc_text)) with false by lia. simpl.
    replace (j <? 0) with false by lia. rewrite andb_false_r. by eexists.
  - apply elem_of_cons in Hj as [?|Hj]; [congruence|].
    destruct (IH Hj) as [e ->].
    destruct (Py.index doc_text j0); simpl; by eexists.
Qed.

Lemma vote_past_end (sc : list (string * num)) (k : nat) (s e : Z) :
  at2 (pred_s p) i k = Ok s → at2 (pred_e p) i k = Ok e →
  (∃ j : Z, s <= j <= e ∧ Z.of_nat (length doc_text) <= j) →
  outcome' k = Skip ∧ vote' sc k = sc.
Proof.
  intros Hs He (j & Hj & Hpast). unfold vote, outcome_of. rewrite Hs, He. simpl.
  destruct (span_tokens_past_end (Py.range s (e + 1)) j) as [x ->]; [|done|done].
  apply elem_of_range. lia.
Qed.

(** A span that ends before it starts has no position: nothing is read
    from the document. *)
Lemma range_reversed (s e : Z) : e < s → Py.range s (e + 1) = [].
Proof.
  intros Hlt. destruct (Py.range s (e + 1)) as [|j js] eqn:Hr; [done|].
  assert (j ∈ Py.range s (e + 1)) as Hj by (rewrite Hr; left).
  apply elem_of_range in Hj. lia.
Qed.

End vote_props.

(** *** The choice of the answer *)

Section pick_props.
Context `{N : Number}.







(** No vote above zero: the answer is the empty string. *)
Lemma pick_best_nothing (sc : list (string * num)) :
  (∀ (key : string) (v : num), OD.get key sc = Some v → num_gt v num_zero = false) →
  pick_best sc = "".
Proof.
  intros Hsc. unfold pick_best.
  assert (∀ l, (∀ k, k ∈ l → k ∈ OD.keys sc) →
               foldl (better sc) (num_zero, "") l = (num_zero, "")) as ->; [|done|done].
  induction l as [|k l IH]; intros Hl; [done|].
  cbn [foldl]. unfold better at 2. cbn [fst].
  destruct (proj2 (od_get_is_Some k sc)) as [v Hk]; [apply Hl; left|].
  rewrite Hk. simpl. rewrite (Hsc _ _ Hk).
  apply IH. intros k' Hk'. apply Hl. by right.
Qed.

End pick_props.

(** *** The votes of a batch *)

Section aggregate_props.
Context `{Externals} `{N : Number}.
Variable args : Args.
Variable corpus : Corpus.



Section one_batch.
Variable predict : nat → Prediction.
Variable scores_doc_num : list (list num).



End one_batch.

(** The answers of the last loop of a batch, example by example. *)
Lemma picks_ok (b : Batch) (scores : list (list (string * num))) (rng : list nat)
    (ps : list (string * list pyans)) :
  picks corpus b scores rng = Ok ps →
  Forall2 (fun (i : nat) (x : string * list pyans) =>
             ∃ (sc : list (string * num)) (q : nat) (ex : Example),
               scores !! i = Some sc ∧ ex_id b !! i = Some q
               ∧ exs_with_doc corpus !! q = Some ex
               ∧ x = (pick_best sc, answer ex)) rng ps.
Proof.
  revert ps. induction rng as [|i rng IH]; intros ps; cbn [picks].
  - intros [= <-]. constructor.
  - destruct (scores !! i) as [sc|] eqn:Hsc; cbn [of_option mbind result_bind]; [|done].
    destruct (ex_id b !! i) as [q|] eqn:Hq; cbn [of_option mbind result_bind]; [|done].
    destruct (exs_with_doc corpus !! q) as [ex|] eqn:Hex;
      cbn [of_option mbind result_bind]; [|done].
    destruct (picks corpus b scores rng) as [ps'|x]; cbn [mbind result_bind]; [|done].
    intros [= <-]. constructor; [|by apply IH].
    by exists sc, q, ex.
Qed.

Variable predict : nat → nat → Prediction.
Variable scores_doc_num : nat → list (list num).
Variable sort_desc : list num → list nat.

(** The dictionaries of a batch and the answers chosen in them. *)
Lemma validate_batch_votes (idx : nat) (b : Batch) (aa bb aa' bb' : list Z)
    (ps : list (string * list pyans)) :
  validate_batch args corpus predict scores_doc_num sort_desc idx b aa bb = Ok (ps, aa', bb') →
  ∃ scores : list (list (string * num)),
    votes_of_batch args corpus (predict idx) (scores_doc_num idx) b
      (seq 0 (num_docs corpus)) (replicate (batch_size b) []) = Ok scores
    ∧ picks corpus b scores (seq 0 (batch_size b)) = Ok ps.
Proof.
  unfold validate_batch.
  destruct (votes_of_batch _ _ _ _ _ _ _) as [scores|e] eqn:Hvotes;
    cbn [mbind result_bind]; [|done].
  destruct (rank_batch _ _ _ _ _ _ _ _ _) as [[aa1 bb1]|e]; cbn [mbind result_bind]; [|done].
  destruct (picks _ _ _) as [ps1|e] eqn:Hpicks; cbn [mbind result_bind]; [|done].
  intros [= <- <- <-]. by exists scores.
Qed.


End aggregate_props.



(** C8 (amended). The body of the loop over the candidates never raises.
    A candidate whose span, from its start up to its end, holds a position
    past the end of its document is skipped: the body returns the
    dictionary as it was, with no key and no vote for the candidate, and the
    loop goes on with the next candidates from the same dictionary.  A
    candidate whose span ends before it starts is not skipped, however far
    its positions are: no position is read, and the candidate votes under
    the lower-cased empty string. *)
Theorem out_of_range_span_skipped `{Externals} `{N : Number}
    (doc_text : list string) (p : Prediction)
    (scores_doc_num : list (list num)) (idx_doc i k : nat) (s e : Z)
    (sc : list (string * num)) (ks : list nat) :
  at2 (pred_s p) i k = Ok s → at2 (pred_e p) i k = Ok e →
  ((∃ j : Z, s <= j <= e ∧ Z.of_nat (length doc_text) <= j) →
     vote doc_text p scores_doc_num idx_doc i sc k = sc
     ∧ outcome_of doc_text p scores_doc_num idx_doc i k = Skip
     ∧ foldl (vote doc_text p scores_doc_num idx_doc i) sc (k :: ks)
       = foldl (vote doc_text p scores_doc_num idx_doc i) sc ks)
  ∧ (e < s →
     ∀ v w : num,
       at2 (pred_score p) i k = Ok v → at2 scores_doc_num i idx_doc = Ok w →
       outcome_of doc_text p scores_doc_num idx_doc i k
       = Vote (str_lower "") (num_mul v w)
       ∧ OD.get (str_lower "") (vote doc_text p scores_doc_num idx_doc i sc k)
         = Some (num_add (default num_zero (OD.get (str_lower "") sc)) (num_mul v w))).
Proof.
  intros Hs He. split.
  - intros Hpast.
    destruct (vote_past_end doc_text p scores_doc_num idx_doc i sc k s e Hs He Hpast)
      as [Hskip Hvote].
    cbn [foldl]. by rewrite Hvote.
  - intros Hrev v w Hv Hw.
    assert (outcome_of doc_text p scores_doc_num idx_doc i k
            = Vote (str_lower "") (num_mul v w)) as Hout.
    { unfold outcome_of. rewrite Hs, He. cbn [mbind result_bind].
      rewrite range_reversed by done. cbn [span_tokens]. by rewrite Hv, Hw. }
    split; [done|]. rewrite vote_get, Hout. simpl. by rewrite decide_True.
Qed.

(** The span (50, 52) against a document of ten tokens is skipped; the
    span (50, 40) against the same document votes under the empty string. *)
Lemma out_of_range_span_skipped_witness :
  (vote (H := toy_externals) (N := Q_number)
     (doc_or_nil vote_corpus one_question 0 0) (vote_predict 0) vote_selection 0 0
     [("lyon", 5 # 10)] 0 = [("lyon", 5 # 10)]
   ∧ outcome_of (H := toy_externals) (N := Q_number)
       (doc_or_nil vote_corpus one_question 0 0) (vote_predict 0)
       vote_selection 0 0 0 = Skip
   ∧ foldl (vote (H := toy_externals) (N := Q_number)
              (doc_or_nil vote_corpus one_question 0 0) (vote_predict 0)
              vote_selection 0 0) [("lyon", 5 # 10)] [0; 1]%nat
     = foldl (vote (H := toy_externals) (N := Q_number)
                (doc_or_nil vote_corpus one_question 0 0) (vote_predict 0)
                vote_selection 0 0) [("lyon", 5 # 10)] [1%nat])
  ∧ (outcome_of (H := toy_externals) (N := Q_number)
       (doc_or_nil vote_corpus one_question 0 0) (reversed_predict 0 0)
       vote_selection 0 0 0 = @Vote Q_number "" ((9 # 10) * (1 # 1))%Q
     ∧ OD.get "" (vote (H := toy_externals) (N := Q_number)
                    (doc_or_nil vote_corpus one_question 0 0) (reversed_predict 0 0)
                    vote_selection 0 0 [("lyon", 5 # 10)] 0)
       = Some (0 + (9 # 10) * (1 # 1))%Q).
Proof.
  split.
  - apply (proj1 (out_of_range_span_skipped (H := toy_externals) (N := Q_number)
                    (doc_or_nil vote_corpus one_question 0 0) (vote_predict 0)
                    vote_selection 0 0 0 50 52 [("lyon", 5 # 10)] [1%nat] eq_refl eq_refl)).
    exists 50. simpl. lia.
  - apply (proj2 (out_of_range_span_skipped (H := toy_externals) (N := Q_number)
                    (doc_or_nil vote_corpus one_question 0 0) (reversed_predict 0 0)
                    vote_selection 0 0 0 50 40 [("lyon", 5 # 10)] [] eq_refl eq_refl));
      [lia|reflexivity|reflexivity].
Defined.

(** C8, as stated, fails for a span whose positions are past the end of
    the document when its end comes before its start.  The candidates of
    the first slot are the span (50, 40), with the score 0.9, and [paris],
    with the score 0.8, in a document of ten tokens: the first candidate is
    not skipped, it votes 0.9 under the empty string, which is the answer of
    the validation; without this candidate the answer is [paris]. *)
Lemma reversed_span_votes :
  votes_of_batch (H := toy_externals) (N := Q_number) searchqa_args ten_corpus
    (reversed_predict 0) (ten_selection 0) one_question (seq 0 10) [[]]
  = Ok [[("", 9 # 10); ("paris", 8 # 10)]]
  ∧ match validate_unofficial_with_doc (H := toy_externals) (N := Q_number) searchqa_args
            ten_corpus reversed_predict ten_selection ten_sort "dev" [one_question] with
    | Ok (examples, out, ratios) => map fst out = [""]
    | Raise _ => False
    end
  ∧ match validate_unofficial_with_doc (H := toy_externals) (N := Q_number) searchqa_args
            ten_corpus forward_predict ten_selection ten_sort "dev" [one_question] with
    | Ok (examples, out, ratios) => map fst out = ["paris"]
    | Raise _ => False
    end.
Proof. split_and!; by vm_compute. Qed.

(** C10. When no accumulated vote of an example is above zero, and in
    particular when its dictionary is empty, the answer is the empty string:
    the running best starts at 0 and is replaced only by a vote strictly
    above it. *)
Theorem pick_best_no_positive_vote `{N : Number} (sc : list (string * num)) :
  (∀ (key : string) (v : num), OD.get key sc = Some v → num_gt v num_zero = false) →
  pick_best sc = ""
  ∧ ∀ (best : num * string) (key : string),
      num_gt (default num_zero (OD.get key sc)) best.1 = false → better sc best key = best.
Proof.
  intros Hsc. split; [by apply pick_best_nothing|].
  intros best key Hle. unfold better. by rewrite Hle.
Qed.

Lemma pick_best_no_positive_vote_witness :
  pick_best (N := Q_number) [("paris", 0 # 1); ("lyon", -1 # 2)] = ""
  ∧ ∀ (best : Q * string) (key : string),
      (default 0%Q (OD.get key [("paris", 0 # 1); ("lyon", -1 # 2)]) <= best.1)%Q →
      better (N := Q_number) [("paris", 0 # 1); ("lyon", -1 # 2)] best key = best.
Proof.
  destruct (pick_best_no_positive_vote (N := Q_number) [("paris", 0 # 1); ("lyon", -1 # 2)])
    as [Hpick Hbetter].
  - intros key v. simpl.
    destruct (decide (key = "paris")); [by intros [= <-]|].
    destruct (decide (key = "lyon")); [by intros [= <-]|done].
  - split; [exact Hpick|]. intros best key Hle. apply Hbetter.
    apply Qle_bool_iff in Hle.
    change (negb (Qle_bool (default 0%Q (OD.get key [("paris", 0 # 1); ("lyon", -1 # 2)]))
                    best.1) = false).
    by rewrite Hle.
Defined.

(** * Further properties of the code *)

(** ** [has_answer] *)

Lemma windows_bounds (single_answer text : list string) (s e : Z) :
  (s, e) ∈ windows single_answer text →
  0 <= s ∧ e = s + Z.of_nat (length single_answer) - 1 ∧ e < Z.of_nat (length text).
Proof.
  intros Hsp. apply elem_of_windows in Hsp as (i & Hw & Hsp).
  apply window_at_bound in Hw. unfold span_at in Hsp. injection Hsp as -> ->. lia.
Qed.

Section matcher_more.
Context `{Externals}.

Lemma regex_spans_ok (text : list string) (answer_new : list pymatch)
    (acc res : list span) :
  regex_spans text answer_new acc = Ok res →
  ∃ heads : list string,
    Forall2 (fun a h => match_head a = Ok h) answer_new heads
    ∧ res = acc ++ concat (map (fun h => windows (tokenize_words (normalize h)) text) heads).
Proof.
  revert acc. induction answer_new as [|a rest IH]; intros acc; simpl.
  - intros [= <-]. exists []. split; [constructor|]. by rewrite app_nil_r.
  - destruct (match_head a) as [a0|e] eqn:Ha; simpl; [|done].
    intros Hr. destruct (IH _ Hr) as (heads & Hheads & ->).
    exists (a0 :: heads). split; [by constructor|]. simpl. by rewrite <- app_assoc.
Qed.

Lemma regex_spans_raise (text : list string) (answer_new : list pymatch)
    (acc : list span) (m : pymatch) :
  m ∈ answer_new → match_head m = Raise IndexError →
  regex_spans text answer_new acc = Raise IndexError.
Proof.
  revert acc. induction answer_new as [|a rest IH]; intros acc Hm Hhead.
  - by apply elem_of_nil in Hm.
  - simpl. destruct (match_head a) as [a0|e] eqn:Ha; simpl.
    + apply IH; [|done]. apply elem_of_cons in Hm as [->|Hm]; [congruence|done].
    + destruct a as [[|c s]|[|g l]]; simpl in Ha; congruence.
Qed.

Lemma has_answer_other_mode (args : Args) (answer : list pyans) (t : list string) :
  dataset args ≠ "CuratedTrec" →
  has_answer args answer t
  = Ok (finish (concat (map (fun a => windows (token_answer a) (map str_lower t)) answer))).
Proof.
  intros Hother. unfold has_answer. rewrite decide_False by done.
  by rewrite exact_spans_concat.
Qed.

(** X1. The spans that [has_answer] returns, in either mode, lie in the
    document: each one starts at a position of the document or right after
    its end, ends before the end of the document, and does not end more
    than one position before its start. *)
Theorem has_answer_spans_in_document (args : Args) (answer : list pyans)
    (t : list string) (flag : bool) (spans : list span) :
  has_answer args answer t = Ok (flag, spans) →
  ∀ s e : Z, (s, e) ∈ spans → 0 <= s ∧ s <= e + 1 ∧ e < Z.of_nat (length t).
Proof.
  intros Hres s e Hsp.
  assert (∃ sa : list string, (s, e) ∈ windows sa (map str_lower t)) as [sa Hsa].
  { unfold has_answer in Hres. destruct (decide _) as [Htrec|Hother].
    - destruct (_ ≫= _) as [ans_regex|]; [|injection Hres as _ <-; by apply elem_of_nil in Hsp].
      destruct (regex_spans _ _ _) as [res|x] eqn:Hreg; simpl in Hres; [|done].
      rewrite finish_spec in Hres. injection Hres as _ <-.
      destruct (regex_spans_ok _ _ _ _ Hreg) as (heads & _ & ->).
      simpl in Hsp. apply list_elem_of_In, in_concat in Hsp as (ws & Hws & Hsp).
      apply in_map_iff in Hws as (h & <- & _). eexists. by apply list_elem_of_In.
    - rewrite finish_spec, exact_spans_concat in Hres. injection Hres as _ <-.
      simpl in Hsp. apply list_elem_of_In, in_concat in Hsp as (ws & Hws & Hsp).
      apply in_map_iff in Hws as (a & <- & _). eexists. by apply list_elem_of_In. }
  apply windows_bounds in Hsa. rewrite length_map in Hsa. lia.
Qed.

(** X2. Outside of the CuratedTrec mode, an accepted answer whose
    tokenization is empty matches everywhere: the answer is reported as
    found, with the degenerate span [(i, i - 1)] for every position [i] from
    0 to the length of the document, whatever the document. *)
Theorem has_answer_empty_tokens (args : Args) (answer : list pyans) (a : pyans)
    (t : list string) :
  dataset args ≠ "CuratedTrec" → a ∈ answer → token_answer a = [] →
  ∃ spans : list span,
    has_answer args answer t = Ok (true, spans)
    ∧ ∀ i : Z, 0 <= i <= Z.of_nat (length t) → (i, i - 1) ∈ spans.
Proof.
  intros Hother Ha Htok.
  assert (∀ i : Z, 0 <= i <= Z.of_nat (length t) →
            (i, i - 1) ∈ concat (map (fun a => windows (token_answer a) (map str_lower t)) answer))
    as Hall.
  { intros i Hi. apply list_elem_of_In, in_concat.
    exists (windows (token_answer a) (map str_lower t)). split.
    - apply in_map_iff. exists a. split; [done|]. by apply list_elem_of_In.
    - apply list_elem_of_In, elem_of_windows. exists (Z.to_nat i). split.
      + rewrite Htok. exists (take (Z.to_nat i) (map str_lower t)),
                             (drop (Z.to_nat i) (map str_lower t)).
        simpl. rewrite take_drop. split; [done|].
        rewrite length_take, length_map. lia.
      + unfold span_at. rewrite Htok. simpl. f_equal; lia. }
  eexists. split.
  - rewrite (has_answer_other_mode args answer t Hother), finish_spec.
    f_equal. f_equal. apply bool_decide_eq_true. intros Hnil.
    specialize (Hall 0 ltac:(lia)). rewrite Hnil in Hall. by apply elem_of_nil in Hall.
  - done.
Qed.

End matcher_more.

Section matcher_modes.
Context `{Externals}.

(** X3. In the CuratedTrec mode an empty match is fatal: when the pattern
    compiles and [findall] returns an empty string among its matches,
    [has_answer] raises [IndexError] (from [a[0]], outside of the [try]). *)
Theorem has_answer_regex_empty_match (args : Args) (answer : list pyans) (a0 : pyans)
    (r : regex) (t : list string) :
  dataset args = "CuratedTrec" →
  answer !! 0%nat = Some a0 →
  re_compile (pattern_of a0) = Some r →
  MStr "" ∈ re_findall r (Py.join " " (map str_lower t)) →
  has_answer args answer t = Raise IndexError.
Proof.
  intros Htrec Ha0 Hr Hempty. unfold has_answer.
  rewrite decide_True by done. rewrite Ha0. simpl. rewrite Hr.
  by rewrite (regex_spans_raise _ _ _ (MStr "") Hempty).
Qed.

(** X4. In the CuratedTrec mode, when [findall] returns strings (a pattern
    with no group of its own), only the first character of each match is
    looked for: the spans are the windows of the document equal to the
    tokenization of that character, match after match. *)
Theorem has_answer_regex_first_character (args : Args) (answer : list pyans)
    (a0 : pyans) (r : regex) (t : list string) (ms : list string) :
  dataset args = "CuratedTrec" →
  answer !! 0%nat = Some a0 →
  re_compile (pattern_of a0) = Some r →
  re_findall r (Py.join " " (map str_lower t)) = map MStr ms →
  Forall (fun m => m ≠ "") ms →
  has_answer args answer t
  = Ok (finish (concat (map (fun m => windows (tokenize_words (normalize (first_char m)))
                                              (map str_lower t)) ms))).
Proof.
  intros Htrec Ha0 Hr Hfound Hms. unfold has_answer.
  rewrite decide_True by done. rewrite Ha0. simpl. rewrite Hr, Hfound.
  assert (∀ acc, regex_spans (map str_lower t) (map MStr ms) acc
                 = Ok (acc ++ concat (map (fun m => windows (tokenize_words
                          (normalize (first_char m))) (map str_lower t)) ms))) as ->; [|done].
  clear Hfound. induction Hms as [|m ms Hm Hms IH]; intros acc.
  - simpl. by rewrite app_nil_r.
  - destruct m as [|c m]; [done|].
    cbn [map regex_spans match_head first_char concat mbind result_bind].
    by rewrite IH, <- app_assoc.
Qed.

(** X5. Outside of the CuratedTrec mode the accepted answers are matched
    one after the other: the spans for two lists of answers put together
    are the spans for the first followed by the spans for the second, and
    the answer is found exactly when one of the lists finds it. *)
Theorem has_answer_answers_app (args : Args) (answer1 answer2 : list pyans)
    (t : list string) :
  dataset args ≠ "CuratedTrec" →
  ∃ (f1 f2 : bool) (s1 s2 : list span),
    has_answer args answer1 t = Ok (f1, s1)
    ∧ has_answer args answer2 t = Ok (f2, s2)
    ∧ has_answer args (answer1 ++ answer2) t = Ok (f1 || f2, s1 ++ s2).
Proof.
  intros Hother. rewrite !has_answer_other_mode by done. rewrite !finish_spec.
  eexists _, _, _, _. split_and!; [done|done|].
  rewrite map_app, concat_app. f_equal. f_equal.
  destruct (concat (map _ answer1)), (concat (map _ answer2)); done.
Qed.

(** X6. The case of the document does not matter.  When lower-casing a
    lower-cased token of the document leaves it as it is, the document and
    its lower-cased copy give the same result, and so does every document
    with the same lower-cased tokens. *)
Theorem has_answer_document_case (args : Args) (answer : list pyans) (t : list string) :
  Forall (fun s => str_lower (str_lower s) = str_lower s) t →
  has_answer args answer (map str_lower t) = has_answer args answer t
  ∧ ∀ t' : list string,
      map str_lower t' = map str_lower t →
      has_answer args answer t' = has_answer args answer t
      ∧ has_answer args answer (map str_lower t') = has_answer args answer t.
Proof.
  intros Hidem.
  assert (map str_lower (map str_lower t) = map str_lower t) as Hmap.
  { induction Hidem as [|s t' Hs Ht IH]; [done|]. simpl. by rewrite Hs, IH. }
  split.
  - unfold has_answer. by rewrite Hmap.
  - intros t' Ht. unfold has_answer. by rewrite Ht, Hmap.
Qed.

End matcher_modes.

Lemma has_answer_spans_in_document_witness :
  0 <= 1 ∧ 1 <= 1 + 1 ∧ 1 < Z.of_nat (length ["the"; "cat"; "sat"]).
Proof.
  apply (has_answer_spans_in_document (H := toy_externals) searchqa_args
           [AList ["cat"]] ["the"; "cat"; "sat"] true [(1, 1)]).
  - reflexivity.
  - left.
Defined.

Lemma has_answer_empty_tokens_witness :
  ∃ spans : list span,
    has_answer (H := toy_externals) searchqa_args [AList []] ["the"; "cat"] = Ok (true, spans)
    ∧ ∀ i : Z, 0 <= i <= Z.of_nat (length ["the"; "cat"]) → (i, i - 1) ∈ spans.
Proof.
  apply (has_answer_empty_tokens (H := toy_externals) searchqa_args [AList []] (AList [])).
  - done.
  - left.
  - reflexivity.
Defined.

Lemma has_answer_regex_empty_match_witness :
  has_answer (H := matching_externals [MStr "cat"; MStr ""]) trec_args [AStr "c*"]
    ["the"; "cat"] = Raise IndexError.
Proof.
  apply (has_answer_regex_empty_match (H := matching_externals [MStr "cat"; MStr ""])
           trec_args [AStr "c*"] (AStr "c*") "(c*)").
  - reflexivity.
  - reflexivity.
  - reflexivity.
  - right. left.
Defined.

Lemma has_answer_regex_first_character_witness :
  has_answer (H := matching_externals [MStr "cat"]) trec_args [AStr "cat"]
    ["the"; "cat"; "c"] = Ok (true, [(2, 2)]).
Proof.
  rewrite (has_answer_regex_first_character (H := matching_externals [MStr "cat"])
             trec_args [AStr "cat"] (AStr "cat") "(cat)" ["the"; "cat"; "c"] ["cat"]).
  - reflexivity.
  - reflexivity.
  - reflexivity.
  - reflexivity.
  - reflexivity.
  - by repeat constructor.
Defined.

Lemma has_answer_answers_app_witness :
  ∃ (f1 f2 : bool) (s1 s2 : list span),
    has_answer (H := toy_externals) searchqa_args [AList ["cat"]] ["the"; "cat"] = Ok (f1, s1)
    ∧ has_answer (H := toy_externals) searchqa_args [AList ["the"]] ["the"; "cat"] = Ok (f2, s2)
    ∧ has_answer (H := toy_externals) searchqa_args ([AList ["cat"]] ++ [AList ["the"]])
        ["the"; "cat"] = Ok (f1 || f2, s1 ++ s2).
Proof.
  by apply (has_answer_answers_app (H := toy_externals) searchqa_args
              [AList ["cat"]] [AList ["the"]] ["the"; "cat"]).
Defined.

Lemma has_answer_document_case_witness :
  has_answer (H := toy_externals) searchqa_args [AList ["cat"]] ["The"; "CAT"]
  = has_answer (H := toy_externals) searchqa_args [AList ["cat"]] ["the"; "Cat"]
  ∧ has_answer (H := toy_externals) searchqa_args [AList ["cat"]]
      (map (str_lower (Externals := toy_externals)) ["The"; "CAT"])
    = has_answer (H := toy_externals) searchqa_args [AList ["cat"]] ["the"; "Cat"].
Proof.
  apply (proj2 (has_answer_document_case (H := toy_externals) searchqa_args
                  [AList ["cat"]] ["the"; "Cat"] ltac:(by repeat constructor))).
  reflexivity.
Defined.

(** ** The keys and the ranking of [update_evidence] *)

(** X7. The keys of the accumulators are a faithful encoding of the pair
    (batch index, index in the batch): splitting a key at ['|'] and reading
    the two numbers gives the pair back, and two pairs with the same key are
    the same pair. *)
Theorem key_round_trip (idx i : nat) :
  parse_key (mk_key idx i) = Ok (idx, i)
  ∧ ∀ idx' i' : nat, mk_key idx i = mk_key idx' i' → idx = idx' ∧ i = i'.
Proof. split; [apply parse_mk_key|]. intros idx' i'. apply mk_key_inj. Qed.

Lemma key_round_trip_witness : 12%nat = 12%nat ∧ 3%nat = 3%nat.
Proof. by apply (proj2 (key_round_trip 12 3) 12%nat 3%nat). Defined.

(** X8. [evidence_scores] holds the records that have a best document, no
    other and each as often as in [Attention_Weight], by non-increasing
    score, and the records of one score are in the order in which
    [Attention_Weight] holds them. *)
Theorem evidence_scores_ranking (A : list record) :
  Permutation (evidence_scores A) (filter (fun r => best_doc_index r ≠ -1) A)
  ∧ StronglySorted score_ge (evidence_scores A)
  ∧ ∀ q : Q, List.filter (same_score q) (evidence_scores A)
             = List.filter (same_score q) (filter (fun r => best_doc_index r ≠ -1) A).
Proof.
  unfold evidence_scores. split_and!.
  - apply sorted_desc_perm.
  - apply sorted_desc_sorted.
  - intros q. apply sorted_desc_stable.
Qed.

(** ** More on the two phases of [update_evidence] *)

Lemma accumulate_entries (idx : nat) (out : ModelOut) (rng : list nat)
    (P P' : list (string * Q)) (A A' : list record) :
  accumulate idx out rng P A = Ok (P', A') →
  ∀ r : record, r ∈ A' →
    r ∈ A ∨ ∃ i : nat, i ∈ rng ∧ r.1 = mk_key idx i
                       ∧ (attentions out).1 !! i = Some r.2.1
                       ∧ (attentions out).2 !! i = Some r.2.2.
Proof.
  revert P A. induction rng as [|i rng IH]; intros P A; simpl.
  - intros [= <- <-] r Hr. by left.
  - destruct (OD.mem (mk_key idx i) P) eqn:HmP; simpl; [done|].
    destruct (OD.mem (mk_key idx i) A) eqn:HmA; simpl; [done|].
    apply od_mem_false in HmA.
    destruct (probs out !! i) as [p|]; simpl; [|done].
    destruct ((attentions out).1 !! i) as [a0|] eqn:Ha0; simpl; [|done].
    destruct ((attentions out).2 !! i) as [a1|] eqn:Ha1; simpl; [|done].
    rewrite (od_set_fresh _ (a0, a1) A) by done.
    intros Hacc r Hr. destruct (IH _ _ Hacc r Hr) as [HrA|(j & Hj & Hk & H0 & H1)].
    + apply elem_of_app in HrA as [HrA|Hnew]; [by left|].
      apply list_elem_of_singleton in Hnew as ->.
      right. exists i. split_and!; [left|done|done|done].
    + right. exists j. split_and!; [by right|done|done|done].
Qed.

Lemma accumulate_raises (idx : nat) (out : ModelOut) (rng : list nat)
    (P : list (string * Q)) (A : list record) :
  NoDup rng →
  (∀ i : nat, i ∈ rng → (mk_key idx i ∉ OD.keys P) ∧ (mk_key idx i ∉ OD.keys A)) →
  (∃ i : nat, i ∈ rng ∧ (probs out !! i = None ∨ (attentions out).1 !! i = None
                          ∨ (attentions out).2 !! i = None)) →
  accumulate idx out rng P A = Raise IndexError.
Proof.
  revert P A. induction rng as [|i rng IH]; intros P A Hnd Hfresh (j & Hj & Hshort).
  - by apply elem_of_nil in Hj.
  - apply NoDup_cons in Hnd as [Hi Hnd]. simpl.
    destruct (Hfresh i) as [HP HA]; [left|].
    apply od_mem_false in HP as HmP. apply od_mem_false in HA as HmA.
    rewrite HmP, HmA. simpl.
    destruct (probs out !! i) as [p|] eqn:Hp; simpl; [|done].
    destruct ((attentions out).1 !! i) as [a0|] eqn:Ha0; simpl; [|done].
    destruct ((attentions out).2 !! i) as [a1|] eqn:Ha1; simpl; [|done].
    apply IH; [done| |].
    + intros k Hk. destruct (Hfresh k) as [HkP HkA]; [by right|].
      rewrite !od_keys_set, HmP, HmA.
      split; intros [?|Heq%list_elem_of_singleton]%elem_of_app; try done.
      all: apply mk_key_inj in Heq as [_ ->]; done.
    + apply elem_of_cons in Hj as [->|Hj]; [|by exists j].
      exfalso. destruct Hshort as [?|[?|?]]; congruence.
Qed.

(** X9. A model answer that is shorter than the batch stops phase 1: when
    the keys of the batch are new and [probs] or one of the two arrays of
    [attentions] has fewer entries than the batch, the accumulation raises
    [IndexError]. *)
Theorem accumulate_short_output (idx : nat) (out : ModelOut) (n : nat)
    (P : list (string * Q)) (A : list record) :
  (∀ i : nat, (i < n)%nat → (mk_key idx i ∉ OD.keys P) ∧ (mk_key idx i ∉ OD.keys A)) →
  (length (probs out) < n)%nat ∨ (length (attentions out).1 < n)%nat
    ∨ (length (attentions out).2 < n)%nat →
  accumulate idx out (seq 0 n) P A = Raise IndexError.
Proof.
  intros Hfresh Hshort. apply accumulate_raises; [apply NoDup_seq| |].
  - intros i Hi. apply Hfresh. apply elem_of_seq in Hi. lia.
  - destruct Hshort as [Hs|[Hs|Hs]].
    + exists (length (probs out)). split; [apply elem_of_seq; lia|].
      left. by apply lookup_ge_None.
    + exists (length (attentions out).1). split; [apply elem_of_seq; lia|].
      right. left. by apply lookup_ge_None.
    + exists (length (attentions out).2). split; [apply elem_of_seq; lia|].
      right. right. by apply lookup_ge_None.
Qed.

Lemma accumulate_short_output_witness :
  accumulate 0 {| probs := [1 # 2]; attentions := ([9 # 10; 1 # 10], [0; 1]) |}
    (seq 0 2) [] [] = Raise IndexError.
Proof.
  apply accumulate_short_output.
  - intros i _. split; by intros ?%elem_of_nil.
  - left. simpl. lia.
Defined.

Lemma evidence_scores_elem (A : list record) (r : record) :
  r ∈ evidence_scores A ↔ r ∈ A ∧ best_doc_index r ≠ -1.
Proof.
  unfold evidence_scores. rewrite sorted_desc_perm, list_elem_of_filter. tauto.
Qed.

Lemma filter_after_take {V} (l : list (string * V)) (n : nat) :
  NoDup (map fst l) →
  filter (fun x => x.1 ∉ map fst (take n l)) l = drop n l.
Proof.
  revert n. induction l as [|x l IH]; intros n Hnd; [by destruct n|].
  rewrite map_cons in Hnd. apply NoDup_cons in Hnd as [Hx Hnd].
  destruct n as [|n].
  - rewrite take_0, drop_0. clear. induction (x :: l) as [|y k IHk]; [done|].
    rewrite filter_cons_True by (by intros ?%elem_of_nil). by rewrite IHk.
  - rewrite firstn_cons, skipn_cons, map_cons.
    rewrite filter_cons_False by (intros Hnot; apply Hnot; left).
    rewrite <- (IH n Hnd). apply filter_ext_elem. intros y Hy.
    rewrite not_elem_of_cons. split; [by intros [_ ?]|]. intros Hy'. split; [|done].
    intros Heq. apply Hx. rewrite <- Heq. apply list_elem_of_fmap. by exists y.
Qed.

Section pool_props.
Variable Top_k : Z.
Variable P : list (string * Q).
Variable A : list record.
Variable EL : gmap nat (list Z).
Hypothesis Hwk : well_keyed P A EL.

Lemma promoted_keys_NoDup : NoDup (map fst (ranked A EL)).
Proof.
  destruct (well_keyed_records_ok _ _ _ Hwk) as [Hnd _].
  apply (sublist_NoDup _ (map fst (evidence_scores A))); [done|].
  apply (fmap_sublist fst). unfold ranked. apply sublist_filter.
Qed.

(** The records that a promotion has not labelled are the rest of the
    ranking, in its order. *)
Lemma ranked_after_promote (st : Promotion) :
  promote Top_k P A EL = Ok st →
  ranked A (labels st) = drop (budget Top_k) (ranked A EL).
Proof.
  intros Hst. destruct (promote_ranked Top_k P A EL Hwk)
    as (st' & Hst' & _ & _ & _ & Hin & Hout).
  rewrite Hst in Hst'. injection Hst' as <-.
  rewrite <- (filter_after_take _ _ promoted_keys_NoDup).
  fold (promoted Top_k A EL). set (pr := promoted Top_k A EL) in *.
  unfold ranked. rewrite list_filter_filter. apply filter_ext_elem.
  intros r Hr. subst pr.
  apply evidence_scores_elem in Hr as [HrA Hdoc].
  destruct Hwk as [HndA HA]. destruct (HA r HrA) as (_ & idx & i & Hk & _).
  unfold unlabeled. rewrite !(record_label_key _ _ idx i Hk).
  destruct (decide (r.1 ∈ map fst (promoted Top_k A EL))) as [Hkin|Hkout].
  - apply list_elem_of_fmap in Hkin as (r' & Hk' & Hr').
    rewrite Hk in Hk'. rewrite (Hin r' idx i Hr' (eq_sym Hk')).
    assert (best_doc_index r' ≠ -1) as Hdoc'.
    { unfold promoted, ranked in Hr'. apply elem_of_take in Hr' as (n & Hr' & _).
      apply list_elem_of_lookup_2, list_elem_of_filter in Hr' as [_ Hr'].
      by apply evidence_scores_elem in Hr' as [_ ?]. }
    split; [congruence|]. intros [Hnot _]. exfalso. apply Hnot.
    rewrite Hk, Hk'. apply list_elem_of_fmap. by exists r'.
  - rewrite Hk in Hkout. rewrite (Hout idx i Hkout).
    split; [intros ?; split; [by rewrite Hk|done]|by intros [_ ?]].
Qed.

Lemma eligible_after_promote (st : Promotion) :
  promote Top_k P A EL = Ok st →
  Z.of_nat (length (eligible A (labels st)))
  = Z.of_nat (length (eligible A EL)) - count st.
Proof.
  intros Hst. rewrite <- !ranked_length, (ranked_after_promote st Hst).
  destruct (promote_ranked Top_k P A EL Hwk) as (st' & Hst' & Hcount & _).
  rewrite Hst in Hst'. injection Hst' as <-. rewrite Hcount.
  unfold promoted. rewrite length_drop, length_take. lia.
Qed.

End pool_props.

Lemma pass_labels_spec (idx : nat) (data_loader : list Batch) (EL : gmap nat (list Z)) :
  (∀ (j : nat) (row : list Z), EL !! j = Some row →
      pass_labels idx data_loader EL !! j = Some row)
  ∧ (∀ (n : nat) (b : Batch), data_loader !! n = Some b → EL !! (idx + n)%nat = None →
      pass_labels idx data_loader EL !! (idx + n)%nat
      = Some (replicate (batch_size b) (-1)))
  ∧ (∀ j : nat, is_Some (pass_labels idx data_loader EL !! j) →
      is_Some (EL !! j) ∨ (idx <= j < idx + length data_loader)%nat).
Proof.
  revert idx EL. induction data_loader as [|b rest IH]; intros idx EL; simpl.
  - split_and!; [done|by intros n b ?|by left].
  - destruct (IH (S idx) (init_evidence idx b EL)) as (Hkeep & Hnew & Hdom).
    assert (∀ j row, EL !! j = Some row → init_evidence idx b EL !! j = Some row) as Hinit.
    { intros j row Hj. unfold init_evidence.
      destruct (EL !! idx) eqn:Hidx; [done|].
      rewrite lookup_insert_ne; [done|]. intros <-. congruence. }
    split_and!.
    + intros j row Hj. by apply Hkeep, Hinit.
    + intros [|n] b' Hb' Hnone; simpl in Hb'.
      * injection Hb' as <-. rewrite Nat.add_0_r in *. apply Hkeep.
        unfold init_evidence. rewrite Hnone. apply lookup_insert_eq.
      * replace (idx + S n)%nat with (S idx + n)%nat in * by lia.
        apply Hnew; [done|]. unfold init_evidence.
        destruct (EL !! idx); [done|]. rewrite lookup_insert_ne by lia. done.
    + intros j Hj. destruct (Hdom j Hj) as [Hinit'|Hrange]; [|right; lia].
      unfold init_evidence in Hinit'. destruct (EL !! idx) eqn:Hidx; [by left|].
      destruct (decide (idx = j)) as [<-|Hne]; [right; lia|].
      rewrite lookup_insert_ne in Hinit' by done. by left.
Qed.

Lemma set_label_length (EL EL' : gmap nat (list Z)) (idx i : nat) (v : Z) :
  set_label EL idx i v = Ok EL' →
  ∀ j : nat, length <$> EL' !! j = length <$> EL !! j.
Proof.
  unfold set_label. destruct (EL !! idx) as [row|] eqn:Hrow; simpl; [|done].
  destruct (decide _); [|done]. intros [= <-] j.
  destruct (decide (idx = j)) as [<-|Hne].
  - rewrite lookup_insert_eq, Hrow. simpl. by rewrite length_insert.
  - by rewrite lookup_insert_ne.
Qed.

Section promote_more.
Variable Top_k : Z.
Variable P : list (string * Q).
Variable A : list record.

Lemma promote_loop_rows (rs : list record) (st st' : Promotion) :
  promote_loop Top_k P A rs st = Ok st' →
  ∀ j : nat, length <$> labels st' !! j = length <$> labels st !! j.
Proof.
  revert st. induction rs as [|[key value] rs IH]; intros st; simpl.
  - by intros [= <-].
  - destruct (parse_key key) as [[idx0 i0]|e]; simpl; [|done].
    destruct (label (labels st) idx0 i0) as [l|e]; simpl; [|done].
    destruct (decide (l ≠ -1)); [by apply IH|].
    destruct (set_label _ _ _ _) as [EL1|e] eqn:Hset; simpl; [|done].
    destruct (OD.get key P) as [p|]; simpl; [|done].
    destruct (OD.get key A) as [a|]; simpl; [|done].
    destruct (decide (count st + 1 >= Top_k)).
    + intros [= <-] j. simpl. by apply (set_label_length _ _ _ _ _ Hset).
    + intros Hloop j. rewrite (IH _ Hloop). simpl.
      by apply (set_label_length _ _ _ _ _ Hset).
Qed.

(** A label that the loop has changed is the best document of a record of
    its list, written at the coordinates the key of the record names. *)
Lemma promote_loop_provenance (rs : list record) (st st' : Promotion) :
  promote_loop Top_k P A rs st = Ok st' →
  ∀ (idx i : nat) (v : Z),
    label (labels st') idx i = Ok v →
    label (labels st) idx i = Ok v
    ∨ ∃ r : record, r ∈ rs ∧ parse_key r.1 = Ok (idx, i) ∧ v = best_doc_index r.
Proof.
  revert st. induction rs as [|[key value] rs IH]; intros st; simpl.
  - intros [= <-] idx i v Hv. by left.
  - destruct (parse_key key) as [[idx0 i0]|e] eqn:Hkey; simpl; [|done].
    destruct (label (labels st) idx0 i0) as [l|e]; simpl; [|done].
    assert (∀ st1, (∀ idx i v, label (labels st1) idx i = Ok v →
                      label (labels st) idx i = Ok v
                      ∨ ((idx, i) = (idx0, i0) ∧ v = value.2)) →
              promote_loop Top_k P A rs st1 = Ok st' →
              ∀ idx i v, label (labels st') idx i = Ok v →
                label (labels st) idx i = Ok v
                ∨ ∃ r : record, r ∈ (key, value) :: rs ∧ parse_key r.1 = Ok (idx, i)
                                ∧ v = best_doc_index r) as Hgo.
    { intros st1 Hst1 Hloop idx i v Hv.
      destruct (IH _ Hloop idx i v Hv) as [Hv1|(r & Hr & Hk & ->)].
      - destruct (Hst1 _ _ _ Hv1) as [?|[[= -> ->] ->]]; [by left|].
        right. exists (key, value). split_and!; [left|done|done].
      - right. exists r. split_and!; [by right|done|done]. }
    destruct (decide (l ≠ -1)).
    { apply Hgo. intros idx i v ?. by left. }
    destruct (set_label _ _ _ _) as [EL1|e] eqn:Hset; simpl; [|done].
    destruct (OD.get key P) as [p|]; simpl; [|done].
    destruct (OD.get key A) as [a|]; simpl; [|done].
    assert (∀ idx i v, label EL1 idx i = Ok v →
              label (labels st) idx i = Ok v ∨ ((idx, i) = (idx0, i0) ∧ v = value.2))
      as Hstep.
    { intros idx i v Hv. destruct (decide ((idx, i) = (idx0, i0))) as [[= -> ->]|Hne].
      - right. rewrite (label_set_label_eq _ _ _ _ _ Hset) in Hv. by injection Hv as <-.
      - left. by rewrite (label_set_label_ne _ _ _ _ _ _ _ Hset) in Hv. }
    destruct (decide (count st + 1 >= Top_k)).
    + intros [= <-] idx i v Hv. simpl in Hv.
      destruct (Hstep _ _ _ Hv) as [?|[[= -> ->] ->]]; [by left|].
      right. exists (key, value). split_and!; [left|done|done].
    + apply Hgo. simpl. apply Hstep.
Qed.

End promote_more.

Section pass_more.
Context `{Externals}.
Variable args : Args.
Variable corpus : Corpus.
Variable model : nat → ModelOut.

Lemma evidence_pass_labels_eq (idx : nat) (data_loader : list Batch) (G G1 : Globals)
    (P P' : list (string * Q)) (A A' : list record) :
  evidence_pass args corpus model idx data_loader G P A = Ok (G1, P', A') →
  Evidence_Label G1 = pass_labels idx data_loader (Evidence_Label G).
Proof.
  revert idx G P A. induction data_loader as [|b rest IH]; intros idx G P A; simpl.
  - by intros [= <- _ _].
  - destruct (visit args corpus idx b G) as [[g G0]|e] eqn:Hvisit; simpl; [|done].
    pass_lists.
    destruct (accumulate _ _ _ _ _) as [[P1 A1]|e]; simpl; [|done].
    intros Hpass. rewrite (IH _ _ _ _ Hpass). simpl.
    by rewrite (visit_labels _ _ _ _ _ _ _ Hvisit).
Qed.

Lemma evidence_pass_entries (idx : nat) (data_loader : list Batch) (G G1 : Globals)
    (P P' : list (string * Q)) (A A' : list record) :
  evidence_pass args corpus model idx data_loader G P A = Ok (G1, P', A') →
  ∀ r : record, r ∈ A' →
    r ∈ A ∨ ∃ (n i : nat) (b : Batch),
              data_loader !! n = Some b ∧ (i < batch_size b)%nat
              ∧ r.1 = mk_key (idx + n) i
              ∧ (attentions (model (idx + n)%nat)).1 !! i = Some r.2.1
              ∧ (attentions (model (idx + n)%nat)).2 !! i = Some r.2.2.
Proof.
  revert idx G P A. induction data_loader as [|b rest IH]; intros idx G P A; simpl.
  - intros [= _ _ <-] r Hr. by left.
  - destruct (visit args corpus idx b G) as [[g G0]|e]; simpl; [|done].
    pass_lists.
    destruct (accumulate _ _ _ _ _) as [[P1 A1]|e] eqn:Hacc; simpl; [|done].
    intros Hpass r Hr.
    destruct (IH _ _ _ _ Hpass r Hr) as [Hr1|(n & i & b' & Hb' & Hi & Hk & H0 & H1)].
    + destruct (accumulate_entries _ _ _ _ _ _ _ Hacc r Hr1) as [?|(i & Hi & Hk & H0 & H1)];
        [by left|].
      right. exists 0%nat, i, b. rewrite Nat.add_0_r. apply elem_of_seq in Hi.
      split_and!; [done|lia|done|done|done].
    + right. exists (S n), i, b'.
      replace (idx + S n)%nat with (S idx + n)%nat by lia. done.
Qed.

Lemma evidence_pass_cached (idx : nat) (data_loader : list Batch) (G G1 : Globals)
    (P P' : list (string * Q)) (A A' : list record) :
  (∀ n : nat, (n < length data_loader)%nat → is_Some (HasAnswer_Map G !! (idx + n)%nat)) →
  evidence_pass args corpus model idx data_loader G P A = Ok (G1, P', A') →
  HasAnswer_Map G1 = HasAnswer_Map G ∧ matcher_calls G1 = matcher_calls G.
Proof.
  revert idx G P A. induction data_loader as [|b rest IH]; intros idx G P A Hcached; simpl.
  - by intros [= <- _ _].
  - destruct (Hcached 0%nat) as [g Hg]; [simpl; lia|]. rewrite Nat.add_0_r in Hg.
    rewrite (visit_hit _ _ _ _ _ _ Hg). simpl.
    pass_lists.
    destruct (accumulate _ _ _ _ _) as [[P1 A1]|e]; simpl; [|done].
    intros Hpass. apply IH in Hpass; [done|]. cbn [HasAnswer_Map].
    intros n Hn. replace (S idx + n)%nat with (idx + S n)%nat by lia.
    apply Hcached. cbn [length]. lia.
Qed.

(** X10. Whatever the budget: when phase 1 of a pass completes (and the
    rows of [Evidence_Label] that exist are as long as their batches),
    [update_evidence] returns and has labelled min(max(1, top_k), number of
    eligible records) examples, and [label_prob] and [label_attention] hold
    one entry for each of them. *)
Theorem update_evidence_any_budget (data_loader : list Batch) (G G1 : Globals)
    (P : list (string * Q)) (A : list record) :
  evidence_pass args corpus model 0 data_loader G [] [] = Ok (G1, P, A) →
  rows_fit 0 data_loader (Evidence_Label G) →
  ∃ (G' : Globals) (st : Promotion),
    update_evidence args corpus model data_loader G = Ok (G', st)
    ∧ count st = Z.min (Z.max 1 (top_k args))
                       (Z.of_nat (length (eligible A (Evidence_Label G1))))
    ∧ Z.of_nat (length (label_prob st)) = count st
    ∧ Z.of_nat (length (label_attention st)) = count st.
Proof.
  intros Hpass Hfit.
  pose proof (evidence_pass_well_keyed _ _ _ _ _ _ _ _ Hpass Hfit) as Hwk.
  destruct (promote_ranked (top_k args) _ _ _ Hwk) as (st & Hst & Hcount & Hatt & Hprob & _).
  unfold update_evidence. rewrite Hpass. simpl. rewrite Hst. simpl.
  eexists _, _. split; [done|]. rewrite Hatt, Hprob, !length_map, Hcount.
  split_and!; [|done|done].
  unfold promoted, budget, remaining. rewrite length_take, ranked_length. lia.
Qed.

(** X11. Whatever the budget: the examples that a pass labels are those of
    the first max(1, top_k) records of the ranking of the eligible records,
    each with the best document of its record (which is not -1), and no
    other label of the store that phase 1 left is changed. *)
Theorem update_evidence_labels_written (data_loader : list Batch) (G G1 G' : Globals)
    (P : list (string * Q)) (A : list record) (st : Promotion) :
  evidence_pass args corpus model 0 data_loader G [] [] = Ok (G1, P, A) →
  rows_fit 0 data_loader (Evidence_Label G) →
  update_evidence args corpus model data_loader G = Ok (G', st) →
  (∀ (r : record) (idx i : nat),
      r ∈ take (Z.to_nat (Z.max 1 (top_k args))) (ranked A (Evidence_Label G1)) →
      r.1 = mk_key idx i →
      label (Evidence_Label G') idx i = Ok (best_doc_index r) ∧ best_doc_index r ≠ -1)
  ∧ (∀ idx i : nat,
      mk_key idx i ∉ map fst (take (Z.to_nat (Z.max 1 (top_k args)))
                                   (ranked A (Evidence_Label G1))) →
      label (Evidence_Label G') idx i = label (Evidence_Label G1) idx i).
Proof.
  intros Hpass Hfit Hupd.
  pose proof (evidence_pass_well_keyed _ _ _ _ _ _ _ _ Hpass Hfit) as Hwk.
  destruct (promote_ranked (top_k args) _ _ _ Hwk) as (st1 & Hst & _ & _ & _ & Hin & Hout).
  unfold update_evidence in Hupd. rewrite Hpass in Hupd. simpl in Hupd.
  rewrite Hst in Hupd. simpl in Hupd. injection Hupd as <- <-. simpl.
  unfold promoted, budget, remaining in Hin, Hout. rewrite Z.sub_0_r in Hin, Hout.
  split; [|done]. intros r idx i Hr Hk. split; [by apply Hin|].
  apply elem_of_take in Hr as (n & Hr & _).
  apply list_elem_of_lookup_2, list_elem_of_filter in Hr as [_ Hr].
  by apply evidence_scores_elem in Hr as [_ ?].
Qed.

(** X12. The records that a pass has labelled leave the pool: over the same
    accumulators, the ranking of the records that are still eligible after
    the pass is the ranking before it without its first max(1, top_k)
    records, and the number of eligible records has gone down by the number
    of promotions. *)
Theorem update_evidence_pool_shrinks (data_loader : list Batch) (G G1 G' : Globals)
    (P : list (string * Q)) (A : list record) (st : Promotion) :
  evidence_pass args corpus model 0 data_loader G [] [] = Ok (G1, P, A) →
  rows_fit 0 data_loader (Evidence_Label G) →
  update_evidence args corpus model data_loader G = Ok (G', st) →
  ranked A (Evidence_Label G')
  = drop (Z.to_nat (Z.max 1 (top_k args))) (ranked A (Evidence_Label G1))
  ∧ Z.of_nat (length (eligible A (Evidence_Label G')))
    = Z.of_nat (length (eligible A (Evidence_Label G1))) - count st.
Proof.
  intros Hpass Hfit Hupd.
  pose proof (evidence_pass_well_keyed _ _ _ _ _ _ _ _ Hpass Hfit) as Hwk.
  unfold update_evidence in Hupd. rewrite Hpass in Hupd. simpl in Hupd.
  destruct (promote _ _ _ _) as [st1|e] eqn:Hst; simpl in Hupd; [|done].
  injection Hupd as <- <-. simpl. split.
  - rewrite (ranked_after_promote _ _ _ _ Hwk _ Hst).
    unfold budget, remaining. by rewrite Z.sub_0_r.
  - by apply (eligible_after_promote (top_k args) _ _ _ Hwk _ Hst).
Qed.

(** X13. A pass invents no label: a label of the store after
    [update_evidence] is the label that was there before, or the -1 of a row
    that the pass created, or the best document index (not -1) that the
    model returned for this very example of this very batch. *)
Theorem update_evidence_label_provenance (data_loader : list Batch) (G G' : Globals)
    (st : Promotion) :
  update_evidence args corpus model data_loader G = Ok (G', st) →
  ∀ (idx i : nat) (v : Z),
    label (Evidence_Label G') idx i = Ok v →
    label (Evidence_Label G) idx i = Ok v
    ∨ (Evidence_Label G !! idx = None ∧ v = -1)
    ∨ (v ≠ -1 ∧ (attentions (model idx)).2 !! i = Some v).
Proof.
  unfold update_evidence.
  destruct (evidence_pass _ _ _ _ _ _ _ _) as [[[G1 P] A]|e] eqn:Hpass; simpl; [|done].
  destruct (promote _ _ _ _) as [st1|e] eqn:Hst; simpl; [|done].
  intros [= <- <-] idx i v Hv. simpl in Hv.
  destruct (promote_loop_provenance _ _ _ _ _ _ Hst idx i v Hv) as [Hold|(r & Hr & Hk & ->)].
  - simpl in Hold. rewrite (evidence_pass_labels_eq _ _ _ _ _ _ _ _ Hpass) in Hold.
    destruct (pass_labels_spec 0 data_loader (Evidence_Label G)) as (Hkeep & Hnew & Hdom).
    unfold label in Hold |- *.
    destruct (Evidence_Label G !! idx) as [row|] eqn:Hrow.
    + left. by rewrite (Hkeep _ _ Hrow) in Hold.
    + right. left. split; [done|].
      destruct (pass_labels 0 data_loader (Evidence_Label G) !! idx) as [row|] eqn:Hrow';
        simpl in Hold; [|done].
      destruct (Hdom idx) as [[? ?]|Hrange]; [by eexists|congruence|].
      destruct (lookup_lt_is_Some_2 data_loader idx) as [b Hb]; [lia|].
      pose proof (Hnew idx b Hb Hrow) as Hn. change (0 + idx)%nat with idx in Hn.
      rewrite Hn in Hrow'. injection Hrow' as <-.
      destruct (replicate (batch_size b) (-1) !! i) as [x|] eqn:Hx; simpl in Hold; [|done].
      apply lookup_replicate in Hx as [-> _]. by injection Hold as <-.
  - right. right. apply evidence_scores_elem in Hr as [Hr Hdoc]. split; [done|].
    destruct (evidence_pass_entries _ _ _ _ _ _ _ _ Hpass r Hr)
      as [?%elem_of_nil|(n & j & b & _ & _ & Hkey & _ & H1)]; [done|].
    rewrite Hkey, parse_mk_key in Hk. simpl in Hk. by injection Hk as <- <-.
Qed.

(** X14. A pass keeps the shape of the store: the rows that exist keep
    their length, every batch of the pass that had no row gets one of the
    size of the batch, and no other row appears. *)
Theorem update_evidence_rows (data_loader : list Batch) (G G' : Globals) (st : Promotion) :
  update_evidence args corpus model data_loader G = Ok (G', st) →
  (∀ (j : nat) (row : list Z), Evidence_Label G !! j = Some row →
      ∃ row' : list Z, Evidence_Label G' !! j = Some row' ∧ length row' = length row)
  ∧ (∀ (n : nat) (b : Batch), data_loader !! n = Some b → Evidence_Label G !! n = None →
      ∃ row' : list Z, Evidence_Label G' !! n = Some row' ∧ length row' = batch_size b)
  ∧ (∀ j : nat, is_Some (Evidence_Label G' !! j) →
      is_Some (Evidence_Label G !! j) ∨ (j < length data_loader)%nat).
Proof.
  unfold update_evidence.
  destruct (evidence_pass _ _ _ _ _ _ _ _) as [[[G1 P] A]|e] eqn:Hpass; simpl; [|done].
  destruct (promote _ _ _ _) as [st1|e] eqn:Hst; simpl; [|done].
  intros [= <- <-]. simpl.
  pose proof (promote_loop_rows _ _ _ _ _ _ Hst) as Hrows. simpl in Hrows.
  rewrite (evidence_pass_labels_eq _ _ _ _ _ _ _ _ Hpass) in Hrows.
  destruct (pass_labels_spec 0 data_loader (Evidence_Label G)) as (Hkeep & Hnew & Hdom).
  split_and!.
  - intros j row Hj. specialize (Hrows j). rewrite (Hkeep _ _ Hj) in Hrows.
    destruct (labels st1 !! j) as [row'|]; [|done]. exists row'.
    split; [done|]. by injection Hrows.
  - intros n b Hb Hnone. specialize (Hrows n).
    pose proof (Hnew n b Hb Hnone) as Hn. change (0 + n)%nat with n in Hn.
    rewrite Hn in Hrows.
    destruct (labels st1 !! n) as [row'|]; [|done]. exists row'.
    split; [done|]. simpl in Hrows. injection Hrows as ->. apply length_replicate.
  - intros j [row' Hj]. specialize (Hrows j). rewrite Hj in Hrows.
    destruct (Hdom j) as [?|?]; [|by left|right; lia].
    destruct (pass_labels 0 data_loader (Evidence_Label G) !! j); [by eexists|done].
Qed.

(** X15. A pass over batches that are all in the cache (after a training
    epoch over the same loader, for instance) calls the matcher for no
    cell and leaves [HasAnswer_Map] as it is. *)
Theorem update_evidence_cached (data_loader : list Batch) (G G' : Globals)
    (st : Promotion) :
  (∀ n : nat, (n < length data_loader)%nat → is_Some (HasAnswer_Map G !! n)) →
  update_evidence args corpus model data_loader G = Ok (G', st) →
  HasAnswer_Map G' = HasAnswer_Map G ∧ matcher_calls G' = matcher_calls G.
Proof.
  intros Hcached. unfold update_evidence.
  destruct (evidence_pass _ _ _ _ _ _ _ _) as [[[G1 P] A]|e] eqn:Hpass; simpl; [|done].
  destruct (promote _ _ _ _) as [st1|e]; simpl; [|done].
  intros [= <- <-]. simpl. by apply (evidence_pass_cached 0 _ _ _ _ _ _ _ Hcached Hpass).
Qed.

End pass_more.

(** The small run with a budget of 0: one promotion out of three eligible
    records. *)
Lemma update_evidence_any_budget_witness :
  ∃ (G' : Globals) (st : Promotion),
    update_evidence (H := toy_externals) (args_with_top_k 0) run_corpus run_model
      run_loader fresh_globals = Ok (G', st)
    ∧ count st = Z.min (Z.max 1 (top_k (args_with_top_k 0)))
                       (Z.of_nat (length (eligible run_Attention_Weight
                                            (Evidence_Label run_globals))))
    ∧ Z.of_nat (length (label_prob st)) = count st
    ∧ Z.of_nat (length (label_attention st)) = count st.
Proof.
  apply (update_evidence_any_budget (H := toy_externals) (args_with_top_k 0) run_corpus
           run_model run_loader fresh_globals run_globals run_Probability
           run_Attention_Weight).
  - vm_compute. reflexivity.
  - intros n b row _ Hrow. vm_compute in Hrow. discriminate Hrow.
Defined.

(** The small run with a budget of 2: the question of score 0.9 gets the
    document 2. *)
Lemma update_evidence_labels_written_witness :
  match update_evidence (H := toy_externals) (args_with_top_k 2) run_corpus run_model
          run_loader fresh_globals with
  | Ok (G', st) => label (Evidence_Label G') 0 0 = Ok 2 ∧ 2 ≠ -1
  | Raise _ => False
  end.
Proof.
  destruct (update_evidence _ _ _ _ _) as [[G' st]|e] eqn:Hupd.
  - refine (proj1 (update_evidence_labels_written (H := toy_externals)
                     (args_with_top_k 2) run_corpus run_model run_loader fresh_globals
                     run_globals G' run_Probability run_Attention_Weight st _ _ Hupd)
              ("0|0", (9 # 10, 2)) 0%nat 0%nat _ _).
    + vm_compute. reflexivity.
    + intros n b row _ Hrow. vm_compute in Hrow. discriminate Hrow.
    + apply list_elem_of_In. vm_compute. left. reflexivity.
    + reflexivity.
  - vm_compute in Hupd. discriminate Hupd.
Defined.

(** The small run with a budget of 2: one of the three records is left. *)
Lemma update_evidence_pool_shrinks_witness :
  match update_evidence (H := toy_externals) (args_with_top_k 2) run_corpus run_model
          run_loader fresh_globals with
  | Ok (G', st) =>
      ranked run_Attention_Weight (Evidence_Label G')
      = drop (Z.to_nat (Z.max 1 (top_k (args_with_top_k 2))))
             (ranked run_Attention_Weight (Evidence_Label run_globals))
      ∧ Z.of_nat (length (eligible run_Attention_Weight (Evidence_Label G')))
        = Z.of_nat (length (eligible run_Attention_Weight (Evidence_Label run_globals)))
          - count st
  | Raise _ => False
  end.
Proof.
  destruct (update_evidence _ _ _ _ _) as [[G' st]|e] eqn:Hupd.
  - apply (update_evidence_pool_shrinks (H := toy_externals) (args_with_top_k 2)
             run_corpus run_model run_loader fresh_globals run_globals G'
             run_Probability run_Attention_Weight st).
    + vm_compute. reflexivity.
    + intros n b row _ Hrow. vm_compute in Hrow. discriminate Hrow.
    + exact Hupd.
  - vm_compute in Hupd. discriminate Hupd.
Defined.

(** The small run from a store in which the first question is labelled. *)
Lemma update_evidence_label_provenance_witness :
  match update_evidence (H := toy_externals) (args_with_top_k 2) run_corpus run_model
          run_loader
          {| HasAnswer_Map := ∅; Evidence_Label := labelled_store; matcher_calls := [] |} with
  | Ok (G', st) =>
      label labelled_store 0 2 = Ok 1
      ∨ (labelled_store !! 0%nat = None ∧ 1 = -1)
      ∨ (1 ≠ -1 ∧ (attentions (run_model 0)).2 !! 2%nat = Some 1)
  | Raise _ => False
  end.
Proof.
  destruct (update_evidence _ _ _ _ _) as [[G' st]|e] eqn:Hupd.
  - apply (update_evidence_label_provenance (H := toy_externals) (args_with_top_k 2)
             run_corpus run_model run_loader _ G' st Hupd 0%nat 2%nat 1).
    vm_compute in Hupd. injection Hupd as <- _. reflexivity.
  - vm_compute in Hupd. discriminate Hupd.
Defined.

Lemma update_evidence_rows_witness :
  match update_evidence (H := toy_externals) (args_with_top_k 2) run_corpus run_model
          run_loader fresh_globals with
  | Ok (G', st) =>
      ∃ row' : list Z, Evidence_Label G' !! 0%nat = Some row' ∧ length row' = 3%nat
  | Raise _ => False
  end.
Proof.
  destruct (update_evidence _ _ _ _ _) as [[G' st]|e] eqn:Hupd.
  - apply (proj1 (proj2 (update_evidence_rows (H := toy_externals) (args_with_top_k 2)
                           run_corpus run_model run_loader fresh_globals G' st Hupd))
             0%nat {| ex_id := [0; 1; 2]%nat; batch_size := 3 |}).
    + reflexivity.
    + reflexivity.
  - vm_compute in Hupd. discriminate Hupd.
Defined.

(** A second pass over the batch that the first has cached. *)
Lemma update_evidence_cached_witness :
  match update_evidence (H := toy_externals) (args_with_top_k 2) run_corpus run_model
          run_loader run_globals with
  | Ok (G', st) =>
      HasAnswer_Map G' = HasAnswer_Map run_globals
      ∧ matcher_calls G' = matcher_calls run_globals
  | Raise _ => False
  end.
Proof.
  destruct (update_evidence _ _ _ _ _) as [[G' st]|e] eqn:Hupd.
  - apply (update_evidence_cached (H := toy_externals) (args_with_top_k 2) run_corpus
             run_model run_loader run_globals G' st); [|exact Hupd].
    intros n Hn. simpl in Hn. replace n with 0%nat by lia. by eexists.
  - vm_compute in Hupd. discriminate Hupd.
Defined.

(** ** [train] *)

Lemma doc_map_from_notin (i : nat) (idx_random : list nat) (m : gmap Z Z) (k : Z) :
  (∀ d : nat, d ∈ idx_random → Z.of_nat d ≠ k) →
  doc_map_from i idx_random m !! k = m !! k.
Proof.
  revert i m. induction idx_random as [|d rest IH]; intros i m Hk; simpl; [done|].
  rewrite IH by (intros d' Hd'; apply Hk; by right).
  apply lookup_insert_ne. apply Hk. left.
Qed.

Lemma doc_map_from_lookup (i : nat) (idx_random : list nat) (m : gmap Z Z) (s d : nat) :
  NoDup idx_random → idx_random !! s = Some d →
  doc_map_from i idx_random m !! Z.of_nat d = Some (Z.of_nat (i + s)).
Proof.
  revert i m s. induction idx_random as [|d0 rest IH]; intros i m s Hnd Hs; [done|].
  apply NoDup_cons in Hnd as [Hd0 Hnd]. destruct s as [|s]; simpl in *.
  - injection Hs as ->. rewrite doc_map_from_notin.
    + rewrite lookup_insert_eq. f_equal. lia.
    + intros d' Hd' Heq. apply Nat2Z.inj in Heq as ->. done.
  - rewrite (IH (S i) _ s Hnd Hs). f_equal. lia.
Qed.

Lemma idx_doc_map_lookup (idx_random : list nat) (s d : nat) :
  NoDup idx_random → idx_random !! s = Some d →
  idx_doc_map idx_random !! Z.of_nat d = Some (Z.of_nat s).
Proof.
  intros Hnd Hs. unfold idx_doc_map. rewrite lookup_insert_ne by lia.
  by rewrite (doc_map_from_lookup 0 idx_random ∅ s d Hnd Hs).
Qed.

Lemma idx_doc_map_unknown (idx_random : list nat) (l : Z) :
  l ≠ -1 → (l < 0 ∨ Z.to_nat l ∉ idx_random) → idx_doc_map idx_random !! l = None.
Proof.
  intros Hl Hout. unfold idx_doc_map. rewrite lookup_insert_ne by done.
  rewrite doc_map_from_notin; [apply lookup_empty|].
  intros d Hd <-. destruct Hout as [?|Hout]; [lia|]. apply Hout. by rewrite Nat2Z.id.
Qed.

Lemma sample_rows_ok {X} (L : list X) (idx_random : list nat) (rows : list X) :
  sample_rows L idx_random = Ok rows →
  ∀ (s d : nat), idx_random !! s = Some d →
    ∃ row : X, L !! d = Some row ∧ rows !! s = Some row.
Proof.
  revert rows. induction idx_random as [|d0 rest IH]; intros rows; simpl.
  - intros _ s d Hs. by rewrite lookup_nil in Hs.
  - destruct (L !! d0) as [row|] eqn:Hrow; simpl; [|done].
    destruct (sample_rows L rest) as [rows'|e]; simpl; [|done].
    intros [= <-] [|s] d Hs; simpl in Hs.
    + injection Hs as <-. by exists row.
    + exact (IH rows' eq_refl s d Hs).
Qed.

Lemma sample_evidence_ok (m : gmap Z Z) (Evidence_list : list Z) (rng : list nat)
    (ss : list Z) :
  sample_evidence m Evidence_list rng = Ok ss →
  Forall2 (fun i s => ∃ l : Z, Evidence_list !! i = Some l ∧ m !! l = Some s) rng ss.
Proof.
  revert ss. induction rng as [|i rng IH]; intros ss; simpl.
  - intros [= <-]. constructor.
  - destruct (Evidence_list !! i) as [l|] eqn:Hl; simpl; [|done].
    destruct (m !! l) as [s|] eqn:Hs; simpl; [|done].
    destruct (sample_evidence m Evidence_list rng) as [ss'|e]; simpl; [|done].
    intros [= <-]. constructor; [by exists l|by apply IH].
Qed.

Lemma sample_evidence_raises (m : gmap Z Z) (Evidence_list : list Z) (rng : list nat) :
  (∀ j : nat, j ∈ rng → is_Some (Evidence_list !! j)) →
  (∃ (i : nat) (l : Z), i ∈ rng ∧ Evidence_list !! i = Some l ∧ m !! l = None) →
  sample_evidence m Evidence_list rng = Raise KeyError.
Proof.
  induction rng as [|j rng IH]; intros Hall (i & l & Hi & Hl & Hm).
  - by apply elem_of_nil in Hi.
  - simpl. destruct (Hall j) as [lj Hlj]; [left|]. rewrite Hlj. simpl.
    destruct (m !! lj) as [s|] eqn:Hs; simpl; [|done].
    rewrite IH; [done| |].
    + intros k Hk. apply Hall. by right.
    + apply elem_of_cons in Hi as [->|Hi]; [congruence|]. by exists i, l.
Qed.

Section train_props.
Context `{Externals}.
Variable args : Args.
Variable corpus : Corpus.
Variable draw : nat → list nat.
Variable validate : nat → result unit.

(** X16. One step of [train] hands the lists to the model in the order of
    the draw, and translates the evidence labels into this order: the slot
    [s] of [HasAnswer_list_sample] holds the row of the document
    [idx_random[s]]; an unlabeled example is passed as -1, and a label [l]
    is passed as the slot in which the document [l] has been drawn. *)
Theorem train_batch_sample (idx : nat) (b : Batch) (update_step : Z)
    (G G' : Globals) (c : TrainCall) :
  train_batch args corpus draw idx b update_step G = Ok (c, G') →
  NoDup (draw idx) →
  call_docs c = draw idx
  ∧ (∀ s d : nat, draw idx !! s = Some d →
      ∃ (g : grid) (row : list cell),
        HasAnswer_Map G' !! idx = Some g ∧ g !! d = Some row
        ∧ call_HasAnswer c !! s = Some row)
  ∧ (∀ i : nat, (i < batch_size b)%nat →
      ∃ l : Z, label (Evidence_Label G') idx i = Ok l
        ∧ ((l = -1 ∧ call_evidence c !! i = Some (-1))
           ∨ (0 <= l ∧ ∃ s : nat, call_evidence c !! i = Some (Z.of_nat s)
                                   ∧ draw idx !! s = Some (Z.to_nat l)))).
Proof.
  unfold train_batch. intros Hstep Hnd.
  destruct (visit args corpus idx b G) as [[g G1]|e] eqn:Hvisit; simpl in Hstep; [|done].
  destruct (init_evidence idx b (Evidence_Label G1) !! idx) as [Evidence_list|] eqn:HEl;
    simpl in Hstep; [|done].
  destruct (sample_rows _ _) as [rows|e] eqn:Hrows; simpl in Hstep; [|done].
  destruct (sample_evidence _ _ _) as [ss|e] eqn:Hss; simpl in Hstep; [|done].
  destruct (targets_of_docs _ _ _) as [ts|e]; simpl in Hstep; [|done].
  injection Hstep as <- <-. simpl. split_and!; [done| |].
  - intros s d Hs. destruct (sample_rows_ok _ _ _ Hrows s d Hs) as (row & Hrow & Hsample).
    exists g, row. split_and!; [|done|done]. by apply (visit_stored _ _ _ _ _ _ _ Hvisit).
  - intros i Hi. apply sample_evidence_ok in Hss.
    destruct (Forall2_lookup_l _ _ _ i i Hss) as (s & Hs & l & Hl & Hm).
    { apply lookup_seq. lia. }
    exists l. unfold label. rewrite HEl. simpl. rewrite Hl. split; [done|].
    unfold idx_doc_map in Hm. destruct (decide (l = -1)) as [->|Hne].
    + rewrite lookup_insert_eq in Hm. injection Hm as <-. by left.
    + right. rewrite lookup_insert_ne in Hm by done.
      assert (∀ (l0 : list nat) (i0 : nat) (m : gmap Z Z) (k v : Z),
                doc_map_from i0 l0 m !! k = Some v →
                m !! k = Some v
                ∨ ∃ s0 d0 : nat, l0 !! s0 = Some d0 ∧ k = Z.of_nat d0) as Hdom.
      { clear. induction l0 as [|d0 l0 IH]; intros i0 m k v Hk; [by left|].
        simpl in Hk. destruct (IH _ _ _ _ Hk) as [Hins|(s0 & d' & Hs0 & ->)].
        - destruct (decide (Z.of_nat d0 = k)) as [<-|Hne].
          + right. by exists 0%nat, d0.
          + left. by rewrite lookup_insert_ne in Hins.
        - right. by exists (S s0), d'. }
      destruct (Hdom _ _ _ _ _ Hm) as [?|(s0 & d0 & Hs0 & ->)]; [done|].
      split; [lia|]. rewrite (doc_map_from_lookup 0 _ ∅ s0 d0 Hnd Hs0) in Hm.
      injection Hm as <-. exists s0. rewrite Nat2Z.id. done.
Qed.

(** X17. A label that names no drawn document (a label of a round with
    more documents, for instance) has no translation: when the row of the
    batch is as long as the batch and an example of it holds a label other
    than -1 that is not among [idx_random], the translation of the labels
    raises [KeyError]. *)
Theorem sample_evidence_unknown_label (idx_random : list nat) (Evidence_list : list Z)
    (n i : nat) (l : Z) :
  (n <= length Evidence_list)%nat → (i < n)%nat →
  Evidence_list !! i = Some l → l ≠ -1 → (l < 0 ∨ Z.to_nat l ∉ idx_random) →
  sample_evidence (idx_doc_map idx_random) Evidence_list (seq 0 n) = Raise KeyError.
Proof.
  intros Hn Hi Hl Hne Hout. apply sample_evidence_raises.
  - intros j Hj. apply elem_of_seq in Hj. apply lookup_lt_is_Some_2. lia.
  - exists i, l. split_and!; [apply elem_of_seq; lia|done|].
    by apply idx_doc_map_unknown.
Qed.

Lemma train_loop_ok (idx : nat) (data_loader : list Batch) (update_step : Z)
    (G G' : Globals) (calls calls' : list TrainCall) :
  train_loop args corpus draw validate idx data_loader update_step G calls = Ok (calls', G') →
  0 <= update_step < 4 →
  (∃ new : list TrainCall,
      calls' = calls ++ new ∧ length new = length data_loader
      ∧ ∀ (k : nat) (c : TrainCall), new !! k = Some c →
          call_step c = (update_step + Z.of_nat k) mod 4)
  ∧ Evidence_Label G' = pass_labels idx data_loader (Evidence_Label G)
  ∧ (cache_inv G → cache_inv G')
  ∧ (∀ (j : nat) (gj : grid),
        HasAnswer_Map G !! j = Some gj → HasAnswer_Map G' !! j = Some gj)
  ∧ (∀ n : nat, (n < length data_loader)%nat → is_Some (HasAnswer_Map G' !! (idx + n)%nat)).
Proof.
  revert idx update_step G calls.
  induction data_loader as [|b rest IH]; intros idx update_step G calls; cbn [train_loop].
  - intros [= <- <-] Hstep. split_and!; [|done|done|done|intros n Hn; simpl in Hn; lia].
    exists []. rewrite app_nil_r. split_and!; [done|done|]. by intros k c ?.
  - intros Hloop Hstep.
    destruct (train_batch args corpus draw idx b update_step G) as [[c G1]|e] eqn:Hb;
      cbn [mbind result_bind] in Hloop; [|done].
    destruct (if decide (idx mod 200 = 199)%nat then validate idx else Ok ()) as [[]|e];
      cbn [mbind result_bind] in Hloop; [|done].
    destruct (IH _ _ _ _ Hloop) as ((new & -> & Hlen & Hsteps) & HEL & Hinv & Hkeep & Hcached).
    { apply Z.mod_pos_bound. lia. }
    unfold train_batch in Hb.
    destruct (visit args corpus idx b G) as [[g G0]|e] eqn:Hvisit; simpl in Hb; [|done].
    destruct (init_evidence idx b (Evidence_Label G0) !! idx); simpl in Hb; [|done].
    destruct (sample_rows _ _) as [rows|e]; simpl in Hb; [|done].
    destruct (sample_evidence _ _ _) as [ss|e]; simpl in Hb; [|done].
    destruct (targets_of_docs _ _ _) as [ts|e]; simpl in Hb; [|done].
    injection Hb as <- <-. simpl in *.
    split_and!.
    + exists ({| call_step := update_step; call_docs := draw idx; call_HasAnswer := rows;
                 call_targets := ts; call_evidence := ss |} :: new).
      rewrite <- app_assoc. split_and!; [done|simpl; by rewrite Hlen|].
      intros [|k] c Hc; simpl in Hc.
      * injection Hc as <-. simpl. rewrite Z.add_0_r. symmetry. apply Z.mod_small. lia.
      * rewrite (Hsteps k c Hc). rewrite Zplus_mod_idemp_l. f_equal. lia.
    + rewrite HEL. by rewrite (visit_labels _ _ _ _ _ _ _ Hvisit).
    + intros HG. apply Hinv. split; [|]; simpl.
      * by destruct (visit_inv _ _ _ _ _ _ _ Hvisit HG).
      * by destruct (visit_inv _ _ _ _ _ _ _ Hvisit HG).
    + intros j gj Hj. apply Hkeep. by apply (visit_keeps _ _ _ _ _ _ _ Hvisit).
    + intros [|n] Hn.
      * rewrite Nat.add_0_r. apply mk_is_Some with g. apply Hkeep.
        by apply (visit_stored _ _ _ _ _ _ _ Hvisit).
      * replace (idx + S n)%nat with (S idx + n)%nat by lia. apply Hcached. lia.
Qed.

(** X18. The step counter that [train] hands to the model cycles with
    period 4: there is one call for each batch, and the call for the batch
    of index [k] carries the step [k mod 4]. *)
Theorem train_update_step (data_loader : list Batch) (G G' : Globals)
    (calls : list TrainCall) :
  train args corpus draw validate data_loader G = Ok (calls, G') →
  length calls = length data_loader
  ∧ ∀ (k : nat) (c : TrainCall), calls !! k = Some c → call_step c = Z.of_nat k mod 4.
Proof.
  intros Htrain. destruct (train_loop_ok _ _ _ _ _ _ _ Htrain) as ((new & -> & Hlen & Hsteps) & _);
    [lia|].
  split; [done|]. intros k c Hc. by rewrite (Hsteps k c Hc).
Qed.

(** X19. An epoch of [train] changes no evidence label: it only creates,
    filled with -1, the rows of the batches that had none.  It leaves every
    batch of the loader in [HasAnswer_Map], so that the evidence pass that
    follows it over the same loader calls the matcher for no cell. *)
Theorem train_then_update_evidence (model : nat → ModelOut) (data_loader : list Batch)
    (G G1 : Globals) (calls : list TrainCall) :
  train args corpus draw validate data_loader G = Ok (calls, G1) →
  Evidence_Label G1 = pass_labels 0 data_loader (Evidence_Label G)
  ∧ (∀ (idx i : nat) (v : Z),
        label (Evidence_Label G) idx i = Ok v → label (Evidence_Label G1) idx i = Ok v)
  ∧ ∀ (G2 : Globals) (st : Promotion),
      update_evidence args corpus model data_loader G1 = Ok (G2, st) →
      HasAnswer_Map G2 = HasAnswer_Map G1 ∧ matcher_calls G2 = matcher_calls G1.
Proof.
  intros Htrain.
  destruct (train_loop_ok _ _ _ _ _ _ _ Htrain) as (_ & HEL & _ & _ & Hcached); [lia|].
  split_and!; [done| |].
  - intros idx i v Hv. rewrite HEL.
    destruct (pass_labels_spec 0 data_loader (Evidence_Label G)) as (Hkeep & _).
    unfold label in *. destruct (Evidence_Label G !! idx) as [row|] eqn:Hrow; [|done].
    by rewrite (Hkeep _ _ Hrow).
  - intros G2 st. unfold update_evidence.
    destruct (evidence_pass _ _ _ _ _ _ _ _) as [[[G3 P] A]|e] eqn:Hpass; simpl; [|done].
    destruct (promote _ _ _ _) as [st1|e]; simpl; [|done].
    intros [= <- <-]. simpl. eapply evidence_pass_cached; [|exact Hpass]. exact Hcached.
Qed.

End train_props.

(** A step on a batch whose first question is labelled with the document 1,
    drawn in the slot 2. *)
Lemma train_batch_sample_witness :
  match train_batch (H := toy_externals) (args_with_top_k 2) run_corpus run_draw 0
          {| ex_id := [0; 1; 2]%nat; batch_size := 3 |} 0 labelled_globals with
  | Ok (c, G') =>
      call_docs c = run_draw 0
      ∧ (∀ s d : nat, run_draw 0 !! s = Some d →
          ∃ (g : grid) (row : list cell),
            HasAnswer_Map G' !! 0%nat = Some g ∧ g !! d = Some row
            ∧ call_HasAnswer c !! s = Some row)
      ∧ (∀ i : nat, (i < 3)%nat →
          ∃ l : Z, label (Evidence_Label G') 0 i = Ok l
            ∧ ((l = -1 ∧ call_evidence c !! i = Some (-1))
               ∨ (0 <= l ∧ ∃ s : nat, call_evidence c !! i = Some (Z.of_nat s)
                                       ∧ run_draw 0 !! s = Some (Z.to_nat l))))
  | Raise _ => False
  end.
Proof.
  destruct (train_batch _ _ _ _ _ _ _) as [[c G']|e] eqn:Hstep.
  - apply (train_batch_sample (H := toy_externals) (args_with_top_k 2) run_corpus run_draw 0
             {| ex_id := [0; 1; 2]%nat; batch_size := 3 |} 0 labelled_globals G' c Hstep).
    unfold run_draw. compute_done.
  - vm_compute in Hstep. discriminate Hstep.
Defined.

(** The label 5 when the documents 2, 0 and 1 have been drawn. *)
Lemma sample_evidence_unknown_label_witness :
  sample_evidence (idx_doc_map [2; 0; 1]%nat) [5; -1; -1] (seq 0 3) = Raise KeyError.
Proof.
  apply (sample_evidence_unknown_label [2; 0; 1]%nat [5; -1; -1] 3 0 5).
  - simpl. lia.
  - lia.
  - reflexivity.
  - lia.
  - right. compute_done.
Defined.

(** Five batches: the steps 0, 1, 2, 3, 0. *)
Lemma train_update_step_witness :
  match train (H := toy_externals) (args_with_top_k 2) run_corpus run_draw run_validate
          five_batches fresh_globals with
  | Ok (calls, G') =>
      length calls = length five_batches
      ∧ ∀ (k : nat) (c : TrainCall), calls !! k = Some c → call_step c = Z.of_nat k mod 4
  | Raise _ => False
  end.
Proof.
  destruct (train _ _ _ _ _ _) as [[calls G']|e] eqn:Htrain.
  - exact (train_update_step (H := toy_externals) (args_with_top_k 2) run_corpus run_draw
             run_validate five_batches fresh_globals G' calls Htrain).
  - vm_compute in Htrain. discriminate Htrain.
Defined.

(** An epoch over the small loader, then the evidence pass. *)
Lemma train_then_update_evidence_witness :
  match train (H := toy_externals) (args_with_top_k 2) run_corpus run_draw run_validate
          run_loader fresh_globals with
  | Ok (calls, G1) =>
      Evidence_Label G1 = pass_labels 0 run_loader (Evidence_Label fresh_globals)
      ∧ (∀ (idx i : nat) (v : Z),
            label (Evidence_Label fresh_globals) idx i = Ok v →
            label (Evidence_Label G1) idx i = Ok v)
      ∧ ∀ (G2 : Globals) (st : Promotion),
          update_evidence (H := toy_externals) (args_with_top_k 2) run_corpus run_model
            run_loader G1 = Ok (G2, st) →
          HasAnswer_Map G2 = HasAnswer_Map G1 ∧ matcher_calls G2 = matcher_calls G1
  | Raise _ => False
  end.
Proof.
  destruct (train _ _ _ _ _ _) as [[calls G1]|e] eqn:Htrain.
  - exact (train_then_update_evidence (H := toy_externals) (args_with_top_k 2) run_corpus
             run_draw run_validate run_model run_loader fresh_globals G1 calls Htrain).
  - vm_compute in Htrain. discriminate Htrain.
Defined.

(** ** [pretrain_reader] *)

Section reader_props.
Context `{Externals} `{N : Number}.
Variable args : Args.
Variable corpus : Corpus.
Variable predict : nat → nat → Prediction.

Lemma has_answer_wf (answer : list pyans) (t : list string) (c : cell) :
  has_answer args answer t = Ok c → cell_wf c.
Proof.
  unfold has_answer, cell_wf. destruct (decide (dataset args = "CuratedTrec")) as [Htrec|Htrec].
  - destruct (_ ≫= _) as [r|]; [|by intros [= <-]].
    destruct (regex_spans _ _ _) as [res|x]; simpl; [|done].
    intros [= <-]. by rewrite finish_spec.
  - intros [= <-]. by rewrite finish_spec.
Qed.

Lemma has_answer_cell_wf (b : Batch) (idx_doc i : nat) (c : cell) :
  has_answer_cell args corpus b idx_doc i = Ok c → cell_wf c.
Proof.
  unfold has_answer_cell.
  destruct (ex_id b !! i) as [q|]; simpl; [|done].
  destruct (exs_with_doc corpus !! q) as [ex|]; simpl; [|done].
  destruct (docs_by_question corpus !! q) as [pool|]; simpl; [|done].
  destruct (decide (length pool = 0%nat)); [done|].
  destruct (pool !! _) as [doc|]; simpl; [|done].
  apply has_answer_wf.
Qed.

Lemma visit_wf (idx : nat) (b : Batch) (G G' : Globals) (g : grid) :
  visit args corpus idx b G = Ok (g, G') → cache_wf G →
  cache_wf G' ∧ Forall (Forall cell_wf) g.
Proof.
  intros Hvisit HG. destruct (HasAnswer_Map G !! idx) as [g0|] eqn:Hidx.
  - rewrite (visit_hit _ _ _ _ _ _ Hidx) in Hvisit. injection Hvisit as <- <-.
    split; [done|]. by apply (HG idx).
  - destruct (visit_miss _ _ _ _ _ _ _ Hidx Hvisit) as (Hmap & _ & Hmade).
    assert (Forall (Forall cell_wf) g) as Hg.
    { apply Forall_forall. intros row Hrow. apply list_elem_of_lookup in Hrow as [d Hd].
      destruct (Forall2_lookup_r _ _ _ _ _ Hmade Hd) as (idx_doc & _ & Hcells).
      apply Forall_forall. intros c Hc. apply list_elem_of_lookup in Hc as [i Hi].
      destruct (Forall2_lookup_r _ _ _ _ _ Hcells Hi) as (i' & _ & Hcell).
      by apply has_answer_cell_wf in Hcell. }
    split; [|done]. intros j gj. rewrite Hmap.
    destruct (decide (j = idx)) as [->|Hne].
    + rewrite lookup_insert_eq. by intros [= <-].
    + rewrite lookup_insert_ne by done. apply HG.
Qed.

(** A visit changes the cache at the index of its batch only. *)
Lemma visit_other (idx : nat) (b : Batch) (G G' : Globals) (g : grid) (j : nat) :
  visit args corpus idx b G = Ok (g, G') → j ≠ idx →
  HasAnswer_Map G' !! j = HasAnswer_Map G !! j.
Proof.
  intros Hvisit Hne. destruct (HasAnswer_Map G !! idx) as [g0|] eqn:Hidx.
  - rewrite (visit_hit _ _ _ _ _ _ Hidx) in Hvisit. by injection Hvisit as <- <-.
  - destruct (visit_miss _ _ _ _ _ _ _ Hidx Hvisit) as (-> & _).
    by rewrite lookup_insert_ne.
Qed.

(** The grid of a first visit: the cell of the slot [d] and the example [i]
    is what the matcher returns for them. *)
Lemma visit_miss_cell (idx : nat) (b : Batch) (G G' : Globals) (g : grid)
    (d i : nat) (row : list cell) (c : cell) :
  HasAnswer_Map G !! idx = None →
  visit args corpus idx b G = Ok (g, G') →
  g !! d = Some row → row !! i = Some c →
  has_answer_cell args corpus b d i = Ok c.
Proof.
  intros Hmiss Hvisit Hd Hi.
  destruct (visit_miss _ _ _ _ _ _ _ Hmiss Hvisit) as (_ & _ & Hmade).
  destruct (Forall2_lookup_r _ _ _ _ _ Hmade Hd) as (d' & Hd' & Hcells).
  destruct (Forall2_lookup_r _ _ _ _ _ Hcells Hi) as (i' & Hi' & Hcell).
  apply lookup_seq in Hd' as [-> _]. apply lookup_seq in Hi' as [-> _]. done.
Qed.

Lemma reader_row_ok (g : grid) (p : Prediction) (idx_doc : nat) (rng : list nat)
    (count_ans count_tot count_ans' count_tot' : Z) (l_list l_list' : list (list span)) :
  Forall (Forall cell_wf) g →
  reader_row g p idx_doc rng count_ans count_tot l_list
    = Ok (count_ans', count_tot', l_list') →
  ∃ new : list (list span),
    l_list' = l_list ++ new
    ∧ Forall2 (fun (i : nat) (l : list span) =>
                 ∃ c : cell,
                   (g !! idx_doc ≫= fun row : list cell => row !! i) = Some c
                   ∧ reader_target p i c l) rng new
    ∧ Forall (fun l => l ≠ []) new
    ∧ 0 <= count_tot' - count_tot <= count_ans' - count_ans.
Proof.
  intros Hg. revert count_ans count_tot l_list.
  induction rng as [|i rng IH]; intros count_ans count_tot l_list; cbn [reader_row].
  - intros [= <- <- <-]. exists []. rewrite app_nil_r.
    split_and!; [done|constructor|constructor|lia|lia].
  - destruct (g !! idx_doc ≫= _) as [[flag spans]|] eqn:Hcell; simpl; [|done].
    assert (cell_wf (flag, spans)) as Hwf.
    { destruct (g !! idx_doc) as [row|] eqn:Hrow; simpl in Hcell; [|done].
      eapply Forall_lookup_1; [|exact Hcell]. eapply Forall_lookup_1; [exact Hg|exact Hrow]. }
    unfold cell_wf in Hwf. simpl in Hwf. destruct flag.
    + intros Hrow. destruct (IH _ _ _ Hrow) as (new & -> & Hnew & Hne & Hcount).
      symmetry in Hwf. apply bool_decide_eq_true in Hwf.
      exists (spans :: new). rewrite <- app_assoc. split_and!; [done| | |lia|].
      * constructor; [|done]. by exists (true, spans).
      * by constructor.
      * destruct spans; [done|]. simpl length in Hcount. lia.
    + destruct (at2 (pred_s p) i 0) as [s0|x] eqn:Hs0; simpl; [|done].
      destruct (at2 (pred_e p) i 0) as [e0|x] eqn:He0; simpl; [|done].
      intros Hrow. destruct (IH _ _ _ Hrow) as (new & -> & Hnew & Hne & Hcount).
      exists ([(s0, e0)] :: new). rewrite <- app_assoc. split_and!; [done| | |lia|lia].
      * constructor; [|done]. exists (false, spans). split; [done|].
        unfold reader_target. simpl. by exists s0, e0.
      * by constructor.
Qed.

Lemma reader_docs_ok (idx : nat) (b : Batch) (g : grid) (ds : list nat)
    (count_ans count_tot count_ans' count_tot' : Z) (calls calls' : list ReaderCall) :
  Forall (Forall cell_wf) g →
  reader_docs predict idx b g ds count_ans count_tot calls
    = Ok (count_ans', count_tot', calls') →
  ∃ new : list ReaderCall,
    calls' = calls ++ new
    ∧ Forall2 (fun idx_doc c =>
                 reader_doc c = idx_doc
                 ∧ g !! idx_doc = Some (reader_HasAnswer c)
                 ∧ Forall2 (fun (i : nat) (l : list span) =>
                              ∃ cl : cell,
                                reader_HasAnswer c !! i = Some cl
                                ∧ reader_target (predict idx idx_doc) i cl l)
                           (seq 0 (batch_size b)) (reader_targets c)
                 ∧ Forall (fun l => l ≠ []) (reader_targets c)) ds new
    ∧ 0 <= count_tot' - count_tot <= count_ans' - count_ans.
Proof.
  intros Hg. revert count_ans count_tot calls.
  induction ds as [|d ds IH]; intros count_ans count_tot calls; cbn [reader_docs].
  - intros [= <- <- <-]. exists []. rewrite app_nil_r. split_and!; [done|constructor|lia|lia].
  - destruct (reader_row _ _ _ _ _ _ _) as [[[ca1 ct1] l_list]|e] eqn:Hrow;
      cbn [mbind result_bind]; [|done].
    destruct (g !! d) as [row|] eqn:Hd; cbn [of_option mbind result_bind]; [|done].
    intros Hdocs. destruct (IH _ _ _ Hdocs) as (new & -> & Hnew & Hcount).
    destruct (reader_row_ok _ _ _ _ _ _ _ _ _ _ Hg Hrow) as (l & Hl & Hcells & Hne & Hcount1).
    simpl in Hl. subst l.
    eexists (_ :: new). rewrite <- app_assoc. split_and!; [done| |lia|lia].
    constructor; [|done]. simpl. split_and!; [done|done| |done].
    eapply Forall2_impl; [exact Hcells|].
    intros i l (cl & Hcl & Ht). exists cl. split; [|done].
    unfold grid, cell in *. rewrite Hd in Hcl. exact Hcl.
Qed.

Lemma reader_loop_ok (idx : nat) (data_loader : list Batch) (G G' : Globals)
    (count_ans count_tot count_ans' count_tot' : Z) (calls calls' : list ReaderCall) :
  cache_wf G →
  reader_loop args corpus predict idx data_loader G count_ans count_tot calls
    = Ok (G', count_ans', count_tot', calls') →
  cache_wf G'
  ∧ Evidence_Label G' = Evidence_Label G
  ∧ 0 <= count_tot' - count_tot <= count_ans' - count_ans
  ∧ (∀ (j : nat) (gj : grid),
        HasAnswer_Map G !! j = Some gj → HasAnswer_Map G' !! j = Some gj)
  ∧ ∃ new : list ReaderCall,
      calls' = calls ++ new
      ∧ length new = (length data_loader * num_docs corpus)%nat
      ∧ Forall (fun c => Forall (fun l => l ≠ []) (reader_targets c)) new
      ∧ ∀ (n : nat) (b : Batch) (d : nat),
          data_loader !! n = Some b → (d < num_docs corpus)%nat →
          ∃ (c : ReaderCall) (g : grid),
            new !! (n * num_docs corpus + d)%nat = Some c
            ∧ reader_doc c = d
            ∧ HasAnswer_Map G' !! (idx + n)%nat = Some g
            ∧ g !! d = Some (reader_HasAnswer c)
            ∧ (HasAnswer_Map G !! (idx + n)%nat = None →
               ∀ (i : nat) (cl : cell), reader_HasAnswer c !! i = Some cl →
                 has_answer_cell args corpus b d i = Ok cl)
            ∧ Forall2 (fun (i : nat) (l : list span) =>
                         ∃ cl : cell,
                           reader_HasAnswer c !! i = Some cl
                           ∧ reader_target (predict (idx + n)%nat d) i cl l)
                      (seq 0 (batch_size b)) (reader_targets c).
Proof.
  revert idx G count_ans count_tot calls.
  induction data_loader as [|b rest IH]; intros idx G count_ans count_tot calls HG;
    cbn [reader_loop].
  - intros [= <- <- <- <-]. split_and!; [done|done|lia|lia|done|].
    exists []. rewrite app_nil_r. split_and!; [done|done|constructor|].
    intros n b d Hn. by rewrite lookup_nil in Hn.
  - destruct (visit args corpus idx b G) as [[g G1]|e] eqn:Hvisit; cbn [mbind result_bind]; [|done].
    destruct (visit_wf _ _ _ _ _ Hvisit HG) as [HG1 Hg].
    destruct (reader_docs _ _ _ _ _ _ _ _) as [[[ca1 ct1] calls1]|e] eqn:Hdocs;
      cbn [mbind result_bind]; [|done].
    intros Hloop.
    destruct (IH _ _ _ _ _ HG1 Hloop)
      as (HG' & HEL & Hcount & Hkeep & new & -> & Hlen & Hne & Hcalls).
    destruct (reader_docs_ok _ _ _ _ _ _ _ _ _ _ Hg Hdocs) as (new1 & -> & Hnew1 & Hcount1).
    assert (length new1 = num_docs corpus) as Hlen1.
    { by rewrite <- (Forall2_length _ _ _ Hnew1), length_seq. }
    split_and!; [done| |lia|lia| |].
    + rewrite HEL. by rewrite (visit_labels _ _ _ _ _ _ _ Hvisit).
    + intros j gj Hj. apply Hkeep. by apply (visit_keeps _ _ _ _ _ _ _ Hvisit).
    + exists (new1 ++ new). rewrite app_assoc. split_and!; [done| | |].
      * rewrite length_app, Hlen, Hlen1. simpl. lia.
      * apply Forall_app. split; [|done].
        apply Forall_forall. intros c Hc. apply list_elem_of_lookup in Hc as [k Hk].
        by destruct (Forall2_lookup_r _ _ _ _ _ Hnew1 Hk) as (d & _ & _ & _ & _ & ?).
      * intros n b' d Hn Hd. destruct n as [|n]; simpl in Hn.
        -- injection Hn as <-. rewrite Nat.add_0_r. simpl.
           assert (seq 0 (num_docs corpus) !! d = Some d) as Hseq by by apply lookup_seq.
           destruct (Forall2_lookup_l _ _ _ _ _ Hnew1 Hseq) as (c & Hc & Hdoc & Hrow & Hts & _).
           exists c, g. split_and!; [|done| |done| |done].
           ++ rewrite lookup_app_l by lia. done.
           ++ apply Hkeep. by apply (visit_stored _ _ _ _ _ _ _ Hvisit).
           ++ intros Hmiss i cl Hcl.
              by apply (visit_miss_cell idx b G G1 g d i (reader_HasAnswer c) cl).
        -- destruct (Hcalls n b' d Hn Hd) as (c & g' & Hc & Hdoc & Hg' & Hrow & Hmade & Hts).
           replace (idx + S n)%nat with (S idx + n)%nat by lia.
           exists c, g'. split_and!; [|done|done|done| |done].
           ++ rewrite lookup_app_r by (rewrite Hlen1; simpl; lia).
              rewrite Hlen1. rewrite <- Hc. f_equal. simpl. lia.
           ++ intros Hmiss. apply Hmade.
              rewrite (visit_other _ _ _ _ _ _ Hvisit) by lia. done.
Qed.

(** X20. [pretrain_reader] calls [model.update] once for each batch and
    document slot, in the order of the loops, with the row of the grid of
    the batch for this slot, which is the answer of the matcher when the
    batch was not in the cache.  The targets of an example are the spans of
    its cell when the cell holds an answer, and otherwise the one span of
    the top prediction of the model for this batch and slot; they are never
    empty.  The counter [count_ans] is at least [count_tot], and no
    evidence label is changed. *)
Theorem pretrain_reader_targets (data_loader : list Batch) (G G' : Globals)
    (count_ans count_tot : Z) (calls : list ReaderCall) :
  cache_wf G →
  pretrain_reader args corpus predict data_loader G = Ok (G', count_ans, count_tot, calls) →
  length calls = (length data_loader * num_docs corpus)%nat
  ∧ (∀ (n : nat) (b : Batch) (d : nat),
        data_loader !! n = Some b → (d < num_docs corpus)%nat →
        ∃ (c : ReaderCall) (g : grid),
          calls !! (n * num_docs corpus + d)%nat = Some c
          ∧ reader_doc c = d
          ∧ HasAnswer_Map G' !! n = Some g
          ∧ g !! d = Some (reader_HasAnswer c)
          ∧ length (reader_targets c) = batch_size b
          ∧ ∀ i : nat, (i < batch_size b)%nat →
              ∃ (cl : cell) (l : list span),
                reader_HasAnswer c !! i = Some cl
                ∧ reader_targets c !! i = Some l
                ∧ (if cl.1 then l = cl.2
                   else ∃ s e : Z, at2 (pred_s (predict n d)) i 0 = Ok s
                                   ∧ at2 (pred_e (predict n d)) i 0 = Ok e
                                   ∧ l = [(s, e)])
                ∧ (HasAnswer_Map G !! n = None →
                   has_answer_cell args corpus b d i = Ok cl))
  ∧ (∀ (c : ReaderCall) (l : list span), c ∈ calls → l ∈ reader_targets c → l ≠ [])
  ∧ 0 <= count_tot <= count_ans
  ∧ Evidence_Label G' = Evidence_Label G
  ∧ cache_wf G'.
Proof.
  intros HG Hrun.
  destruct (reader_loop_ok _ _ _ _ _ _ _ _ _ _ HG Hrun)
    as (HG' & HEL & Hcount & _ & new & -> & Hlen & Hne & Hcalls).
  simpl. split_and!; [done| | |lia|lia|done|done].
  - intros n b d Hn Hd.
    destruct (Hcalls n b d Hn Hd) as (c & g & Hc & Hdoc & Hg & Hrow & Hmade & Hts).
    exists c, g. simpl in Hg.
    split_and!; [done|done|done|done| |].
    + by rewrite <- (Forall2_length _ _ _ Hts), length_seq.
    + intros i Hi.
      assert (seq 0 (batch_size b) !! i = Some i) as Hseq by by apply lookup_seq.
      destruct (Forall2_lookup_l _ _ _ _ _ Hts Hseq) as (l & Hl & cl & Hcl & Ht).
      exists cl, l. split_and!; [done|done|exact Ht|].
      intros Hmiss. by apply Hmade.
  - intros c l Hc Hl. rewrite Forall_forall in Hne. specialize (Hne c Hc).
    rewrite Forall_forall in Hne. by apply Hne.
Qed.

End reader_props.

(** ** [pretrain_selector] *)

Lemma lookup_map {A B} (f : A → B) (l : list A) (i : nat) :
  map f l !! i = f <$> l !! i.
Proof. revert i. induction l as [|a l IH]; intros [|i]; simpl; auto. Qed.

Lemma py_targets_of_docs_pairs (g : grid) (idx_random : list nat) (batch_size : nat) :
  py_targets_of_docs (map (map Pair) g) idx_random batch_size
  = targets_of_docs g idx_random batch_size.
Proof.
  assert (∀ (idx_doc : nat) (rng : list nat),
            py_targets_of_row (map (map Pair) g) idx_doc rng = targets_of_row g idx_doc rng)
    as Hrow.
  { intros idx_doc rng. induction rng as [|i rng IH]; [done|].
    cbn [py_targets_of_row targets_of_row]. rewrite IH. unfold pygrid, grid, cell in *.
    rewrite lookup_map. destruct (g !! idx_doc) as [row|]; simpl; [|done].
    rewrite lookup_map. by destruct (row !! i) as [[flag spans]|]. }
  induction idx_random as [|d ds IH]; [done|].
  cbn [py_targets_of_docs targets_of_docs]. by rewrite Hrow, IH.
Qed.

Lemma sample_rows_total {X} (L : list X) (idx_random : list nat) :
  (∀ d : nat, d ∈ idx_random → is_Some (L !! d)) →
  ∃ rows : list X, sample_rows L idx_random = Ok rows.
Proof.
  intros Hall. induction idx_random as [|d ds IH]; simpl.
  - by exists [].
  - destruct (Hall d) as [row Hrow]; [left|]. rewrite Hrow. simpl.
    destruct IH as [rows ->]; [intros d' Hd'; apply Hall; by right|]. simpl. by eexists.
Qed.

Lemma count_row_ok (g : pygrid) (idx_doc : nat) (rng : list nat)
    (tot_ans tot_num tot_ans' tot_num' : Z) :
  count_row g idx_doc rng tot_ans tot_num = Ok (tot_ans', tot_num') →
  tot_num' = tot_num + Z.of_nat (length rng)
  ∧ 0 <= tot_ans' - tot_ans <= Z.of_nat (length rng)
  ∧ ∀ i : nat, i ∈ rng →
      ∃ has_a : bool, g !! idx_doc ≫= (fun row : list pycell => row !! i) = Some (Flag has_a).
Proof.
  revert tot_ans tot_num. induction rng as [|i rng IH]; intros tot_ans tot_num; cbn [count_row].
  - intros [= <- <-]. simpl. split_and!; [lia|lia|lia|]. intros i Hi. by apply elem_of_nil in Hi.
  - destruct (g !! idx_doc ≫= _) as [c|] eqn:Hc; cbn [of_option mbind result_bind]; [|done].
    destruct c as [c|has_a]; cbn [add_cell mbind result_bind]; [done|].
    intros Hrow. destruct (IH _ _ Hrow) as (-> & Hans & Hcells).
    cbn [length]. split_and!; [lia|destruct has_a; lia|destruct has_a; lia|].
    intros j Hj. apply elem_of_cons in Hj as [->|Hj]; [by exists has_a|by apply Hcells].
Qed.

Lemma count_grid_ok (g : pygrid) (ds : list nat) (batch_size : nat)
    (tot_ans tot_num tot_ans' tot_num' : Z) :
  count_grid g ds batch_size tot_ans tot_num = Ok (tot_ans', tot_num') →
  tot_num' = tot_num + Z.of_nat (length ds * batch_size)
  ∧ 0 <= tot_ans' - tot_ans <= Z.of_nat (length ds * batch_size)
  ∧ ∀ d i : nat, d ∈ ds → (i < batch_size)%nat →
      ∃ has_a : bool, g !! d ≫= (fun row : list pycell => row !! i) = Some (Flag has_a).
Proof.
  revert tot_ans tot_num. induction ds as [|d ds IH]; intros tot_ans tot_num; cbn [count_grid].
  - intros [= <- <-]. simpl. split_and!; [lia|lia|lia|]. intros d i Hd. by apply elem_of_nil in Hd.
  - destruct (count_row _ _ _ _ _) as [[ta1 tn1]|e] eqn:Hrow; cbn [mbind result_bind]; [|done].
    intros Hgrid. destruct (IH _ _ Hgrid) as (-> & Hans & Hcells).
    destruct (count_row_ok _ _ _ _ _ _ _ Hrow) as (-> & Hans1 & Hcells1).
    rewrite length_seq in *. cbn [length]. split_and!; [lia|lia|lia|].
    intros d' i Hd' Hi. apply elem_of_cons in Hd' as [->|Hd'].
    + apply Hcells1. apply elem_of_seq. lia.
    + by apply Hcells.
Qed.

Section selector_props.
Context `{Externals}.
Variable args : Args.
Variable corpus : Corpus.
Variable draw : nat → list nat.
Variable display_iter : Z.

Lemma flag_row_ok (b : Batch) (idx_doc : nat) (rng : list nat) (acc row : list pycell) :
  flag_row args corpus b idx_doc rng acc = Ok row →
  Forall is_flag acc → Forall is_flag row.
Proof.
  revert acc. induction rng as [|i rng IH]; intros acc; cbn [flag_row].
  - by intros [= <-].
  - destruct (has_answer_cell args corpus b idx_doc i) as [[has_a a_l]|e];
      cbn [mbind result_bind]; [|done].
    intros Hrow Hacc. apply (IH _ Hrow). apply Forall_app. split; [done|]. by repeat constructor.
Qed.

Lemma flag_grid_ok (b : Batch) (ds : list nat) (acc g : pygrid) :
  flag_grid args corpus b ds acc = Ok g →
  Forall (Forall is_flag) acc → Forall (Forall is_flag) g.
Proof.
  revert acc. induction ds as [|d ds IH]; intros acc; cbn [flag_grid].
  - by intros [= <-].
  - destruct (flag_row _ _ _ _ _ _) as [row|e] eqn:Hrow; cbn [mbind result_bind]; [|done].
    intros Hgrid Hacc. apply (IH _ Hgrid). apply Forall_app. split; [done|].
    constructor; [|done]. apply (flag_row_ok _ _ _ _ _ Hrow). constructor.
Qed.

Lemma selector_visit_ok (idx : nat) (b : Batch) (M M' : gmap nat pygrid) (g : pygrid) :
  selector_visit args corpus idx b M = Ok (g, M') → flags_only M →
  flags_only M' ∧ M' !! idx = Some g
  ∧ ∀ (j : nat) (gj : pygrid), M !! j = Some gj → M' !! j = Some gj.
Proof.
  unfold selector_visit. destruct (M !! idx) as [g0|] eqn:Hidx.
  - intros [= <- <-] HM. by split_and!.
  - destruct (flag_grid _ _ _ _ _) as [g1|e] eqn:Hgrid; cbn [mbind result_bind]; [|done].
    intros [= <- <-] HM. split_and!.
    + intros j gj. destruct (decide (j = idx)) as [->|Hne].
      * rewrite lookup_insert_eq. intros [= <-]. apply (flag_grid_ok _ _ _ _ Hgrid). constructor.
      * rewrite lookup_insert_ne by done. apply HM.
    + apply lookup_insert_eq.
    + intros j gj Hj. rewrite lookup_insert_ne; [done|]. intros ->. congruence.
Qed.

Lemma selector_loop_ok (idx : nat) (data_loader : list Batch) (st st' : SelectorState) :
  selector_loop args corpus draw display_iter idx data_loader st = Ok st' →
  flags_only (sel_Map st) →
  flags_only (sel_Map st')
  ∧ sel_tot_num st'
    = sel_tot_num st + Z.of_nat (num_docs corpus * sum_list (batch_size <$> data_loader))
  ∧ 0 <= sel_tot_ans st' - sel_tot_ans st <= sel_tot_num st' - sel_tot_num st
  ∧ length (sel_calls st') = (length (sel_calls st) + length data_loader)%nat
  ∧ (∀ (j : nat) (gj : pygrid), sel_Map st !! j = Some gj → sel_Map st' !! j = Some gj)
  ∧ (∀ n : nat, (n < length data_loader)%nat → is_Some (sel_Map st' !! (idx + n)%nat)).
Proof.
  revert idx st. induction data_loader as [|b rest IH]; intros idx st; cbn [selector_loop].
  - intros [= <-] HM. split_and!; [done|simpl; lia|lia|lia|simpl; lia|done|].
    intros n Hn. simpl in Hn. lia.
  - destruct (selector_visit _ _ _ _ _) as [[g M1]|e] eqn:Hvisit; cbn [mbind result_bind]; [|done].
    destruct (count_grid _ _ _ _ _) as [[ta1 tn1]|e] eqn:Hcount; cbn [mbind result_bind]; [|done].
    destruct (sample_rows _ _) as [rows|e]; cbn [mbind result_bind]; [|done].
    destruct (selector_log _ _ _) as [[]|e]; cbn [mbind result_bind]; [|done].
    intros Hloop HM.
    destruct (selector_visit_ok _ _ _ _ _ Hvisit HM) as (HM1 & Hg & Hkeep1).
    destruct (count_grid_ok _ _ _ _ _ _ _ Hcount) as (-> & Hans & _).
    rewrite length_seq in Hans.
    destruct (IH _ _ Hloop HM1) as (HM' & Hnum & Hans' & Hcalls & Hkeep & Hcached).
    cbn [sel_Map sel_tot_ans sel_tot_num sel_calls] in *.
    rewrite length_app in Hcalls. cbn [length] in Hcalls.
    split_and!; [done| | | |cbn [length]; lia| |].
    + rewrite Hnum, length_seq, fmap_cons. cbn [sum_list sum_list_with]. unfold id. lia.
    + lia.
    + rewrite length_seq in Hans'. lia.
    + intros j gj Hj. by apply Hkeep, Hkeep1.
    + intros [|n] Hn.
      * rewrite Nat.add_0_r. apply mk_is_Some with g. by apply Hkeep.
      * replace (idx + S n)%nat with (S idx + n)%nat by lia. apply Hcached.
        cbn [length] in Hn. lia.
Qed.

(** X21. [pretrain_selector] leaves in [HasAnswer_Map] a grid of flags for
    every batch of the loader, calls the model once for each batch, and
    counts in [tot_num] the cells of its pass, [num_docs] for each example,
    of which [tot_ans] hold an answer. *)
Theorem pretrain_selector_totals (data_loader : list Batch) (M : gmap nat pygrid)
    (st : SelectorState) :
  flags_only M →
  pretrain_selector args corpus draw display_iter data_loader M = Ok st →
  sel_tot_num st = Z.of_nat (num_docs corpus * sum_list (batch_size <$> data_loader))
  ∧ 0 <= sel_tot_ans st <= sel_tot_num st
  ∧ length (sel_calls st) = length data_loader
  ∧ flags_only (sel_Map st)
  ∧ ∀ n : nat, (n < length data_loader)%nat → is_Some (sel_Map st !! n).
Proof.
  intros HM Hrun.
  destruct (selector_loop_ok _ _ _ _ Hrun HM) as (HM' & Hnum & Hans & Hcalls & _ & Hcached).
  cbn [sel_Map sel_tot_ans sel_tot_num sel_calls length] in *.
  split_and!; [lia|lia|lia|lia|done|done].
Qed.

(** X22. The grids of flags that [pretrain_selector] leaves behind are not
    those [update_evidence] reads: after a pass of [pretrain_selector] over
    a loader, the first step of [update_evidence] over this loader finds the
    batch in the cache and raises [TypeError] when it builds the targets. *)
Theorem selector_then_update_evidence (b : Batch) (rest : list Batch)
    (M : gmap nat pygrid) (st : SelectorState) :
  flags_only M →
  pretrain_selector args corpus draw display_iter (b :: rest) M = Ok st →
  evidence_head args corpus 0 b (sel_Map st) = Raise TypeError.
Proof.
  intros HM. unfold pretrain_selector. cbn [selector_loop sel_Map sel_tot_ans sel_tot_num sel_calls].
  destruct (selector_visit _ _ _ _ _) as [[g M1]|e] eqn:Hvisit; cbn [mbind result_bind]; [|done].
  destruct (count_grid _ _ _ _ _) as [[ta1 tn1]|e] eqn:Hcount; cbn [mbind result_bind]; [|done].
  destruct (sample_rows _ _) as [rows|e]; cbn [mbind result_bind]; [|done].
  destruct (selector_log _ _ _) as [[]|e] eqn:Hlog; cbn [mbind result_bind]; [|done].
  intros Hloop.
  destruct (selector_visit_ok _ _ _ _ _ Hvisit HM) as (HM1 & Hg & _).
  destruct (count_grid_ok _ _ _ _ _ _ _ Hcount) as (Hnum & _ & Hcells).
  destruct (selector_loop_ok _ _ _ _ Hloop HM1) as (_ & _ & _ & _ & Hkeep & _).
  cbn [sel_Map] in Hkeep. apply Hkeep in Hg.
  assert (0 < num_docs corpus ∧ 0 < batch_size b)%nat as [Hdocs Hsize].
  { unfold selector_log in Hlog. destruct (decide (display_iter = 0)); [done|].
    rewrite Z.mod_0_l in Hlog by done. destruct (decide (0 = 0)); [|done].
    destruct (decide (tn1 = 0)) as [|Hne]; [done|]. rewrite length_seq in Hnum. nia. }
  unfold evidence_head. rewrite Hg. cbn [mbind result_bind].
  destruct (sample_rows_total g (seq 0 (num_docs corpus))) as [rows' ->].
  { intros d Hd. apply elem_of_seq in Hd. destruct (Hcells d 0%nat) as [has_a Hcell]; [|done|].
    - apply elem_of_seq. lia.
    - unfold pygrid in *. destruct (g !! d) as [row|]; [done|]. simpl in Hcell. done. }
  cbn [mbind result_bind].
  destruct (num_docs corpus) as [|D]; [lia|]. destruct (batch_size b) as [|B]; [lia|].
  destruct (Hcells 0%nat 0%nat) as [has_a Hcell]; [apply elem_of_seq; lia|lia|].
  cbn [seq py_targets_of_docs py_targets_of_row]. rewrite Hcell. done.
Qed.

End selector_props.

(** The small run: three calls; the second question has no answer in its
    document and is trained on the top prediction, the span (1, 1). *)
Lemma pretrain_reader_targets_witness :
  match pretrain_reader (H := toy_externals) (N := Q_number) searchqa_args run_corpus
          reader_predict run_loader fresh_globals with
  | Ok (G', count_ans, count_tot, calls) =>
      map reader_targets calls
      = [[[(1, 1)]; [(1, 1)]; [(0, 0)]]; [[(1, 1)]; [(1, 1)]; [(0, 0)]];
         [[(1, 1)]; [(1, 1)]; [(0, 0)]]]
      ∧ length calls = (length run_loader * num_docs run_corpus)%nat
      ∧ (∀ (n : nat) (b : Batch) (d : nat),
            run_loader !! n = Some b → (d < num_docs run_corpus)%nat →
            ∃ (c : ReaderCall) (g : grid),
              calls !! (n * num_docs run_corpus + d)%nat = Some c
              ∧ reader_doc c = d
              ∧ HasAnswer_Map G' !! n = Some g
              ∧ g !! d = Some (reader_HasAnswer c)
              ∧ length (reader_targets c) = batch_size b
              ∧ ∀ i : nat, (i < batch_size b)%nat →
                  ∃ (cl : cell) (l : list span),
                    reader_HasAnswer c !! i = Some cl
                    ∧ reader_targets c !! i = Some l
                    ∧ (if cl.1 then l = cl.2
                       else ∃ s e : Z, at2 (pred_s (reader_predict n d)) i 0 = Ok s
                                       ∧ at2 (pred_e (reader_predict n d)) i 0 = Ok e
                                       ∧ l = [(s, e)])
                    ∧ (HasAnswer_Map fresh_globals !! n = None →
                       has_answer_cell (H := toy_externals) searchqa_args run_corpus b d i
                       = Ok cl))
      ∧ (∀ (c : ReaderCall) (l : list span), c ∈ calls → l ∈ reader_targets c → l ≠ [])
      ∧ 0 <= count_tot <= count_ans
      ∧ Evidence_Label G' = Evidence_Label fresh_globals
      ∧ cache_wf G'
  | Raise _ => False
  end.
Proof.
  destruct (pretrain_reader _ _ _ _ _) as [[[[G' count_ans] count_tot] calls]|e] eqn:Hrun.
  - split.
    + vm_compute in Hrun. by injection Hrun as <- <- <- <-.
    + apply (pretrain_reader_targets (H := toy_externals) (N := Q_number) searchqa_args
               run_corpus reader_predict run_loader fresh_globals G' count_ans count_tot
               calls); [|exact Hrun].
      intros idx g Hg. unfold fresh_globals in Hg. cbn [HasAnswer_Map] in Hg.
      by rewrite lookup_empty in Hg.
  - vm_compute in Hrun. discriminate Hrun.
Defined.

(** The small run of the selector, from the empty dictionary. *)
Lemma pretrain_selector_totals_witness :
  match pretrain_selector (H := toy_externals) searchqa_args run_corpus run_draw 25
          run_loader ∅ with
  | Ok st =>
      sel_tot_num st = Z.of_nat (num_docs run_corpus * sum_list (batch_size <$> run_loader))
      ∧ 0 <= sel_tot_ans st <= sel_tot_num st
      ∧ length (sel_calls st) = length run_loader
      ∧ flags_only (sel_Map st)
      ∧ ∀ n : nat, (n < length run_loader)%nat → is_Some (sel_Map st !! n)
  | Raise _ => False
  end.
Proof.
  destruct (pretrain_selector _ _ _ _ _ _) as [st|e] eqn:Hrun.
  - apply (pretrain_selector_totals (H := toy_externals) searchqa_args run_corpus run_draw 25
             run_loader ∅ st); [|exact Hrun].
    intros idx g Hg. by rewrite lookup_empty in Hg.
  - vm_compute in Hrun. discriminate Hrun.
Defined.

(** The small run of the selector, then the first step of the evidence
    pass. *)
Lemma selector_then_update_evidence_witness :
  match pretrain_selector (H := toy_externals) searchqa_args run_corpus run_draw 25
          run_loader ∅ with
  | Ok st =>
      evidence_head (H := toy_externals) searchqa_args run_corpus 0
        {| ex_id := [0; 1; 2]%nat; batch_size := 3 |} (sel_Map st) = Raise TypeError
  | Raise _ => False
  end.
Proof.
  destruct (pretrain_selector _ _ _ _ _ _) as [st|e] eqn:Hrun.
  - apply (selector_then_update_evidence (H := toy_externals) searchqa_args run_corpus
             run_draw 25 {| ex_id := [0; 1; 2]%nat; batch_size := 3 |} [] ∅ st);
      [|exact Hrun].
    intros idx g Hg. by rewrite lookup_empty in Hg.
  - vm_compute in Hrun. discriminate Hrun.
Defined.

(** ** The loop of [validate_unofficial_with_doc] *)

Lemma foldr_add_snoc (l : list Z) (h : Z) :
  foldr Z.add 0 (l ++ [h]) = foldr Z.add 0 l + h.
Proof. induction l as [|x l IH]; simpl; lia. Qed.

Lemma psum_0 (hits : list Z) (h : Z) : hits !! 0%nat = Some h → psum hits 0 = h.
Proof. destruct hits as [|h0 hits]; [done|]. intros [= ->]. unfold psum. simpl. lia. Qed.

Lemma psum_S (hits : list Z) (k : nat) (h : Z) :
  hits !! S k = Some h → psum hits (S k) = psum hits k + h.
Proof.
  intros Hh. unfold psum. rewrite (take_S_r hits (S k) h Hh). apply foldr_add_snoc.
Qed.

Lemma cumulate_spec (hits : list Z) (E : nat) (n j : nat) (aa bb : list Z)
    (log : list (Z * Z)) :
  (0 < E)%nat →
  ((0 < j)%nat → aa !! (j - 1)%nat = Some (psum hits (j - 1))
               ∧ bb !! (j - 1)%nat = Some (Z.of_nat j * Z.of_nat E)) →
  (∀ k : nat, (j <= k < j + n)%nat →
      is_Some (hits !! k) ∧ aa !! k = hits !! k ∧ bb !! k = Some (Z.of_nat E)) →
  cumulate (seq j n) aa bb log = log ++ map (hit_ratio hits E) (seq j n).
Proof.
  intros HE. revert j aa bb log. induction n as [|n IH]; intros j aa bb log Hprev Hnext.
  - simpl. by rewrite app_nil_r.
  - cbn [seq cumulate map].
    destruct (Hnext j) as ([h Hh] & Haj & Hbj); [lia|]. rewrite Hh in Haj.
    destruct (decide (0 < j)%nat) as [Hj|Hj].
    + destruct (Hprev Hj) as [Hap Hbp]. rewrite Haj, Hap, Hbj, Hbp.
      cbn [of_option mbind result_bind].
      rewrite !list_lookup_insert_eq by (eapply lookup_lt_Some; eassumption).
      cbn [of_option mbind result_bind].
      destruct (decide (Z.of_nat E + Z.of_nat j * Z.of_nat E = 0)) as [Hz|_]; [nia|].
      rewrite IH.
      * rewrite <- app_assoc. f_equal. cbn [app]. f_equal. unfold hit_ratio.
        destruct j as [|j']; [lia|]. replace (S j' - 1)%nat with j' by lia.
        rewrite (psum_S hits j' h Hh). f_equal; lia.
      * intros _. replace (S j - 1)%nat with j by lia.
        rewrite !list_lookup_insert_eq by (eapply lookup_lt_Some; eassumption).
        destruct j as [|j']; [lia|]. replace (S j' - 1)%nat with j' by lia.
        rewrite (psum_S hits j' h Hh). split; f_equal; lia.
      * intros k Hk. destruct (Hnext k) as (Hhk & Hak & Hbk); [lia|].
        rewrite !list_lookup_insert_ne by lia. done.
    + assert (j = 0%nat) as -> by lia. cbn [mbind result_bind].
      rewrite Haj, Hbj. cbn [of_option mbind result_bind].
      destruct (decide (Z.of_nat E = 0)) as [Hz|_]; [lia|].
      rewrite IH.
      * rewrite <- app_assoc. f_equal. cbn [app]. f_equal. unfold hit_ratio.
        rewrite (psum_0 hits h Hh). f_equal; lia.
      * intros _. simpl. rewrite Haj, Hbj, (psum_0 hits h Hh). split; f_equal; lia.
      * intros k Hk. apply Hnext. lia.
Qed.

Section validate_props.
Context `{Externals} `{N : Number}.
Variable args : Args.
Variable corpus : Corpus.
Variable predict : nat → nat → Prediction.
Variable scores_doc_num : nat → list (list num).
Variable sort_desc : list num → list nat.

Local Abbreviation hit := (rank_hit args corpus scores_doc_num sort_desc).
Local Abbreviation hits_of := (hits_from args corpus scores_doc_num sort_desc).

Lemma rank_hits_ok (idx : nat) (b : Batch) (i : nat) (t : list num) (js : list nat)
    (aa bb aa' bb' : list Z) :
  scores_doc_num idx !! i = Some t →
  rank_hits args corpus b i (sort_desc t) js aa bb = Ok (aa', bb') → NoDup js →
  length aa' = length aa ∧ length bb' = length bb
  ∧ (∀ j : nat, j ∈ js → (j < length bb)%nat)
  ∧ (∀ (j : nat) (x : Z), bb !! j = Some x →
        bb' !! j = Some (if decide (j ∈ js) then x + 1 else x))
  ∧ (∀ (j : nat) (a : Z), aa !! j = Some a →
        aa' !! j = Some (if decide (j ∈ js)
                         then a + (if hit idx b i j then 1 else 0) else a)).
Proof.
  intros Ht. revert aa bb. induction js as [|j0 js IH]; intros aa bb; cbn [rank_hits].
  - intros [= <- <-] _. split_and!; [done|done| | |].
    + intros j Hj. by apply elem_of_nil in Hj.
    + intros j x Hx. by rewrite decide_False by apply not_elem_of_nil.
    + intros j a Ha. by rewrite decide_False by apply not_elem_of_nil.
  - destruct (sort_desc t !! j0) as [idx_doc|] eqn:Hind;
      cbn [of_option mbind result_bind]; [|done].
    destruct (doc_text_of corpus b idx_doc i) as [doc_text|e] eqn:Hdoc;
      cbn [mbind result_bind]; [|done].
    destruct (ex_id b !! i) as [q|] eqn:Hq; cbn [of_option mbind result_bind]; [|done].
    destruct (exs_with_doc corpus !! q) as [ex|] eqn:Hex;
      cbn [of_option mbind result_bind]; [|done].
    destruct (has_answer args (answer ex) doc_text) as [[has_a spans]|e] eqn:Hha;
      cbn [mbind result_bind]; [|done].
    assert (hit idx b i j0 = has_a) as Hhit.
    { unfold rank_hit. rewrite Ht. cbn [of_option mbind result_bind].
      rewrite Hind. cbn [of_option mbind result_bind].
      rewrite Hdoc. cbn [mbind result_bind].
      rewrite Hq. cbn [of_option mbind result_bind].
      rewrite Hex. cbn [of_option mbind result_bind]. by rewrite Hha. }
    intros Hrun Hnd. apply NoDup_cons in Hnd as [Hj0 Hnd].
    assert (∃ aa1 : list Z,
              (if has_a then a ← of_option IndexError (aa !! j0); Ok (<[j0 := a + 1]> aa)
               else Ok aa) = Ok aa1
              ∧ length aa1 = length aa
              ∧ ∀ (j : nat) (a : Z), aa !! j = Some a →
                  aa1 !! j = Some (if decide (j = j0)
                                   then a + (if has_a then 1 else 0) else a))
      as (aa1 & Haa1 & Hlen1 & Hle1).
    { destruct has_a.
      - destruct (aa !! j0) as [a0|] eqn:Ha0; cbn [of_option mbind result_bind] in *; [|done].
        exists (<[j0 := a0 + 1]> aa). split_and!; [done|apply length_insert|].
        intros j a Ha. destruct (decide (j = j0)) as [->|Hne].
        + rewrite list_lookup_insert_eq by (by apply lookup_lt_Some in Ha0). congruence.
        + by rewrite list_lookup_insert_ne by done.
      - exists aa. split_and!; [done|done|]. intros j a Ha. rewrite Ha.
        destruct (decide (j = j0)); f_equal; lia. }
    rewrite Haa1 in Hrun. cbn [mbind result_bind] in Hrun.
    destruct (bb !! j0) as [x0|] eqn:Hx0; cbn [of_option mbind result_bind] in Hrun; [|done].
    destruct (IH _ _ Hrun Hnd) as (Hla & Hlb & Hin & Hbb & Haa).
    rewrite length_insert in Hlb, Hin. split_and!; [lia|lia| | |].
    + intros j Hj. apply elem_of_cons in Hj as [->|Hj]; [by apply lookup_lt_Some in Hx0|by apply Hin].
    + intros j x Hx. destruct (decide (j = j0)) as [->|Hne].
      * rewrite (Hbb j0 (x0 + 1)) by (apply list_lookup_insert_eq; by apply lookup_lt_Some in Hx0).
        rewrite decide_False by done. rewrite decide_True by left. congruence.
      * rewrite (Hbb j x) by (by rewrite list_lookup_insert_ne).
        f_equal. destruct (decide (j ∈ js)) as [Hjs|Hjs].
        -- rewrite decide_True; [done|by right].
        -- rewrite decide_False; [done|]. intros Hj. apply elem_of_cons in Hj as [?|?]; done.
    + intros j a Ha. rewrite (Haa j _ (Hle1 j a Ha)). f_equal.
      destruct (decide (j = j0)) as [->|Hne].
      * rewrite decide_False by done. rewrite decide_True by left. by rewrite Hhit.
      * destruct (decide (j ∈ js)) as [Hjs|Hjs].
        -- rewrite decide_True by (by right). done.
        -- rewrite decide_False; [done|]. intros Hj. apply elem_of_cons in Hj as [?|?]; done.
Qed.

Lemma rank_batch_ok (idx : nat) (b : Batch) (rng : list nat) (aa bb aa' bb' : list Z) :
  rank_batch args corpus scores_doc_num sort_desc idx b rng aa bb = Ok (aa', bb') →
  length aa' = length aa ∧ length bb' = length bb
  ∧ (rng ≠ [] → (display_num <= length bb)%nat)
  ∧ (∀ (j : nat) (x : Z), (j < display_num)%nat → bb !! j = Some x →
        bb' !! j = Some (x + Z.of_nat (length rng)))
  ∧ (∀ (j : nat) (a : Z), (j < display_num)%nat → aa !! j = Some a →
        aa' !! j
        = Some (a + Z.of_nat (length (filter (fun i => hit idx b i j = true) rng)))).
Proof.
  revert aa bb. induction rng as [|i rng IH]; intros aa bb; cbn [rank_batch].
  - intros [= <- <-]. split_and!; [done|done|done| |].
    + intros j x _ Hx. rewrite Hx. f_equal. simpl. lia.
    + intros j a _ Ha. rewrite Ha. f_equal. simpl. lia.
  - destruct (scores_doc_num idx !! i) as [t|] eqn:Ht;
      cbn [of_option mbind result_bind]; [|done].
    destruct (rank_hits _ _ _ _ _ _ _ _) as [[aa1 bb1]|e] eqn:Hhits;
      cbn [mbind result_bind]; [|done].
    intros Hrun. destruct (IH _ _ Hrun) as (Hla & Hlb & _ & Hbb & Haa).
    destruct (rank_hits_ok _ _ _ _ _ _ _ _ _ Ht Hhits (NoDup_seq 0 display_num))
      as (Hla1 & Hlb1 & Hin1 & Hbb1 & Haa1).
    split_and!; [lia|lia| | |].
    + intros _. specialize (Hin1 (display_num - 1)%nat).
      unfold display_num in *. assert (9 < length bb)%nat; [|lia].
      apply Hin1. apply elem_of_seq. lia.
    + intros j x Hj Hx. rewrite (Hbb j (x + 1) Hj).
      * f_equal. cbn [length]. lia.
      * rewrite (Hbb1 j x Hx). rewrite decide_True; [done|]. apply elem_of_seq. lia.
    + intros j a Hj Ha.
      rewrite (Haa j (a + (if hit idx b i j then 1 else 0)) Hj).
      * f_equal. rewrite filter_cons.
        destruct (hit idx b i j) eqn:Hhit.
        -- rewrite decide_True by done. cbn [length]. lia.
        -- rewrite decide_False by done. lia.
      * rewrite (Haa1 j a Ha). rewrite decide_True; [done|]. apply elem_of_seq. lia.
Qed.

Lemma picks_length (b : Batch) (scores : list (list (string * num))) (rng : list nat)
    (ps : list (string * list pyans)) :
  picks corpus b scores rng = Ok ps → length ps = length rng.
Proof.
  intros Hpicks. apply picks_ok in Hpicks. by rewrite (Forall2_length _ _ _ Hpicks).
Qed.

Lemma validate_batch_ok (idx : nat) (b : Batch) (E : nat) (hits : nat → Z)
    (aa bb aa' bb' : list Z) (ps : list (string * list pyans)) :
  validate_batch args corpus predict scores_doc_num sort_desc idx b aa bb = Ok (ps, aa', bb') →
  counts_ok E hits aa bb →
  counts_ok (E + batch_size b) (fun j => hits j + hits_of idx [b] j) aa' bb'
  ∧ length bb' = length bb
  ∧ length ps = batch_size b
  ∧ ((0 < batch_size b)%nat → (display_num <= length bb)%nat).
Proof.
  unfold validate_batch.
  destruct (votes_of_batch _ _ _ _ _ _ _) as [scores|e]; cbn [mbind result_bind]; [|done].
  destruct (rank_batch _ _ _ _ _ _ _ _ _) as [[aa1 bb1]|e] eqn:Hrank;
    cbn [mbind result_bind]; [|done].
  destruct (picks _ _ _) as [ps1|e] eqn:Hpicks; cbn [mbind result_bind]; [|done].
  intros [= <- <- <-] [Hlen Hcount].
  destruct (rank_batch_ok _ _ _ _ _ _ _ Hrank) as (Hla & Hlb & Hten & Hbb & Haa).
  rewrite length_seq in *. split_and!; [|done| |].
  - split; [lia|]. intros j Hj Hjb. rewrite Hlb in Hjb.
    destruct (Hcount j Hj Hjb) as (Hb & Ha).
    rewrite (Hbb j _ Hj Hb), (Haa j _ Hj Ha). split; [f_equal; lia|].
    f_equal. cbn [hits_from]. lia.
  - rewrite (picks_length _ _ _ _ Hpicks). apply length_seq.
  - intros Hb. apply Hten. destruct (batch_size b); [lia|done].
Qed.

Lemma hits_from_app (idx : nat) (l1 l2 : list Batch) (j : nat) :
  hits_of idx (l1 ++ l2) j = hits_of idx l1 j + hits_of (idx + length l1) l2 j.
Proof.
  revert idx. induction l1 as [|b l1 IH]; intros idx; cbn [app hits_from length].
  - rewrite Nat.add_0_r. lia.
  - rewrite IH. replace (S idx + length l1)%nat with (idx + S (length l1))%nat by lia. lia.
Qed.

Lemma validate_loop_ok (mode : string) (idx : nat) (data_loader : list Batch)
    (E E' : nat) (hits : nat → Z) (aa bb aa' bb' : list Z)
    (out out' : list (string * list pyans)) :
  validate_loop args corpus predict scores_doc_num sort_desc mode idx data_loader E aa bb out
    = Ok (E', aa', bb', out') →
  counts_ok E hits aa bb →
  (∃ n : nat,
      (n <= length data_loader)%nat
      ∧ E' = (E + sum_list (batch_size <$> take n data_loader))%nat
      ∧ counts_ok E' (fun j => hits j + hits_of idx (take n data_loader) j) aa' bb'
      ∧ (n = length data_loader ∨ (mode = "train" ∧ 1000 <= E')%nat)
      ∧ (mode = "train" → (E < 1000)%nat →
           ∀ m : nat, (m < n)%nat →
             (E + sum_list (batch_size <$> take m data_loader) < 1000)%nat))
  ∧ length bb' = length bb
  ∧ length out' = (length out + (E' - E))%nat
  ∧ (E <= E' <= E + sum_list (batch_size <$> data_loader))%nat
  ∧ ((E < E')%nat → (display_num <= length bb)%nat)
  ∧ (E' = (E + sum_list (batch_size <$> data_loader))%nat ∨ (mode = "train" ∧ 1000 <= E')%nat)
  ∧ (mode = "train" → (E < 1000)%nat →
        ∀ B : nat, Forall (fun b => (batch_size b <= B)%nat) data_loader →
          (E' < 1000 + B)%nat).
Proof.
  revert idx E hits aa bb out.
  induction data_loader as [|b rest IH]; intros idx E hits aa bb out; cbn [validate_loop].
  - intros [= <- <- <- <-] Hc. simpl. split_and!; [|done|lia|lia|lia|lia|left; lia|].
    + exists 0%nat. simpl. split_and!; [lia|lia| |by left|intros _ _ m Hm; lia].
      destruct Hc as [Hlen Hc]. split; [done|]. intros j Hj Hjb.
      destruct (Hc j Hj Hjb) as [Hb Ha]. split; [done|]. rewrite Ha. f_equal. lia.
    + intros _ HE B _. lia.
  - destruct (validate_batch _ _ _ _ _ _ _ _ _) as [[[ps aa1] bb1]|e] eqn:Hbatch;
      cbn [mbind result_bind]; [|done].
    intros Hrun Hc.
    destruct (validate_batch_ok _ _ _ _ _ _ _ _ _ Hbatch Hc) as (Hc1 & Hlb1 & Hps & Hten).
    change (sum_list (batch_size <$> b :: rest))
      with (batch_size b + sum_list (batch_size <$> rest))%nat.
    destruct (decide (mode = "train" ∧ (1000 <= E + batch_size b)%nat)) as [[Hmode Hcut]|Hgo].
    + injection Hrun as <- <- <- <-. rewrite length_app.
      split_and!; [|done|lia|lia|lia| |right; split; [done|lia]|].
      * exists 1%nat. change (take 1 (b :: rest)) with [b]. cbn [length].
        change (sum_list (batch_size <$> [b])) with (batch_size b + 0)%nat.
        split_and!; [lia|lia| |right; split; [done|lia]|].
        -- destruct Hc1 as [Hlen1 Hc1]. split; [done|]. intros j Hj Hjb.
           destruct (Hc1 j Hj Hjb) as [Hb Ha]. done.
        -- intros _ HE m Hm. assert (m = 0%nat) as -> by lia. simpl. lia.
      * intros HE. apply Hten. lia.
      * intros _ HE B HB. apply Forall_cons in HB as [HB _]. lia.
    + destruct (IH _ _ _ _ _ _ Hrun Hc1)
        as ((n & Hn & HE' & Hc' & Hstop & Hbelow) & Hlb & Hout & Hle & Hten' & Htot & Hbound).
      rewrite length_app in Hout.
      split_and!; [|lia|lia|lia|lia| | |].
      * exists (S n). cbn [take length].
        change (sum_list (batch_size <$> b :: take n rest))
          with (batch_size b + sum_list (batch_size <$> take n rest))%nat.
        split_and!; [lia|lia| | |].
        -- destruct Hc' as [Hlen' Hc']. split; [done|]. intros j Hj Hjb.
           destruct (Hc' j Hj Hjb) as [Hb Ha]. split; [done|]. rewrite Ha. f_equal.
           cbn [hits_from]. lia.
        -- destruct Hstop as [->|?]; [by left|by right].
        -- intros Hm HE m Hlt. destruct m as [|m]; [simpl; lia|]. cbn [take].
           change (sum_list (batch_size <$> b :: take m rest))
             with (batch_size b + sum_list (batch_size <$> take m rest))%nat.
           assert (E + batch_size b < 1000)%nat as HE1.
           { destruct (decide (E + batch_size b < 1000)%nat); [done|].
             exfalso. apply Hgo. split; [done|lia]. }
           specialize (Hbelow Hm HE1 m ltac:(lia)). lia.
      * intros HE. destruct (decide (0 < batch_size b)%nat); [by apply Hten|].
        rewrite <- Hlb1. apply Hten'. lia.
      * destruct Htot as [->|?]; [left; lia|by right].
      * intros Hm HE B HB. apply Forall_cons in HB as [HB HBrest].
        apply Hbound; [done| |done]. destruct (decide (E + batch_size b < 1000)%nat); [done|].
        exfalso. apply Hgo. split; [done|lia].
Qed.

Lemma counts_ok_init :
  counts_ok 0 (fun _ => 0) (replicate (num_docs corpus) 0) (replicate (num_docs corpus) 0).
Proof.
  split; [by rewrite !length_replicate|]. intros j _ Hj. rewrite length_replicate in Hj.
  by rewrite lookup_replicate_2 by done.
Qed.

(** X23. The diagnostic of the ranking reads the first ten documents of
    each example into counters that have one entry for each document slot:
    with fewer than ten document slots, a validation that meets an example
    raises, whatever the mode. *)
Theorem validate_needs_ten_documents (mode : string) (data_loader : list Batch) (b : Batch) :
  (num_docs corpus < display_num)%nat →
  b ∈ data_loader → (0 < batch_size b)%nat →
  ∃ e : exn,
    validate_unofficial_with_doc args corpus predict scores_doc_num sort_desc mode data_loader
    = Raise e.
Proof.
  intros Hdocs Hb Hsize. unfold validate_unofficial_with_doc.
  destruct (validate_loop _ _ _ _ _ _ _ _ _ _ _ _) as [[[[E' aa'] bb'] out']|e] eqn:Hloop;
    cbn [mbind result_bind]; [|by exists e].
  exfalso.
  destruct (validate_loop_ok _ _ _ _ _ _ _ _ _ _ _ _ Hloop counts_ok_init)
    as (_ & _ & _ & _ & Hten & Htot & _).
  rewrite length_replicate in Hten.
  assert (0 < sum_list (batch_size <$> data_loader))%nat as Hpos.
  { clear -Hb Hsize. induction data_loader as [|b0 l IH]; [by apply elem_of_nil in Hb|].
    change (sum_list (batch_size <$> b0 :: l))
      with (batch_size b0 + sum_list (batch_size <$> l))%nat.
    apply elem_of_cons in Hb as [<-|Hb]; [lia|]. specialize (IH Hb). lia. }
  assert (0 < E')%nat as HE by (destruct Htot as [->|[_ ?]]; lia).
  specialize (Hten HE). lia.
Qed.

(** X24. A validation that returns has made one prediction for each example
    it counts.  In the modes other than ["train"] it has seen every example
    of the loader; in the mode ["train"] it stops after the first batch with
    which 1000 examples are reached: it has seen all the examples or at
    least 1000, and fewer than 1000 plus the size of a batch. *)
Theorem validate_examples (mode : string) (data_loader : list Batch) (examples : nat)
    (out : list (string * list pyans)) (ratios : list (Z * Z)) :
  validate_unofficial_with_doc args corpus predict scores_doc_num sort_desc mode data_loader
    = Ok (examples, out, ratios) →
  length out = examples
  ∧ (examples <= sum_list (batch_size <$> data_loader))%nat
  ∧ (mode ≠ "train" → examples = sum_list (batch_size <$> data_loader))
  ∧ (examples = sum_list (batch_size <$> data_loader) ∨ (1000 <= examples)%nat)
  ∧ (mode = "train" →
      ∀ B : nat, Forall (fun b => (batch_size b <= B)%nat) data_loader →
        (examples < 1000 + B)%nat).
Proof.
  unfold validate_unofficial_with_doc.
  destruct (validate_loop _ _ _ _ _ _ _ _ _ _ _ _) as [[[[E' aa'] bb'] out']|e] eqn:Hloop;
    cbn [mbind result_bind]; [|done].
  intros [= <- <- <-].
  destruct (validate_loop_ok _ _ _ _ _ _ _ _ _ _ _ _ Hloop counts_ok_init)
    as (_ & _ & Hout & Hle & _ & Htot & Hbound).
  simpl in Hout. split_and!; [lia|lia| | |].
  - intros Hmode. by destruct Htot as [->|[? _]].
  - destruct Htot as [->|[_ ?]]; [by left|by right].
  - intros Hmode B HB. apply Hbound; [done|lia|done].
Qed.

(** X25. The ratios that a validation writes to its log.  The validation
    has gone through the first [n] batches of the loader, all of them unless
    the mode is ["train"] and 1000 examples have been reached, and not
    before they are.  Without any example the division by zero is dropped
    and nothing is logged.  Otherwise there are ten ratios: with [hits j]
    the number of examples of these batches for which the document that the
    sort of the selection scores puts at the rank [j] holds an answer, the
    ratio of rank [k] is the sum of the hits of the ranks up to [k] over
    [(k + 1) * examples], the mean over the examples and the first [k + 1]
    documents, not the share of the examples with an answer among these
    documents. *)
Theorem validate_ratios (mode : string) (data_loader : list Batch) (examples : nat)
    (out : list (string * list pyans)) (ratios : list (Z * Z)) :
  validate_unofficial_with_doc args corpus predict scores_doc_num sort_desc mode data_loader
    = Ok (examples, out, ratios) →
  ∃ n : nat,
    (n <= length data_loader)%nat
    ∧ examples = sum_list (batch_size <$> take n data_loader)
    ∧ (n = length data_loader ∨ (mode = "train" ∧ 1000 <= examples)%nat)
    ∧ (mode = "train" →
         ∀ m : nat, (m < n)%nat →
           (sum_list (batch_size <$> take m data_loader) < 1000)%nat)
    ∧ (examples = 0%nat → ratios = [])
    ∧ ((0 < examples)%nat →
         ratios
         = map (hit_ratio (map (hits_from args corpus scores_doc_num sort_desc 0
                                  (take n data_loader)) (seq 0 display_num)) examples)
               (seq 0 display_num)).
Proof.
  unfold validate_unofficial_with_doc.
  destruct (validate_loop _ _ _ _ _ _ _ _ _ _ _ _) as [[[[E' aa'] bb'] out']|e] eqn:Hloop;
    cbn [mbind result_bind]; [|done].
  intros [= <- <- <-].
  destruct (validate_loop_ok _ _ _ _ _ _ _ _ _ _ _ _ Hloop counts_ok_init)
    as ((n & Hn & HE' & [Hlen Hcount] & Hstop & Hbelow) & Hlb & _ & _ & Hten & _ & _).
  rewrite length_replicate in Hlb, Hten. simpl in HE'.
  exists n. split_and!; [done|done|done| | |].
  - intros Hmode m Hm. specialize (Hbelow Hmode ltac:(lia) m Hm). simpl in Hbelow. lia.
  - intros HE0. rewrite HE0 in *. unfold display_num. cbn [seq cumulate].
    destruct (decide (0 < 0)%nat); [lia|]. cbn [mbind result_bind].
    destruct (aa' !! 0%nat) as [a|] eqn:Ha; cbn [of_option mbind result_bind]; [|done].
    destruct (Hcount 0%nat) as (-> & _); [unfold display_num; lia| |].
    + apply lookup_lt_Some in Ha. lia.
    + cbn [of_option mbind result_bind]. by destruct (decide (Z.of_nat 0 = 0)).
  - intros HE. specialize (Hten ltac:(lia)).
    change (cumulate (seq 0 display_num) aa' bb' []
            = map (hit_ratio (map (hits_of 0%nat (take n data_loader)) (seq 0 display_num)) E')
                  (seq 0 display_num)).
    rewrite (cumulate_spec (map (hits_of 0%nat (take n data_loader)) (seq 0 display_num))
               E' display_num 0 aa' bb' []); [done|done|lia|].
    intros k Hk. destruct (Hcount k) as (Hb & Ha); [lia|lia|].
    rewrite lookup_map, lookup_seq_lt by lia. simpl.
    split_and!; [by eexists| |done].
    by rewrite Ha.
Qed.

End validate_props.

(** Three document slots and one question. *)
Lemma validate_needs_ten_documents_witness :
  ∃ e : exn,
    validate_unofficial_with_doc (H := toy_externals) (N := Q_number) searchqa_args
      vote_corpus ten_predict ten_selection ten_sort "dev" [one_question] = Raise e.
Proof.
  apply (validate_needs_ten_documents (H := toy_externals) (N := Q_number) searchqa_args
           vote_corpus ten_predict ten_selection ten_sort "dev" [one_question] one_question).
  - unfold display_num. simpl. lia.
  - left.
  - simpl. lia.
Defined.

(** Ten document slots and two batches of one question. *)
Lemma validate_examples_witness :
  match validate_unofficial_with_doc (H := toy_externals) (N := Q_number) searchqa_args
          ten_corpus ten_predict ten_selection ten_sort "train"
          [one_question; one_question] with
  | Ok (examples, out, ratios) =>
      length out = examples
      ∧ (examples <= sum_list (batch_size <$> [one_question; one_question]))%nat
      ∧ ("train" ≠ "train" →
           examples = sum_list (batch_size <$> [one_question; one_question]))
      ∧ (examples = sum_list (batch_size <$> [one_question; one_question])
         ∨ (1000 <= examples)%nat)
      ∧ ("train" = "train" →
           ∀ B : nat,
             Forall (fun b => (batch_size b <= B)%nat) [one_question; one_question] →
             (examples < 1000 + B)%nat)
  | Raise _ => False
  end.
Proof.
  destruct (validate_unofficial_with_doc _ _ _ _ _ _ _) as [[[examples out] ratios]|e] eqn:Hrun.
  - exact (validate_examples (H := toy_externals) (N := Q_number) searchqa_args ten_corpus
             ten_predict ten_selection ten_sort "train" [one_question; one_question]
             examples out ratios Hrun).
  - vm_compute in Hrun. discriminate Hrun.
Defined.

(** The same run: the ratios 2/2, 4/4, 4/6, 6/8, ... of two questions whose
    documents of the ranks 0 and 1 hold the answer and whose document of
    the rank 2 does not, and so on over the three documents. *)
Lemma validate_ratios_witness :
  match validate_unofficial_with_doc (H := toy_externals) (N := Q_number) searchqa_args
          ten_corpus ten_predict ten_selection ten_sort "dev"
          [one_question; one_question] with
  | Ok (examples, out, ratios) =>
      ratios = [(2, 2); (4, 4); (4, 6); (6, 8); (8, 10); (8, 12); (10, 14); (12, 16);
                (12, 18); (14, 20)]
      ∧ ∃ n : nat,
          (n <= length [one_question; one_question])%nat
          ∧ examples = sum_list (batch_size <$> take n [one_question; one_question])
          ∧ (n = length [one_question; one_question]
             ∨ ("dev" = "train" ∧ 1000 <= examples)%nat)
          ∧ ("dev" = "train" →
               ∀ m : nat, (m < n)%nat →
                 (sum_list (batch_size <$> take m [one_question; one_question]) < 1000)%nat)
          ∧ (examples = 0%nat → ratios = [])
          ∧ ((0 < examples)%nat →
               ratios
               = map (hit_ratio
                        (map (hits_from (H := toy_externals) (N := Q_number) searchqa_args
                                ten_corpus ten_selection ten_sort 0
                                (take n [one_question; one_question]))
                             (seq 0 display_num)) examples)
                     (seq 0 display_num))
  | Raise _ => False
  end.
Proof.
  destruct (validate_unofficial_with_doc _ _ _ _ _ _ _) as [[[examples out] ratios]|e] eqn:Hrun.
  - split.
    + vm_compute in Hrun. by injection Hrun as <- <- <-.
    + exact (validate_ratios (H := toy_externals) (N := Q_number) searchqa_args ten_corpus
               ten_predict ten_selection ten_sort "dev" [one_question; one_question]
               examples out ratios Hrun).
  - vm_compute in Hrun. discriminate Hrun.
Defined.

(** ** The epochs of [main] *)

Section main_props.
Variable dataset : string.
Variable valid_metric : string.
Variable dev_result : nat → Metrics.
Variable test_result : nat → Metrics.

Local Abbreviation score :=
  (fun epoch : nat => metric valid_metric (epoch_result dataset dev_result test_result epoch)).

Lemma epochs_ok (es : list nat) (st st' : EpochStats) :
  epochs dataset valid_metric dev_result test_result es st = Ok st' →
  (st' = st ∧ ∀ e : nat, e ∈ es → ∃ v : Q, score e = Ok v ∧ (v <= best_valid st)%Q)
  ∨ ∃ (es1 : list nat) (e : nat) (es2 new : list nat),
      es = es1 ++ e :: es2
      ∧ saved st' = saved st ++ new ++ [e]
      ∧ score e = Ok (best_valid st')
      ∧ (best_valid st < best_valid st')%Q
      ∧ (∀ e' : nat, e' ∈ es1 → ∃ v : Q, score e' = Ok v ∧ (v < best_valid st')%Q)
      ∧ (∀ e' : nat, e' ∈ es2 → ∃ v : Q, score e' = Ok v ∧ (v <= best_valid st')%Q).
Proof.
  revert st. induction es as [|e es IH]; intros st; cbn [epochs].
  - intros [= <-]. left. split; [done|]. intros e He. by apply elem_of_nil in He.
  - destruct (metric valid_metric _) as [v|x] eqn:Hv; cbn [mbind result_bind]; [|done].
    destruct (Qlt_le_dec (best_valid st) v) as [Hlt|Hle]; intros Hrun.
    + right. destruct (IH _ Hrun) as [[-> Hall]|(es1 & e2 & es2 & new & -> & Hsaved & He2 & Hlt2 & H1 & H2)];
        cbn [best_valid saved] in *.
      * exists [], e, es, []. split_and!; [done|done|done|done| |done].
        intros e' He'. by apply elem_of_nil in He'.
      * exists (e :: es1), e2, es2, (e :: new). split_and!; [done| |done| | |done].
        -- rewrite Hsaved. by rewrite <- !app_assoc.
        -- by apply Qlt_trans with v.
        -- intros e' He'. apply elem_of_cons in He' as [->|He']; [by exists v|by apply H1].
    + destruct (IH _ Hrun) as [[-> Hall]|(es1 & e2 & es2 & new & -> & Hsaved & He2 & Hlt2 & H1 & H2)].
      * left. split; [done|]. intros e' He'.
        apply elem_of_cons in He' as [->|He']; [by exists v|by apply Hall].
      * right. exists (e :: es1), e2, es2, new. split_and!; [done|done|done|done| |done].
        intros e' He'. apply elem_of_cons in He' as [->|He']; [|by apply H1].
        exists v. split; [done|]. by apply Qle_lt_trans with (best_valid st).
Qed.

(** X26. The model that [main] keeps.  When the epochs are over, either no
    epoch has scored above 0 and [model.save] has not been called, or the
    last call of [model.save] is that of the first epoch that reached the
    best score of the run, which is [best_valid].  The score is that of the
    test set on webquestions and CuratedTrec, of the dev set otherwise. *)
Theorem main_best_model (num_epochs : Z) (st : EpochStats) :
  main_epochs dataset valid_metric dev_result test_result num_epochs = Ok st →
  (saved st = [] ∧ best_valid st = 0%Q
   ∧ ∀ e : nat, (e < Z.to_nat num_epochs)%nat → ∃ v : Q, score e = Ok v ∧ (v <= 0)%Q)
  ∨ ∃ epoch : nat,
      last (saved st) = Some epoch
      ∧ (epoch < Z.to_nat num_epochs)%nat
      ∧ score epoch = Ok (best_valid st)
      ∧ (0 < best_valid st)%Q
      ∧ (∀ e : nat, (e < epoch)%nat → ∃ v : Q, score e = Ok v ∧ (v < best_valid st)%Q)
      ∧ (∀ e : nat, (e < Z.to_nat num_epochs)%nat →
            ∃ v : Q, score e = Ok v ∧ (v <= best_valid st)%Q).
Proof.
  unfold main_epochs. intros Hrun.
  destruct (epochs_ok _ _ _ Hrun) as [[-> Hall]|(es1 & e & es2 & new & Hes & Hsaved & He & Hlt & H1 & H2)];
    cbn [best_valid saved] in *.
  - left. split_and!; [done|done|]. intros e He. apply Hall. apply elem_of_seq. lia.
  - right. exists e.
    assert (e = length es1) as Hpos.
    { assert (seq 0 (Z.to_nat num_epochs) !! length es1 = Some e) as Hl.
      { rewrite Hes. by rewrite list_lookup_middle. }
      apply lookup_seq in Hl as [-> _]. done. }
    assert (e < Z.to_nat num_epochs)%nat as Hn.
    { apply (f_equal length) in Hes. rewrite length_seq, length_app in Hes. simpl in Hes. lia. }
    assert (∀ e' : nat, (e' < e)%nat → e' ∈ es1) as Hbefore.
    { intros e' He'. apply (list_elem_of_lookup_2 _ e').
      assert (seq 0 (Z.to_nat num_epochs) !! e' = Some e') as Hl by (apply lookup_seq; lia).
      rewrite Hes, lookup_app_l in Hl by lia. done. }
    split_and!; [|done|done|done| |].
    + rewrite Hsaved. cbn [app]. apply last_snoc.
    + intros e' He'. by apply H1, Hbefore.
    + intros e' He'. destruct (decide (e' < e)%nat) as [Hlt'|Hge].
      * destruct (H1 e' (Hbefore e' Hlt')) as (v & Hv & Hvlt). exists v. split; [done|].
        by apply Qlt_le_weak.
      * destruct (decide (e' = e)) as [->|Hne].
        -- exists (best_valid st). split; [done|]. apply Qle_refl.
        -- apply H2. assert (seq 0 (Z.to_nat num_epochs) !! e' = Some e') as Hl
             by (apply lookup_seq; lia).
           rewrite Hes in Hl. rewrite lookup_app_r in Hl by lia.
           destruct (e' - length es1)%nat as [|k] eqn:Hk; [lia|]. simpl in Hl.
           by apply list_elem_of_lookup_2 in Hl.
Qed.

End main_props.

(** Four epochs on CuratedTrec: the model of the epoch 1 is kept. *)
Lemma main_best_model_witness :
  match main_epochs "CuratedTrec" "exact_match" run_dev_result run_test_result 4 with
  | Ok st =>
      (saved st = [] ∧ best_valid st = 0%Q
       ∧ ∀ e : nat, (e < Z.to_nat 4)%nat →
           ∃ v : Q, metric "exact_match"
                      (epoch_result "CuratedTrec" run_dev_result run_test_result e) = Ok v
                    ∧ (v <= 0)%Q)
      ∨ ∃ epoch : nat,
          last (saved st) = Some epoch
          ∧ (epoch < Z.to_nat 4)%nat
          ∧ metric "exact_match"
              (epoch_result "CuratedTrec" run_dev_result run_test_result epoch)
            = Ok (best_valid st)
          ∧ (0 < best_valid st)%Q
          ∧ (∀ e : nat, (e < epoch)%nat →
                ∃ v : Q, metric "exact_match"
                           (epoch_result "CuratedTrec" run_dev_result run_test_result e) = Ok v
                         ∧ (v < best_valid st)%Q)
          ∧ (∀ e : nat, (e < Z.to_nat 4)%nat →
                ∃ v : Q, metric "exact_match"
                           (epoch_result "CuratedTrec" run_dev_result run_test_result e) = Ok v
                         ∧ (v <= best_valid st)%Q)
  | Raise _ => False
  end.
Proof.
  destruct (main_epochs _ _ _ _ _) as [st|e] eqn:Hrun.
  - exact (main_best_model "CuratedTrec" "exact_match" run_dev_result run_test_result 4 st Hrun).
  - vm_compute in Hrun. discriminate Hrun.
Defined.

(** ** The targets of [train] and the predictions of a validation *)

Lemma targets_of_row_ok (g : list (list (bool * list span))) (idx_doc : nat)
    (rng : list nat) (ts : list target) :
  targets_of_row g idx_doc rng = Ok ts →
  Forall2 (fun i t => ∃ (flag : bool) (spans : list span),
                        g !! idx_doc ≫= (fun row : list (bool * list span) => row !! i)
                        = Some (flag, spans)
                        ∧ t = if flag then Spans spans else NoSpan) rng ts.
Proof.
  revert ts. induction rng as [|i rng IH]; intros ts; cbn [targets_of_row].
  - intros [= <-]. constructor.
  - destruct (g !! idx_doc ≫= fun row : list (bool * list span) => row !! i)
      as [[flag spans]|] eqn:Hcell; cbn [of_option mbind result_bind]; [|done].
    destruct (targets_of_row g idx_doc rng) as [ts'|x]; cbn [mbind result_bind]; [|done].
    intros [= <-]. constructor; [by exists flag, spans|by apply IH].
Qed.

Lemma targets_of_docs_ok (g : list (list (bool * list span))) (idx_random : list nat)
    (batch_size : nat)
    (l_list_doc : list (list target)) :
  targets_of_docs g idx_random batch_size = Ok l_list_doc →
  Forall2 (fun d ts => targets_of_row g d (seq 0 batch_size) = Ok ts) idx_random l_list_doc.
Proof.
  revert l_list_doc. induction idx_random as [|d ds IH]; intros l_list_doc;
    cbn [targets_of_docs].
  - intros [= <-]. constructor.
  - destruct (targets_of_row g d _) as [ts|x] eqn:Hrow; cbn [mbind result_bind]; [|done].
    destruct (targets_of_docs g ds batch_size) as [tss|x]; cbn [mbind result_bind]; [|done].
    intros [= <-]. constructor; [done|by apply IH].
Qed.

Section targets_props.
Context `{Externals} `{N : Number}.
Variable args : Args.
Variable corpus : Corpus.

(** X27. The targets of a step of [train] on a batch that is not in the
    cache are those of the matcher: for the slot [s] of the draw and the
    example [i], the model is given the spans that [has_answer] finds in the
    document [idx_random[s]] of the example, and the pair (-1,-1) exactly
    when it finds none. *)
Theorem train_batch_targets (draw : nat → list nat) (idx : nat) (b : Batch)
    (update_step : Z) (G G' : Globals) (c : TrainCall) :
  train_batch args corpus draw idx b update_step G = Ok (c, G') →
  HasAnswer_Map G !! idx = None →
  ∀ s d i : nat, draw idx !! s = Some d → (i < batch_size b)%nat →
    ∃ (flag : bool) (spans : list span),
      has_answer_cell args corpus b d i = Ok (flag, spans)
      ∧ (flag = true ↔ spans ≠ [])
      ∧ call_targets c !! s ≫= (fun l_list : list target => l_list !! i)
        = Some (if flag then Spans spans else NoSpan).
Proof.
  unfold train_batch. intros Hstep Hmiss s d i Hs Hi.
  destruct (visit args corpus idx b G) as [[g G1]|x] eqn:Hvisit;
    cbn [mbind result_bind] in Hstep; [|done].
  destruct (init_evidence idx b (Evidence_Label G1) !! idx) as [Evidence_list|];
    cbn [of_option mbind result_bind] in Hstep; [|done].
  destruct (sample_rows _ _) as [rows|x] eqn:Hrows; cbn [mbind result_bind] in Hstep; [|done].
  destruct (sample_evidence _ _ _) as [ss|x]; cbn [mbind result_bind] in Hstep; [|done].
  destruct (targets_of_docs _ _ _) as [tss|x] eqn:Htargets;
    cbn [mbind result_bind] in Hstep; [|done].
  injection Hstep as <- <-. cbn [call_targets].
  destruct (visit_miss _ _ _ _ _ _ _ Hmiss Hvisit) as (_ & _ & Hmade).
  destruct (sample_rows_ok _ _ _ Hrows s d Hs) as (row & Hrow & _).
  destruct (Forall2_lookup_r _ _ _ _ _ Hmade Hrow) as (d' & Hd' & Hcells).
  apply lookup_seq in Hd' as [-> _]. simpl in Hcells.
  destruct (Forall2_lookup_l _ _ _ i i Hcells) as ([flag spans] & Hcell & Hmatch);
    [apply lookup_seq; lia|].
  exists flag, spans. split_and!; [done| |].
  - apply has_answer_cell_wf in Hmatch. unfold cell_wf in Hmatch. simpl in Hmatch.
    rewrite Hmatch. apply bool_decide_eq_true.
  - destruct (Forall2_lookup_l _ _ _ s d (targets_of_docs_ok _ _ _ _ Htargets) Hs)
      as (ts & Hts & Hrow_ts).
    rewrite Hts. simpl.
    destruct (Forall2_lookup_l _ _ _ i i (targets_of_row_ok _ _ _ _ Hrow_ts))
      as (t & Ht & flag' & spans' & Hcell' & ->); [apply lookup_seq; lia|].
    rewrite Ht. unfold grid, cell in *. rewrite Hrow in Hcell'. simpl in Hcell'.
    rewrite Hcell in Hcell'. by injection Hcell' as <- <-.
Qed.

Lemma votes_of_doc_length (predict : nat → Prediction) (scores_doc_num : list (list num))
    (b : Batch) (idx_doc : nat) (rng : list nat) (scores scores' : list (list (string * num))) :
  votes_of_doc args corpus predict scores_doc_num b idx_doc rng scores = Ok scores' →
  length scores' = length scores.
Proof.
  revert scores. induction rng as [|i rng IH]; intros scores; cbn [votes_of_doc].
  - by intros [= <-].
  - destruct (doc_text_of corpus b idx_doc i) as [doc_text|x]; cbn [mbind result_bind]; [|done].
    destruct (ex_id b !! i) as [q|]; cbn [of_option mbind result_bind]; [|done].
    destruct (exs_with_doc corpus !! q) as [ex|]; cbn [of_option mbind result_bind]; [|done].
    destruct (has_answer args (answer ex) doc_text) as [r|x]; cbn [mbind result_bind]; [|done].
    intros Hrest. rewrite (IH _ Hrest). destruct (scores !! i); [apply length_insert|done].
Qed.

Lemma votes_of_batch_length (predict : nat → Prediction) (scores_doc_num : list (list num))
    (b : Batch) (ds : list nat) (scores scores' : list (list (string * num))) :
  votes_of_batch args corpus predict scores_doc_num b ds scores = Ok scores' →
  length scores' = length scores.
Proof.
  revert scores. induction ds as [|d ds IH]; intros scores; cbn [votes_of_batch].
  - by intros [= <-].
  - destruct (votes_of_doc _ _ _ _ _ _ _ _) as [scores1|x] eqn:Hdoc;
      cbn [mbind result_bind]; [|done].
    intros Hrest. rewrite (IH _ Hrest). by apply votes_of_doc_length in Hdoc.
Qed.

(** X28. The predictions of a batch of a validation are those of the vote:
    the batch has one dictionary of votes for each example, the prediction
    of an example is the answer chosen in its dictionary, and it is scored
    against the answers of its own example.  The diagnostic of the ranking,
    run between the votes and the choice, changes no prediction. *)
Theorem validate_batch_aggregate (predict : nat → nat → Prediction)
    (scores_doc_num : nat → list (list num)) (sort_desc : list num → list nat)
    (idx : nat) (b : Batch) (aa bb aa' bb' : list Z) (ps : list (string * list pyans)) :
  validate_batch args corpus predict scores_doc_num sort_desc idx b aa bb = Ok (ps, aa', bb') →
  ∃ scores : list (list (string * num)),
    votes_of_batch args corpus (predict idx) (scores_doc_num idx) b
      (seq 0 (num_docs corpus)) (replicate (batch_size b) []) = Ok scores
    ∧ length scores = batch_size b
    ∧ map fst ps = map pick_best scores
    ∧ Forall2 (fun i p => ∃ (q : nat) (ex : Example),
                            ex_id b !! i = Some q ∧ exs_with_doc corpus !! q = Some ex
                            ∧ p.2 = answer ex) (seq 0 (batch_size b)) ps.
Proof.
  intros Hrun.
  destruct (validate_batch_votes _ _ _ _ _ _ _ _ _ _ _ _ Hrun) as (scores & Hvotes & Hpicks).
  exists scores. apply picks_ok in Hpicks.
  pose proof (votes_of_batch_length _ _ _ _ _ _ Hvotes) as Hlen.
  rewrite length_replicate in Hlen.
  split_and!; [done|done| |].
  - apply list_eq. intros i. rewrite !lookup_map.
    destruct (scores !! i) as [sc|] eqn:Hsc.
    + assert (i < batch_size b)%nat as Hi by (apply lookup_lt_Some in Hsc; lia).
      destruct (Forall2_lookup_l _ _ _ i i Hpicks) as (p & Hp & sc' & q & ex & Hsc' & _ & _ & ->);
        [apply lookup_seq; lia|].
      rewrite Hp. simpl. congruence.
    + destruct (ps !! i) as [p|] eqn:Hp; [|done].
      destruct (Forall2_lookup_r _ _ _ i p Hpicks Hp) as (i' & Hi' & sc' & _ & _ & Hsc' & _).
      apply lookup_seq in Hi' as [-> _]. simpl in Hsc'. congruence.
  - eapply Forall2_impl; [exact Hpicks|]. intros i p (sc & q & ex & _ & Hq & Hex & ->).
    by exists q, ex.
Qed.

End targets_props.

(** The first step of the small run, from the empty cache. *)
Lemma train_batch_targets_witness :
  match train_batch (H := toy_externals) (args_with_top_k 2) run_corpus run_draw 0
          {| ex_id := [0; 1; 2]%nat; batch_size := 3 |} 0 fresh_globals with
  | Ok (c, G') =>
      ∀ s d i : nat, run_draw 0 !! s = Some d → (i < 3)%nat →
        ∃ (flag : bool) (spans : list span),
          has_answer_cell (H := toy_externals) (args_with_top_k 2) run_corpus
            {| ex_id := [0; 1; 2]%nat; batch_size := 3 |} d i = Ok (flag, spans)
          ∧ (flag = true ↔ spans ≠ [])
          ∧ call_targets c !! s ≫= (fun l_list : list target => l_list !! i)
            = Some (if flag then Spans spans else NoSpan)
  | Raise _ => False
  end.
Proof.
  destruct (train_batch _ _ _ _ _ _ _) as [[c G']|e] eqn:Hstep.
  - apply (train_batch_targets (H := toy_externals) (args_with_top_k 2) run_corpus run_draw 0
             {| ex_id := [0; 1; 2]%nat; batch_size := 3 |} 0 fresh_globals G' c Hstep).
    apply lookup_empty.
  - vm_compute in Hstep. discriminate Hstep.
Defined.

(** A batch of one question over ten document slots. *)
Lemma validate_batch_aggregate_witness :
  match validate_batch (H := toy_externals) (N := Q_number) searchqa_args ten_corpus
          ten_predict ten_selection ten_sort 0 one_question
          (replicate 10 0) (replicate 10 0) with
  | Ok (ps, aa', bb') =>
      ∃ scores : list (list (string * Q)),
        votes_of_batch (H := toy_externals) (N := Q_number) searchqa_args ten_corpus
          (ten_predict 0) (ten_selection 0) one_question
          (seq 0 (num_docs ten_corpus)) (replicate (batch_size one_question) []) = Ok scores
        ∧ length scores = batch_size one_question
        ∧ map fst ps = map (pick_best (N := Q_number)) scores
        ∧ Forall2 (fun i p => ∃ (q : nat) (ex : Example),
                                ex_id one_question !! i = Some q
                                ∧ exs_with_doc ten_corpus !! q = Some ex
                                ∧ p.2 = answer ex) (seq 0 (batch_size one_question)) ps
  | Raise _ => False
  end.
Proof.
  destruct (validate_batch _ _ _ _ _ _ _ _ _) as [[[ps aa'] bb']|e] eqn:Hrun.
  - exact (validate_batch_aggregate (H := toy_externals) (N := Q_number) searchqa_args
             ten_corpus ten_predict ten_selection ten_sort 0 one_question
             (replicate 10 0) (replicate 10 0) aa' bb' ps Hrun).
  - vm_compute in Hrun. discriminate Hrun.
Defined.

(** ** The rounds of the self-training scripts *)

Section rounds_props.
Context `{Externals}.
Variable args : Args.
Variable corpus : Corpus.
Variable data_loader : list Batch.
Variable num_epochs : nat.
Variable draw : nat → nat → nat → list nat.
Variable validate : nat → nat → nat → result unit.
Variable model : nat → nat → ModelOut.

Lemma train_epochs_labels (r : nat) (es : list nat) (G G' : Globals) :
  train_epochs args corpus data_loader draw validate r es G = Ok G' →
  ∀ (idx i : nat) (v : Z),
    label (Evidence_Label G) idx i = Ok v → label (Evidence_Label G') idx i = Ok v.
Proof.
  revert G. induction es as [|epoch es IH]; intros G; cbn [train_epochs].
  - by intros [= <-].
  - destruct (train _ _ _ _ _ _) as [[calls G1]|x] eqn:Htrain; cbn [mbind result_bind]; [|done].
    intros Hrest idx i v Hv. apply (IH _ Hrest).
    destruct (train_loop_ok _ _ _ _ _ _ _ _ _ _ _ Htrain) as (_ & HEL & _); [lia|].
    rewrite HEL. destruct (pass_labels_spec 0 data_loader (Evidence_Label G)) as (Hkeep & _).
    unfold label in *. destruct (Evidence_Label G !! idx) as [row|] eqn:Hrow; [|done].
    by rewrite (Hkeep _ _ Hrow).
Qed.

(** X29. Over the rounds of the self-training scripts, a label that has
    been given to an example is never changed: neither by the epochs of
    [train] nor by the promotions of the rounds that follow. *)
Theorem rounds_keep_labels (rs : list nat) (Evidence_Label0 Evidence_Label1 : gmap nat (list Z)) :
  rounds args corpus data_loader num_epochs draw validate model rs Evidence_Label0
    = Ok Evidence_Label1 →
  ∀ (idx i : nat) (v : Z),
    label Evidence_Label0 idx i = Ok v → v ≠ -1 → label Evidence_Label1 idx i = Ok v.
Proof.
  revert Evidence_Label0. induction rs as [|r rs IH]; intros EL0; cbn [rounds].
  - by intros [= <-].
  - destruct (main_round _ _ _ _ _ _ _ _ _) as [EL|x] eqn:Hround; cbn [mbind result_bind]; [|done].
    intros Hrest idx i v Hv Hne. apply (IH _ Hrest); [|done].
    unfold main_round in Hround.
    destruct (train_epochs _ _ _ _ _ _ _ _) as [G|x] eqn:Htrain;
      cbn [mbind result_bind] in Hround; [|done].
    destruct (update_evidence _ _ _ _ _) as [[G' st]|x] eqn:Hupd;
      cbn [mbind result_bind] in Hround; [|done].
    injection Hround as <-.
    apply (update_evidence_monotone _ _ _ _ _ _ _ Hupd); [|done].
    by apply (train_epochs_labels _ _ _ _ Htrain).
Qed.

End rounds_props.

(** Two rounds of two epochs from a store whose first example is labelled
    with the document 1. *)
Lemma rounds_keep_labels_witness :
  match rounds (H := toy_externals) (args_with_top_k 1) run_corpus run_loader 2
          (fun _ _ => run_draw) (fun _ _ => run_validate) (fun _ => run_model)
          [0; 1]%nat labelled_store with
  | Ok Evidence_Label1 => label Evidence_Label1 0 0 = Ok 1
  | Raise _ => False
  end.
Proof.
  destruct (rounds _ _ _ _ _ _ _ _ _) as [Evidence_Label1|e] eqn:Hrun.
  - apply (rounds_keep_labels (H := toy_externals) (args_with_top_k 1) run_corpus run_loader 2
             (fun _ _ => run_draw) (fun _ _ => run_validate) (fun _ => run_model)
             [0; 1]%nat labelled_store Evidence_Label1 Hrun 0%nat 0%nat 1).
    + reflexivity.
    + lia.
  - vm_compute in Hrun. discriminate Hrun.
Defined.
